(** * Echo Chamber: the state reconciliation core of [src/App.tsx]

    A shallow embedding of the data-handling functions of [src/App.tsx]
    (document parsing, schema normalisation, the variable store reader and
    writer, the conversation cache and the optimistic post-statistics
    handlers), followed by the properties proved about them.

    Conventions of the embedding.
    - Loosely typed documents ([unknown], [Record<string, unknown>]) are
      values of the inductive [value]; an object is an association list in
      insertion order.  Numbers are integers ([Z]): counts and timestamps.
      The source computes on IEEE doubles, where a sum or a difference of
      integers is exact as long as it stays within [MAX_SAFE_INTEGER]; a
      statement that depends on the exact value of a count carries that
      bound.
    - Text is a [string] of 8-bit code units, i.e. the Latin-1 range of the
      UTF-16 code units of a JavaScript string.
    - A computation that may throw returns a [Result]; a computation that
      also logs or calls the host returns an [Eff], the list of events it
      emitted together with its [Result].
    - Data declared by a TypeScript type and held in React state (posts,
      statistics, messages) is a record with [option] for [?] fields. *)

From Stdlib Require Import ZArith String Ascii List Lia DecimalString.
From stdpp Require Import base list strings gmap.

#[local] Set Warnings "-register-all".
#[local] Open Scope string_scope.
#[local] Open Scope list_scope.

(** ** Exceptions and results *)

Inductive exn :=
| TypeError (msg : string)
| RangeError (msg : string)
| SyntaxError (msg : string)
| HostError (msg : string).

Inductive Result (A : Type) :=
| Ok (a : A)
| Raise (e : exn).
Arguments Ok {A} a.
Arguments Raise {A} e.

#[global] Instance Result_ret : MRet Result := @Ok.
#[global] Instance Result_bind : MBind Result :=
  λ A B f m, match m with Ok a => f a | Raise e => Raise e end.

(** ** JavaScript values *)

Inductive value :=
| VUndefined
| VNull
| VBool (b : bool)
| VNum (n : Z)
| VStr (s : string)
| VArr (items : list value)
| VObj (fields : list (string * value)).

(** [!!v] *)
Definition truthy (v : value) : bool :=
  match v with
  | VUndefined | VNull => false
  | VBool b => b
  | VNum n => negb (n =? 0)%Z
  | VStr s => negb (bool_decide (s = ""))
  | VArr _ | VObj _ => true
  end.

Definition nullish (v : value) : bool :=
  match v with VUndefined | VNull => true | _ => false end.

(** [v ?? d] *)
Definition coalesce (v d : value) : value := if nullish v then d else v.
Infix "??" := coalesce (at level 45, left associativity).

(** Own property [k] of an object literal; [undefined] when missing. *)
Fixpoint field (k : string) (o : list (string * value)) : value :=
  match o with
  | [] => VUndefined
  | (k', v) :: o' => if decide (k' = k) then v else field k o'
  end.

Fixpoint has_field (k : string) (o : list (string * value)) : bool :=
  match o with
  | [] => false
  | (k', _) :: o' => if decide (k' = k) then true else has_field k o'
  end.

(** Assignment [o[k] = v]: an existing key keeps its position, a new key is
    appended. *)
Fixpoint set_field (k : string) (v : value) (o : list (string * value))
  : list (string * value) :=
  match o with
  | [] => [(k, v)]
  | (k', v') :: o' =>
      if decide (k' = k) then (k, v) :: o' else (k', v') :: set_field k v o'
  end.

(** Member access [v.k], for the data keys App.tsx reads (none of them is a
    built-in property of strings or arrays): it throws on [null] and
    [undefined] and finds nothing on the other non-objects. *)
Definition get_prop (v : value) (k : string) : Result value :=
  match v with
  | VUndefined | VNull => Raise (TypeError "Cannot read properties of null")
  | VObj o => Ok (field k o)
  | _ => Ok VUndefined
  end.

(** [k in v], used by the source only behind a [typeof v === 'object'] test. *)
Definition in_op (k : string) (v : value) : bool :=
  match v with VObj o => has_field k o | _ => false end.

(** Member access [v.k] where [v] is known to be neither [null] nor
    [undefined], and optional chaining [v?.k]. *)
Definition member (v : value) (k : string) : value :=
  match v with VObj o => field k o | _ => VUndefined end.

(** lodash [_.get(v, k)] with a one-segment path: never throws. *)
Definition lodash_get (v : value) (k : string) : value := member v k.

Definition index_key (i : nat) : string := NilZero.string_of_uint (Nat.to_uint i).

(** The own enumerable properties that [{...v}] copies. *)
Definition own_fields (v : value) : list (string * value) :=
  match v with
  | VObj o => o
  | VArr l => imap (λ i x, (index_key i, x)) l
  | VStr s => imap (λ i c, (index_key i, VStr (String c ""))) (list_ascii_of_string s)
  | _ => []
  end.

(** [{...v, k: x}] *)
Definition spread_with (v : value) (k : string) (x : value) : value :=
  VObj (set_field k x (own_fields v)).

(** [v.map(f)]: only arrays have [map]. *)
Definition array_map (f : value → Result value) (v : value) : Result (list value) :=
  match v with
  | VArr l => mapM f l
  | _ => Raise (TypeError "map is not a function")
  end.

(** ** Schema normaliser: [normalizeEchoChamberFeed] (App.tsx 303-319) *)

(** The callback of [feed.posts.map] (lines 305-314). *)
Definition normalizePost (post : value) : Result value :=
  people_comments ← get_prop post "people_comments";
  if negb (truthy people_comments) then
    People_comments ← get_prop post "People_comments";
    if truthy People_comments
    then Ok (spread_with post "people_comments" People_comments)
    else Ok post
  else Ok post.

Definition normalizeEchoChamberFeed (feed : value) : Result value :=
  posts ← get_prop feed "posts";
  if negb (truthy posts) then Ok feed
  else
    normalizedPosts ← array_map normalizePost posts;
    Ok (spread_with feed "posts" (VArr normalizedPosts)).

(** ** Effects: logging and host calls *)

(** [VariableOption] of the host: a message scope is addressed by the current
    message id or by the sentinel ['latest']. *)
Inductive message_id := MessageId (n : Z) | Latest.

Inductive VariableOption :=
| OptMessage (id : message_id)
| OptChat
| OptCharacter
| OptGlobal.

Inductive event :=
| ConsoleWarn (msg : string) (e : exn)
| ConsoleError (msg : string) (e : exn)
| CallWaitGlobalInitialized (name : string)
| CallGetMvuData (opt : VariableOption)
| CallReplaceMvuData (next : value) (opt : VariableOption)
| CallGetVariables (opt : VariableOption)
| CallReplaceVariables (next : value) (opt : VariableOption)
| CallApply (statData : value)
| CallRefresh.

Record Eff (A : Type) := mkEff { emitted : list event; outcome : Result A }.
Arguments mkEff {A} emitted outcome.
Arguments emitted {A} e.
Arguments outcome {A} e.

#[global] Instance Eff_ret : MRet Eff := λ A a, mkEff [] (Ok a).
#[global] Instance Eff_bind : MBind Eff :=
  λ A B f m,
    match outcome m with
    | Ok a => mkEff (emitted m ++ emitted (f a)) (outcome (f a))
    | Raise e => mkEff (emitted m) (Raise e)
    end.

#[global] Instance Eff_fmap : FMap Eff :=
  λ A B f m, mkEff (emitted m) (match outcome m with Ok a => Ok (f a) | Raise e => Raise e end).

Definition emit (ev : event) : Eff unit := mkEff [ev] (Ok ()).
Definition lift {A} (r : Result A) : Eff A := mkEff [] r.
Definition throw {A} (e : exn) : Eff A := mkEff [] (Raise e).

(** [try { body } catch (e) { handler }] *)
Definition try_catch {A} (body : Eff A) (handler : exn → Eff A) : Eff A :=
  match outcome body with
  | Ok _ => body
  | Raise e => mkEff (emitted body ++ emitted (handler e)) (outcome (handler e))
  end.

(** ** The host page: globals that may be missing and calls that may throw

    A global that the source tests with [typeof ... === 'function'] (or
    [!== 'undefined']) is an [option], [None] when the page lacks it.  A call
    is the [Result] it returns or throws during the invocation at hand;
    [getCurrentMessageId] takes no argument, so it is that [Result] itself.
    [yaml_parse] is [parse] of the package [yaml]. *)

Record MvuApi := {
  getMvuData : option (VariableOption → Result value);
  replaceMvuData : value → VariableOption → Result unit;
}.

Record Host := {
  yaml_parse : string → Result value;
  JSON_parse : string → Result value;
  substitudeMacros : option (string → Result string);
  getCurrentMessageId : option (Result Z);
  waitGlobalInitialized : option (string → Result unit);
  Mvu : option MvuApi;
  getVariables : option (VariableOption → Result value);
  replaceVariables : option (value → VariableOption → Result unit);
}.

(** ** Structured document parser: [parseYamlSource] (App.tsx 262-280) *)

(** [\s] of a regular expression, on Latin-1 code units. *)
Definition is_space (c : ascii) : bool :=
  let n := nat_of_ascii c in
  (Nat.leb 9 n && Nat.leb n 13) || Nat.eqb n 32 || Nat.eqb n 160.

(** [(\}|\])] *)
Definition is_close (c : ascii) : bool :=
  bool_decide (c = "}"%char) || bool_decide (c = "]"%char).

(** The text after a comma: [\s*(\}|\])].  On a match the result is the
    replacement ["$1"] followed by [rest] applied to what follows the match. *)
Fixpoint match_close (rest : string → string) (t : string) : option string :=
  match t with
  | "" => None
  | String d t' =>
      if is_space d then match_close rest t'
      else if is_close d then Some (String d (rest t'))
      else None
  end.

(** [source.replace(/,\s*(\}|\])/g, '$1')]: scan from the left; where the
    pattern matches, put the bracket and go on after the match; elsewhere
    keep the character and go on at the next one. *)
Fixpoint relaxTrailingCommas (source : string) : string :=
  match source with
  | "" => ""
  | String c s' =>
      if bool_decide (c = ","%char) then
        match match_close relaxTrailingCommas s' with
        | Some replaced => replaced
        | None => String c (relaxTrailingCommas s')
        end
      else String c (relaxTrailingCommas s')
  end.

Section Core.
Context (h : Host).

(** The body of the third [try] block (lines 274-275). *)
Definition parseRelaxedJson (source : string) : Result value :=
  let relaxed := relaxTrailingCommas source in
  parsed ← JSON_parse h relaxed;
  Ok (parsed ?? VObj []).

Definition parseYamlSource (source : string) : Eff value :=
  try_catch
    (parsed ← lift (yaml_parse h source); mret (parsed ?? VObj []))
    (λ _,
      try_catch
        (parsed ← lift (JSON_parse h source); mret (parsed ?? VObj []))
        (λ _,
          try_catch
            (lift (parseRelaxedJson source))
            (λ error,
              _ ← emit (ConsoleError "Failed to parse structured data:" error);
              mret (VObj [])))).

(** ** Macro resolver (App.tsx 282-301) *)

Definition resolveMacroString (text : string) : Eff string :=
  match substitudeMacros h with
  | None => mret text
  | Some substitude =>
      try_catch
        (lift (substitude text))
        (λ error,
          _ ← emit (ConsoleWarn "Failed to resolve macros:" error);
          mret text)
  end.

Fixpoint resolveMacrosDeep (input : value) : Eff value :=
  match input with
  | VStr s => VStr <$> resolveMacroString s
  | VArr items => VArr <$> mapM resolveMacrosDeep items
  | VObj fields =>
      VObj <$> mapM (λ entry, item ← resolveMacrosDeep entry.2; mret (entry.1, item)) fields
  | _ => mret input
  end.

(** ** Schema normaliser: classification and coercion (App.tsx 321-374) *)

(** [typeof v === 'object'] *)
Definition typeof_object (v : value) : bool :=
  match v with VNull | VArr _ | VObj _ => true | _ => false end.

Definition isRootData (input : value) : bool :=
  if negb (truthy input) || negb (typeof_object input) then false
  else in_op "echo_chamber_feed" input
       || in_op "user_profile_page" input
       || in_op "direct_message_thread" input.

Definition isEchoChamberFeed (input : value) : bool :=
  if negb (truthy input) || negb (typeof_object input) then false
  else in_op "viewer_profile" input || in_op "posts" input.

(** [null] is [VNull]. *)
Definition coerceEchoChamberFeed (input : value) : Eff value :=
  if negb (truthy input) then mret VNull
  else
    match input with
    | VStr s =>
        parsed ← parseYamlSource s;
        if isRootData parsed then mret (member parsed "echo_chamber_feed" ?? VNull)
        else if isEchoChamberFeed parsed then mret parsed
        else mret VNull
    | VArr _ | VObj _ => if isEchoChamberFeed input then mret input else mret VNull
    | _ => mret VNull
    end.

(** [coerceRootData] calls itself on the parse of a string, which need not be
    smaller than the string; [depth] is the room left on the call stack for
    these calls, and running out of it is the engine's [RangeError].  The
    parsers of the host are taken to have the room they need: a stack that
    runs out inside [parse] is not described. *)
Fixpoint coerceRootData (depth : nat) (input : value) : Eff value :=
  match depth with
  | O => throw (RangeError "Maximum call stack size exceeded")
  | S depth' =>
      if negb (truthy input) then mret VNull
      else
        match input with
        | VStr s =>
            parsed ← parseYamlSource s;
            coerceRootData depth' parsed
        | VArr _ | VObj _ =>
            let record := input in
            if isRootData record then
              feed ← coerceEchoChamberFeed (member record "echo_chamber_feed");
              mret (VObj [("echo_chamber_feed", feed ?? member record "echo_chamber_feed");
                          ("user_profile_page", member record "user_profile_page");
                          ("direct_message_thread", member record "direct_message_thread")])
            else
              nested ← (if truthy (member record "echo_chamber")
                        then coerceRootData depth' (member record "echo_chamber")
                        else mret VNull);
              if truthy nested then mret nested
              else if isEchoChamberFeed record
                   then mret (VObj [("echo_chamber_feed", record)])
                   else mret VNull
        | _ => mret VNull
        end
  end.

(** ** Variable store reader: [readEchoChamberVariables] (App.tsx 376-415) *)

(** The first [try] block (lines 377-386).  [Some root] is a [return root]
    from inside the block, [None] falls through to the code after it. *)
Definition readMvu (depth : nat) : Eff (option value) :=
  try_catch
    (match Mvu h, getCurrentMessageId h with
     | Some mvu, Some currentMessageId =>
         id ← lift currentMessageId;
         let opt := OptMessage (MessageId id) in
         variables ← match getMvuData mvu with
                     | Some getData =>
                         _ ← emit (CallGetMvuData opt);
                         lift (getData opt)
                     | None => throw (TypeError "Mvu.getMvuData is not a function")
                     end;
         let statData := lodash_get variables "stat_data" in
         fromStat ← coerceRootData depth (lodash_get statData "echo_chamber" ?? statData);
         if truthy fromStat then mret (Some fromStat) else mret None
     | _, _ => mret None
     end)
    (λ error,
      _ ← emit (ConsoleWarn "Failed to read MVU data:" error);
      mret None).

(** The five probes of one scope, the body of the [try] inside the loop
    (lines 396-407). *)
Definition probeScope (depth : nat) (getVars : VariableOption → Result value)
    (scope : VariableOption) : Eff (option value) :=
  _ ← emit (CallGetVariables scope);
  vars ← lift (getVars scope);
  let statData := lodash_get vars "stat_data" in
  statRoot ← coerceRootData depth (lodash_get statData "echo_chamber" ?? statData);
  if truthy statRoot then mret (Some statRoot) else
  statFeed ← coerceEchoChamberFeed (lodash_get statData "echo_chamber_feed");
  if truthy statFeed then mret (Some (VObj [("echo_chamber_feed", statFeed)])) else
  direct ← coerceRootData depth vars;
  if truthy direct then mret (Some direct) else
  nested ← coerceRootData depth (lodash_get vars "echo_chamber");
  if truthy nested then mret (Some nested) else
  feedOnly ← coerceEchoChamberFeed (lodash_get vars "echo_chamber_feed");
  if truthy feedOnly then mret (Some (VObj [("echo_chamber_feed", feedOnly)])) else
  mret None.

(** [for (const scope of scopes) { try { ... } catch { console.warn } }] *)
Fixpoint readScopes (depth : nat) (getVars : VariableOption → Result value)
    (scopes : list VariableOption) : Eff value :=
  match scopes with
  | [] => mret VNull
  | scope :: rest =>
      found ← try_catch
                (probeScope depth getVars scope)
                (λ error,
                  _ ← emit (ConsoleWarn "Failed to read variables:" error);
                  mret None);
      match found with
      | Some root => mret root
      | None => readScopes depth getVars rest
      end
  end.

Definition readEchoChamberVariables (depth : nat) : Eff value :=
  fromMvu ← readMvu depth;
  match fromMvu with
  | Some root => mret root
  | None =>
      match getVariables h with
      | Some getVars =>
          messageScope ← match getCurrentMessageId h with
                         | Some currentMessageId =>
                             id ← lift currentMessageId;
                             mret [OptMessage (MessageId id)]
                         | None => mret []
                         end;
          readScopes depth getVars (messageScope ++ [OptChat; OptCharacter; OptGlobal])
      | None => mret VNull
      end
  end.

(** ** [refreshData] (App.tsx 473-481)

    [data] is the React state holding the canonical model; the result is the
    state after the call ([setData(next)], or [data] itself on the early
    return). *)
Definition assign_field (v : value) (k : string) (x : value) : value :=
  match v with VObj o => VObj (set_field k x o) | _ => v end.

Definition refreshData (depth : nat) (data : value) : Eff value :=
  variableData ← readEchoChamberVariables depth;
  if negb (truthy variableData) then mret data
  else
    next ← resolveMacrosDeep variableData;
    if truthy (member next "echo_chamber_feed") then
      normalized ← lift (normalizeEchoChamberFeed (member next "echo_chamber_feed"));
      mret (assign_field next "echo_chamber_feed" normalized)
    else mret next.

(** ** Variable store writer: [updateStatData] (App.tsx 417-464) *)

(** lodash [_.set(v, k, x)] with a one-segment path on a
    [Record<string, unknown>]; a primitive is left as it is. *)
Definition lodash_set (v : value) (k : string) (x : value) : value :=
  match v with VObj o => VObj (set_field k x o) | _ => v end.

(** [updateWithVars] (lines 426-432).  [apply] mutates [statData] in place;
    here it returns the object as the call leaves it.  [_.cloneDeep] is the
    identity on immutable values. *)
Definition updateWithVars (apply : value → Result value) (vars : value) : Eff value :=
  let next := vars ?? VObj [] in
  let statData := lodash_get next "stat_data" ?? VObj [] in
  _ ← emit (CallApply statData);
  mutated ← lift (apply statData);
  mret (lodash_set next "stat_data" mutated).

Definition writerOption : Eff VariableOption :=
  match getCurrentMessageId h with
  | Some currentMessageId =>
      id ← lift currentMessageId;
      mret (OptMessage (MessageId id))
  | None => mret (OptMessage Latest)
  end.

(** The second [try] block (lines 442-452): [true] is the [return] after a
    successful structured write, [false] falls through. *)
Definition updateMvu (apply : value → Result value) (refresh : Result unit)
    (opt : VariableOption) : Eff bool :=
  try_catch
    (match Mvu h with
     | Some mvu =>
         match getMvuData mvu with
         | Some getData =>
             _ ← emit (CallGetMvuData opt);
             vars ← lift (getData opt);
             next ← updateWithVars apply (vars ?? VObj []);
             _ ← emit (CallReplaceMvuData next opt);
             _ ← lift (replaceMvuData mvu next opt);
             _ ← emit CallRefresh;
             _ ← lift refresh;
             mret true
         | None => mret false
         end
     | None => mret false
     end)
    (λ error,
      _ ← emit (ConsoleWarn "Failed to update MVU data:" error);
      mret false).

(** The third [try] block (lines 454-463). *)
Definition updateGeneric (apply : value → Result value) (refresh : Result unit)
    (opt : VariableOption) : Eff unit :=
  try_catch
    (match getVariables h, replaceVariables h with
     | Some getVars, Some replaceVars =>
         _ ← emit (CallGetVariables opt);
         vars ← lift (getVars opt);
         next ← updateWithVars apply (vars ?? VObj []);
         _ ← emit (CallReplaceVariables next opt);
         _ ← lift (replaceVars next opt);
         _ ← emit CallRefresh;
         lift refresh
     | _, _ => mret ()
     end)
    (λ error, emit (ConsoleWarn "Failed to update variables:" error)).

(** The first [try] block (lines 434-440). *)
Definition waitForMvu : Eff unit :=
  try_catch
    (match waitGlobalInitialized h with
     | Some wait =>
         _ ← emit (CallWaitGlobalInitialized "Mvu");
         lift (wait "Mvu")
     | None => mret ()
     end)
    (λ error, emit (ConsoleWarn "Failed waiting for MVU:" error)).

Definition updateStatData (apply : value → Result value) (refresh : Result unit)
  : Eff unit :=
  opt ← writerOption;
  _ ← waitForMvu;
  written ← updateMvu apply refresh opt;
  if written : bool then mret () else updateGeneric apply refresh opt.

End Core.

(** ** Typed React state (App.tsx 7-152)

    One module per TypeScript type, so that fields keep their names.
    [ProfilePostStats] has the fields of [FeedPostStats] and is the same type. *)

Module FeedViewerProfile.
Record t := {
  name : string;
  avatar_char : option string;
  user_handle : option string;
  posts_count : option Z;
  followers_count : option Z;
  following_count : option Z;
}.
End FeedViewerProfile.

Module FeedPostUser.
Record t := {
  name : string;
  handle : string;
  avatar_icon : option string;
  avatar_bg : option string;
}.
End FeedPostUser.

Module FeedPostStats.
Record t := {
  comments : option Z;
  likes : option Z;
  is_liked_by_viewer : option bool;
}.
End FeedPostStats.

Module FeedPostReply.
Record t := {
  from : string;
  to : option string;
  avatar : option string;
  text : string;
}.
End FeedPostReply.

Module FeedPostComment.
Record t := {
  author : string;
  handle : option string;
  avatar : option string;
  text : string;
  replies : option (list FeedPostReply.t);
}.
(** [{...comment, replies}] *)
Definition with_replies (c : t) (r : list FeedPostReply.t) : t :=
  {| author := author c; handle := handle c; avatar := avatar c; text := text c;
     replies := Some r |}.
End FeedPostComment.

Module FeedPost.
Record t := {
  user : FeedPostUser.t;
  body : string;
  tags : option (list string);
  image_caption : option string;
  stats : FeedPostStats.t;
  people_comments : option (list FeedPostComment.t);
}.
(** [{...item, people_comments, stats}] *)
Definition with_comments_stats (p : t) (c : list FeedPostComment.t)
    (s : FeedPostStats.t) : t :=
  {| user := user p; body := body p; tags := tags p; image_caption := image_caption p;
     stats := s; people_comments := Some c |}.
(** [{...post, stats}] *)
Definition with_stats (p : t) (s : FeedPostStats.t) : t :=
  {| user := user p; body := body p; tags := tags p; image_caption := image_caption p;
     stats := s; people_comments := people_comments p |}.
End FeedPost.

Module ProfilePostComment.
Record t := {
  comment_id : option string;
  user_name : string;
  avatar : option string;
  text : string;
}.
End ProfilePostComment.

Module ProfilePost.
Record t := {
  id : string;
  body : string;
  image_caption : option string;
  stats : FeedPostStats.t;
  comments_data : option (list ProfilePostComment.t);
}.
(** [{...post, stats}] *)
Definition with_stats (p : t) (s : FeedPostStats.t) : t :=
  {| id := id p; body := body p; image_caption := image_caption p; stats := s;
     comments_data := comments_data p |}.
End ProfilePost.

Module DMMessage.
Record t := {
  sender_handle : string;
  content : string;
  is_read : option bool;
  timestamp : option string;
}.
End DMMessage.

(** A number as the cache record holds it: an integer, or [NaN] when
    [Number(...)] could not read one. *)
Inductive number := Int (n : Z) | NaN.

Module NpcChatRecord.
Record t := {
  key : string;
  updated_at : number;
  messages : list DMMessage.t;
}.
End NpcChatRecord.

(** ** Strings: [trim] and [String(...)] *)

(** [trim] strips white space and line terminators, the characters of [\s]. *)
Fixpoint trimStart (s : string) : string :=
  match s with
  | "" => ""
  | String c s' => if is_space c then trimStart s' else s
  end.

Fixpoint trimEnd (s : string) : string :=
  match s with
  | "" => ""
  | String c s' =>
      match trimEnd s' with
      | "" => if is_space c then "" else String c ""
      | kept => String c kept
      end
  end.

Definition trim (s : string) : string := trimEnd (trimStart s).

(** [String(v)]; an array is its elements joined by commas, [null] and
    [undefined] elements printing as nothing.  A number prints as its decimal
    digits, which is [String] below 1e21, and an object as
    [[object Object]], which is [String] on an object without a [toString]
    of its own. *)
Fixpoint js_String (v : value) : string :=
  match v with
  | VUndefined => "undefined"
  | VNull => "null"
  | VBool true => "true"
  | VBool false => "false"
  | VNum n => NilZero.string_of_int (Z.to_int n)
  | VStr s => s
  | VArr items =>
      String.concat "," (map (λ x, if nullish x then "" else js_String x) items)
  | VObj _ => "[object Object]"
  end.

(** [getInitialChar] (lines 466-469), the fallback given by the caller. *)
Definition getInitialChar (value : option string) (fallback : string) : string :=
  match trim <$> value with
  | Some (String c _) => String c ""
  | _ => fallback
  end.

(** ** Optimistic post-statistics handlers (App.tsx 866-1105)

    Each handler is the updater it passes to [setFeedPosts] / [setUserPosts],
    run on the current list, behind the guards that precede it. *)

(** [arr.filter((_, idx) => keep(idx))] *)
Definition filter_index {A} (keep : nat → bool) (l : list A) : list A :=
  (λ p, p.2) <$> filter (λ p, keep p.1 = true) (imap (λ i x, (i, x)) l).

Definition nat_neqb (a b : nat) : bool := negb (Nat.eqb a b).

(** ['post' | number] of [feedReplyTargets]. *)
Inductive replyTarget := TargetPost | TargetComment (index : nat).

Definition handleFeedReplySend (feedViewer : FeedViewerProfile.t)
    (feedReplyInputs : gmap nat string) (feedReplyTargets : gmap nat replyTarget)
    (postIndex : nat) (feedPosts : list FeedPost.t) : list FeedPost.t :=
  let content := trim (default "" (feedReplyInputs !! postIndex)) in
  if bool_decide (content = "") then feedPosts else
  match feedPosts !! postIndex with
  | None => feedPosts
  | Some post =>
      let peopleComments := default [] (FeedPost.people_comments post) in
      let target := default TargetPost (feedReplyTargets !! postIndex) in
      let targetIndex := match target with TargetComment i => Some i | TargetPost => None end in
      if match targetIndex with
         | Some i => bool_decide (peopleComments !! i = None)
         | None => false
         end
      then feedPosts
      else
        let viewerAvatar :=
          match FeedViewerProfile.avatar_char feedViewer with
          | Some c => c
          | None => getInitialChar (Some (FeedViewerProfile.name feedViewer)) ""
          end in
        let reply :=
          {| FeedPostReply.from := FeedViewerProfile.name feedViewer;
             FeedPostReply.to :=
               match targetIndex with
               | Some i => FeedPostComment.author <$> peopleComments !! i
               | None => Some (FeedPostUser.name (FeedPost.user post))
               end;
             FeedPostReply.avatar := Some viewerAvatar;
             FeedPostReply.text := content |} in
        let newComment :=
          {| FeedPostComment.author := FeedViewerProfile.name feedViewer;
             FeedPostComment.handle := FeedViewerProfile.user_handle feedViewer;
             FeedPostComment.avatar := Some viewerAvatar;
             FeedPostComment.text := content;
             FeedPostComment.replies := Some [] |} in
        imap (λ idx item,
          if nat_neqb idx postIndex then item
          else
            let nextComments :=
              match targetIndex with
              | Some i =>
                  imap (λ commentIdx comment,
                    if nat_neqb commentIdx i then comment
                    else FeedPostComment.with_replies comment
                           (default [] (FeedPostComment.replies comment) ++ [reply]))
                    (default [] (FeedPost.people_comments item))
              | None => default [] (FeedPost.people_comments item) ++ [newComment]
              end in
            FeedPost.with_comments_stats item nextComments
              {| FeedPostStats.comments :=
                   Some (default 0 (FeedPostStats.comments (FeedPost.stats item)) + 1)%Z;
                 FeedPostStats.likes := FeedPostStats.likes (FeedPost.stats item);
                 FeedPostStats.is_liked_by_viewer :=
                   FeedPostStats.is_liked_by_viewer (FeedPost.stats item) |})
          feedPosts
  end.

Definition handleDeleteFeedComment (postIndex commentIndex : nat)
    (feedPosts : list FeedPost.t) : list FeedPost.t :=
  match feedPosts !! postIndex with
  | None => feedPosts
  | Some post =>
      let comments := default [] (FeedPost.people_comments post) in
      match comments !! commentIndex with
      | None => feedPosts
      | Some targetComment =>
          let removedCount :=
            (1 + Z.of_nat (length (default [] (FeedPostComment.replies targetComment))))%Z in
          imap (λ idx item,
            if nat_neqb idx postIndex then item
            else
              let nextComments :=
                filter_index (λ idx2, nat_neqb idx2 commentIndex)
                  (default [] (FeedPost.people_comments item)) in
              FeedPost.with_comments_stats item nextComments
                {| FeedPostStats.comments :=
                     Some (Z.max 0 (default 0 (FeedPostStats.comments (FeedPost.stats item))
                                    - removedCount))%Z;
                   FeedPostStats.likes := FeedPostStats.likes (FeedPost.stats item);
                   FeedPostStats.is_liked_by_viewer :=
                     FeedPostStats.is_liked_by_viewer (FeedPost.stats item) |})
            feedPosts
      end
  end.

Definition handleDeleteFeedReply (postIndex commentIndex replyIndex : nat)
    (feedPosts : list FeedPost.t) : list FeedPost.t :=
  match feedPosts !! postIndex with
  | None => feedPosts
  | Some post =>
      match (comments ← FeedPost.people_comments post;
             comment ← (comments : list FeedPostComment.t) !! commentIndex;
             replies ← FeedPostComment.replies comment;
             (replies : list FeedPostReply.t) !! replyIndex) with
      | None => feedPosts
      | Some _ =>
          imap (λ idx item,
            if nat_neqb idx postIndex then item
            else
              let nextComments :=
                imap (λ idx2 itemComment,
                  if nat_neqb idx2 commentIndex then itemComment
                  else
                    let nextReplies :=
                      filter_index (λ idx3, nat_neqb idx3 replyIndex)
                        (default [] (FeedPostComment.replies itemComment)) in
                    FeedPostComment.with_replies itemComment nextReplies)
                  (default [] (FeedPost.people_comments item)) in
              FeedPost.with_comments_stats item nextComments
                {| FeedPostStats.comments :=
                     Some (Z.max 0 (default 0 (FeedPostStats.comments (FeedPost.stats item)) - 1))%Z;
                   FeedPostStats.likes := FeedPostStats.likes (FeedPost.stats item);
                   FeedPostStats.is_liked_by_viewer :=
                     FeedPostStats.is_liked_by_viewer (FeedPost.stats item) |})
            feedPosts
      end
  end.

(** The object literal that the three like toggles build from [post.stats]
    (lines 1015-1023, 1047-1055, 1079-1087). *)
Definition toggledStats (stats : FeedPostStats.t) : FeedPostStats.t :=
  let isLiked := default false (FeedPostStats.is_liked_by_viewer stats) in
  let likes := default 0%Z (FeedPostStats.likes stats) in
  {| FeedPostStats.comments := FeedPostStats.comments stats;
     FeedPostStats.is_liked_by_viewer := Some (negb isLiked);
     FeedPostStats.likes := Some (Z.max 0 (if isLiked then likes - 1 else likes + 1))%Z |}.

Definition toggleFeedLike (index : nat) (feedPosts : list FeedPost.t) : list FeedPost.t :=
  imap (λ idx post,
    if nat_neqb idx index then post
    else FeedPost.with_stats post (toggledStats (FeedPost.stats post)))
    feedPosts.

Definition toggleUserLike (index : nat) (userPosts : list ProfilePost.t)
  : list ProfilePost.t :=
  imap (λ idx post,
    if nat_neqb idx index then post
    else ProfilePost.with_stats post (toggledStats (ProfilePost.stats post)))
    userPosts.





(** ** Conversation cache (App.tsx 154-260, 615-634, 808-825)

    The IndexedDB object store [npc_chats], keyed by [key]; [None] is a page
    without IndexedDB, where [openNpcChatDb] rejects. *)

Definition openNpcChatDb (db : option (gmap string NpcChatRecord.t))
  : Result (gmap string NpcChatRecord.t) :=
  match db with
  | Some store => Ok store
  | None => Raise (HostError "IndexedDB is not available")
  end.

Definition readNpcChat (db : option (gmap string NpcChatRecord.t)) (key : string)
  : Result (option NpcChatRecord.t) :=
  store ← openNpcChatDb db;
  Ok (store !! key).

(** The records in the order of the map; [getAll()] gives them by ascending
    key, and no statement below depends on the order. *)
Definition listNpcChats (db : option (gmap string NpcChatRecord.t))
  : Result (list NpcChatRecord.t) :=
  store ← openNpcChatDb db;
  Ok ((map_to_list store).*2).

(** [now] is [Date.now()]. *)
Definition writeNpcChat (now : Z) (db : option (gmap string NpcChatRecord.t))
    (key : string) (messages : list DMMessage.t)
  : Result (option (gmap string NpcChatRecord.t)) :=
  store ← openNpcChatDb db;
  Ok (Some (<[key := {| NpcChatRecord.key := key;
                        NpcChatRecord.updated_at := Int now;
                        NpcChatRecord.messages := messages |}]> store)).

Definition deleteNpcChat (db : option (gmap string NpcChatRecord.t)) (key : string)
  : Result (option (gmap string NpcChatRecord.t)) :=
  store ← openNpcChatDb db;
  Ok (Some (delete key store)).

(** The callback of [rawMessages.map] (lines 242-253); [None] is [null]. *)
Definition normalizeNpcMessage (message : value) : Result (option DMMessage.t) :=
  sender_handle ← get_prop message "sender_handle";
  let sender := js_String (sender_handle ?? VStr "") in
  content ← get_prop message "content";
  let content := js_String (content ?? VStr "") in
  if bool_decide (sender = "") || bool_decide (content = "") then Ok None
  else
    is_read ← get_prop message "is_read";
    timestamp ← get_prop message "timestamp";
    Ok (Some {| DMMessage.sender_handle := sender;
                DMMessage.content := content;
                DMMessage.is_read := match is_read with VBool b => Some b | _ => None end;
                DMMessage.timestamp := match timestamp with VStr t => Some t | _ => None end |}).

(** [toNumber] is the coercion [Number(...)] and [now] is [Date.now()]. *)
Definition normalizeNpcChatRecord (toNumber : value → number) (now : Z) (input : value)
  : Result (option NpcChatRecord.t) :=
  if negb (truthy input) || negb (typeof_object input) then Ok None
  else
    let record := input in
    let key := trim (js_String (member record "key" ?? member record "npc_key" ?? VStr "")) in
    if bool_decide (key = "") then Ok None
    else
      let rawMessages := match member record "messages" with VArr items => items | _ => [] end in
      mapped ← mapM normalizeNpcMessage rawMessages;
      let messages := omap id mapped in
      Ok (Some {| NpcChatRecord.key := key;
                  NpcChatRecord.updated_at := toNumber (member record "updated_at" ?? VNum now);
                  NpcChatRecord.messages := messages |}).

(** The effect that loads the cached conversation when it is opened (lines
    615-634): [thread] is [data.direct_message_thread?.messages], [current]
    the message list on screen; the result is the list after the effect. *)
Definition loadNpcChat (db : option (gmap string NpcChatRecord.t)) (dmKey : string)
    (cancelled : bool) (thread : option (list DMMessage.t))
    (current : list DMMessage.t) : Eff (list DMMessage.t) :=
  if bool_decide (dmKey = "") then mret current
  else
    try_catch
      (record ← lift (readNpcChat db dmKey);
       match record with
       | Some record =>
           if cancelled || Nat.eqb (length (NpcChatRecord.messages record)) 0
           then mret current
           else
             let base := default current thread in
             mret (if Nat.ltb (length base) (length (NpcChatRecord.messages record))
                   then NpcChatRecord.messages record
                   else base)
       | None => mret current
       end)
      (λ error,
        _ ← emit (ConsoleWarn "Failed to load NPC chat:" error);
        mret current).

Section NpcImport.
Context (h : Host) (toNumber : value → number) (now : Z).

(** [Promise.all(normalized.map((item) => writeNpcChat(item.key, item.messages)))],
    the writes taken in order. *)
Fixpoint writeAll (db : option (gmap string NpcChatRecord.t))
    (normalized : list NpcChatRecord.t)
  : Result (option (gmap string NpcChatRecord.t)) :=
  match normalized with
  | [] => Ok db
  | item :: rest =>
      db' ← writeNpcChat now db (NpcChatRecord.key item) (NpcChatRecord.messages item);
      writeAll db' rest
  end.

(** [file] is the text of the chosen file, if one was chosen; the result is
    the cache and the message list on screen after the handler. *)
Definition handleImportNpcChatsFile (file : option string) (dmKey : string)
    (db : option (gmap string NpcChatRecord.t)) (dmMessages : list DMMessage.t)
  : Eff (option (gmap string NpcChatRecord.t) * list DMMessage.t) :=
  match file with
  | None => mret (db, dmMessages)
  | Some text =>
      try_catch
        (parsed ← lift (JSON_parse h text);
         let list := match parsed with
                     | VArr _ => parsed
                     | _ => member parsed "chats" ?? VArr []
                     end in
         mapped ← lift (match list with
                        | VArr items => mapM (normalizeNpcChatRecord toNumber now) items
                        | _ => Raise (TypeError "map is not a function")
                        end);
         let normalized := omap id mapped in
         db' ← lift (writeAll db normalized);
         match find (λ item, bool_decide (NpcChatRecord.key item = dmKey)) normalized with
         | Some current => mret (db', NpcChatRecord.messages current)
         | None => mret (db', dmMessages)
         end)
        (λ error,
          _ ← emit (ConsoleWarn "Failed to import NPC chats:" error);
          mret (db, dmMessages))
  end.

End NpcImport.

(** ** A reference [JSON.parse] for concrete inputs

    The functions above take [JSON.parse] from the [Host].  To evaluate them
    on a concrete text, [JSON_parse_reference] reads the JSON grammar
    (ECMA-404) over this embedding's values: objects, arrays, strings, the
    three literals and integer numbers.  A number with a fraction or an
    exponent and a [\u] escape above code 255 have no counterpart in [value]
    and are rejected. *)

Definition is_json_space (c : ascii) : bool :=
  let n := nat_of_ascii c in
  Nat.eqb n 32 || Nat.eqb n 9 || Nat.eqb n 10 || Nat.eqb n 13.

Fixpoint skip_json_space (s : string) : string :=
  match s with
  | "" => ""
  | String c s' => if is_json_space c then skip_json_space s' else s
  end.

Definition digit_value (c : ascii) : option Z :=
  let n := nat_of_ascii c in
  if Nat.leb 48 n && Nat.leb n 57 then Some (Z.of_nat (n - 48)) else None.

Definition hex_value (c : ascii) : option nat :=
  let n := nat_of_ascii c in
  if Nat.leb 48 n && Nat.leb n 57 then Some (n - 48)%nat
  else if Nat.leb 65 n && Nat.leb n 70 then Some (n - 55)%nat
  else if Nat.leb 97 n && Nat.leb n 102 then Some (n - 87)%nat
  else None.

Fixpoint parse_digits (acc : Z) (s : string) : Z * string :=
  match s with
  | "" => (acc, "")
  | String c s' =>
      match digit_value c with
      | Some d => parse_digits (10 * acc + d)%Z s'
      | None => (acc, s)
      end
  end.

Definition starts_fraction_or_exponent (s : string) : bool :=
  match s with
  | String c _ => (c =? ".")%char || (c =? "e")%char || (c =? "E")%char
  | "" => false
  end.

Definition parse_json_number (s : string) : option (Z * string) :=
  let '(negative, digits) :=
    match s with
    | String c s' => if (c =? "-")%char then (true, s') else (false, s)
    | "" => (false, s)
    end in
  match digits with
  | String c s' =>
      match digit_value c with
      | Some d =>
          let '(n, rest) := if (d =? 0)%Z then (0%Z, s') else parse_digits d s' in
          if starts_fraction_or_exponent rest then None
          else Some (if negative : bool then (- n)%Z else n, rest)
      | None => None
      end
  | "" => None
  end.

Definition unescape (c : ascii) : option ascii :=
  if (c =? "034")%char then Some "034"%char
  else if (c =? "\")%char then Some "\"%char
  else if (c =? "/")%char then Some "/"%char
  else if (c =? "b")%char then Some "008"%char
  else if (c =? "f")%char then Some "012"%char
  else if (c =? "n")%char then Some "010"%char
  else if (c =? "r")%char then Some "013"%char
  else if (c =? "t")%char then Some "009"%char
  else None.

(** The characters of a string literal, after its opening quote. *)
Fixpoint parse_json_string (s : string) : option (string * string) :=
  match s with
  | "" => None
  | String c s' =>
      if (c =? "034")%char then Some ("", s')
      else if (c =? "\")%char then
        match s' with
        | String e s'' =>
            match unescape e with
            | Some ch =>
                '(str, rest) ← parse_json_string s'';
                Some (String ch str, rest)
            | None =>
                match s'' with
                | String h1 (String h2 (String h3 (String h4 s5))) =>
                    if (e =? "u")%char then
                      d1 ← hex_value h1; d2 ← hex_value h2;
                      d3 ← hex_value h3; d4 ← hex_value h4;
                      if Nat.eqb d1 0 && Nat.eqb d2 0 then
                        '(str, rest) ← parse_json_string s5;
                        Some (String (ascii_of_nat (16 * d3 + d4)) str, rest)
                      else None
                    else None
                | _ => None
                end
            end
        | "" => None
        end
      else if Nat.ltb (nat_of_ascii c) 32 then None
      else
        '(str, rest) ← parse_json_string s';
        Some (String c str, rest)
  end.

Definition expect (word : string) (s : string) : option string :=
  if String.prefix word s then Some (String.substring (String.length word)
                                        (String.length s - String.length word) s)
  else None.

Fixpoint parse_json_value (fuel : nat) (s : string) : option (value * string) :=
  match fuel with
  | O => None
  | S fuel' =>
      match skip_json_space s with
      | "" => None
      | String c s' =>
          if (c =? "n")%char then rest ← expect "ull" s'; Some (VNull, rest)
          else if (c =? "t")%char then rest ← expect "rue" s'; Some (VBool true, rest)
          else if (c =? "f")%char then rest ← expect "alse" s'; Some (VBool false, rest)
          else if (c =? "034")%char then
            '(str, rest) ← parse_json_string s'; Some (VStr str, rest)
          else if (c =? "[")%char then
            match skip_json_space s' with
            | String d rest =>
                if (d =? "]")%char then Some (VArr [], rest)
                else '(items, rest') ← parse_json_elements fuel' s'; Some (VArr items, rest')
            | "" => None
            end
          else if (c =? "{")%char then
            match skip_json_space s' with
            | String d rest =>
                if (d =? "}")%char then Some (VObj [], rest)
                else
                  '(members, rest') ← parse_json_members fuel' s';
                  Some (VObj (fold_left (λ o kv, set_field kv.1 kv.2 o) members []), rest')
            | "" => None
            end
          else '(n, rest) ← parse_json_number (String c s'); Some (VNum n, rest)
      end
  end
with parse_json_elements (fuel : nat) (s : string) : option (list value * string) :=
  match fuel with
  | O => None
  | S fuel' =>
      '(v, rest) ← parse_json_value fuel' s;
      match skip_json_space rest with
      | String d rest' =>
          if (d =? ",")%char then
            '(vs, rest'') ← parse_json_elements fuel' rest'; Some (v :: vs, rest'')
          else if (d =? "]")%char then Some ([v], rest')
          else None
      | "" => None
      end
  end
with parse_json_members (fuel : nat) (s : string)
  : option (list (string * value) * string) :=
  match fuel with
  | O => None
  | S fuel' =>
      match skip_json_space s with
      | String q s1 =>
          if (q =? "034")%char then
            '(k, r1) ← parse_json_string s1;
            match skip_json_space r1 with
            | String colon r2 =>
                if (colon =? ":")%char then
                  '(v, r3) ← parse_json_value fuel' r2;
                  match skip_json_space r3 with
                  | String d r4 =>
                      if (d =? ",")%char then
                        '(kvs, r5) ← parse_json_members fuel' r4; Some ((k, v) :: kvs, r5)
                      else if (d =? "}")%char then Some ([(k, v)], r4)
                      else None
                  | "" => None
                  end
                else None
            | "" => None
            end
          else None
      | "" => None
      end
  end.

Definition JSON_parse_reference (text : string) : Result value :=
  match parse_json_value (S (String.length text)) text with
  | Some (v, rest) =>
      if bool_decide (skip_json_space rest = "") then Ok v
      else Raise (SyntaxError "Unexpected non-whitespace character after JSON")
  | None => Raise (SyntaxError "Unexpected token in JSON")
  end.

(** The double quote, for writing JSON texts. *)
Definition dq : string := String "034"%char "".

(** ** Statements and sample inputs used by the properties below *)

(** The posts of a feed, none when [posts] is not an array. *)
Definition posts_of (feed : value) : list value :=
  match member feed "posts" with VArr items => items | _ => [] end.

(** A feed as [EchoChamberFeed] declares it: an object whose [posts], when
    present, is an array of objects. *)
Definition feed_typed (feed : value) : Prop :=
  ∃ o, feed = VObj o
       ∧ (field "posts" o = VUndefined
          ∨ ∃ posts, field "posts" o = VArr posts ∧ Forall (λ p, ∃ f, p = VObj f) posts).

(** What a normalised post would look like if the alternate field were moved. *)
Definition alias_moved (post post' : value) : Prop :=
  member post' "people_comments" = member post "People_comments"
  ∧ in_op "People_comments" post' = false.

Definition alias_post : value :=
  VObj [("People_comments", VArr [VObj [("author", VStr "X"); ("text", VStr "t")]])].

Definition alias_feed : value := VObj [("posts", VArr [alias_post])].

(** [Number.MAX_SAFE_INTEGER]: up to it, and up to its successor for a
    result, adding and subtracting 1 on doubles is exact. *)
Definition MAX_SAFE_INTEGER : Z := (2 ^ 53 - 1)%Z.


Definition sample_user : FeedPostUser.t :=
  {| FeedPostUser.name := "A"; FeedPostUser.handle := "@a";
     FeedPostUser.avatar_icon := None; FeedPostUser.avatar_bg := None |}.

(** A post the viewer has liked although its like count is 0. *)
Definition liked_stats_without_likes : FeedPostStats.t :=
  {| FeedPostStats.comments := Some 0%Z; FeedPostStats.likes := Some 0%Z;
     FeedPostStats.is_liked_by_viewer := Some true |}.

Definition liked_post_without_likes : FeedPost.t :=
  {| FeedPost.user := sample_user; FeedPost.body := "hi"; FeedPost.tags := None;
     FeedPost.image_caption := None; FeedPost.stats := liked_stats_without_likes;
     FeedPost.people_comments := None |}.

Definition liked_profile_post_without_likes : ProfilePost.t :=
  {| ProfilePost.id := "p1"; ProfilePost.body := "hi"; ProfilePost.image_caption := None;
     ProfilePost.stats := liked_stats_without_likes; ProfilePost.comments_data := None |}.



Definition sample_viewer : FeedViewerProfile.t :=
  {| FeedViewerProfile.name := "V"; FeedViewerProfile.avatar_char := None;
     FeedViewerProfile.user_handle := Some "@v"; FeedViewerProfile.posts_count := None;
     FeedViewerProfile.followers_count := None; FeedViewerProfile.following_count := None |}.

(** A run of white space, as [\s*] reads it. *)
Fixpoint all_space (s : string) : bool :=
  match s with
  | "" => true
  | String c s' => is_space c && all_space s'
  end.

(** A page with no helper globals, a YAML parser that rejects every text, and
    the reference [JSON.parse]. *)
Definition jsonOnlyHost : Host :=
  {| yaml_parse := λ _, Raise (SyntaxError "YAML");
     JSON_parse := JSON_parse_reference;
     substitudeMacros := None;
     getCurrentMessageId := None;
     waitGlobalInitialized := None;
     Mvu := None;
     getVariables := None;
     replaceVariables := None |}.

(** The JSON object with the key [a] twice and the string [x,]] under [b],
    with a trailing comma, and the same text without that comma.  The YAML
    parser rejects both for the repeated key, and strict JSON rejects the
    first for its trailing comma. *)
Definition comma_free_text : string :=
  "{" +:+ dq +:+ "a" +:+ dq +:+ ":1," +:+ dq +:+ "a" +:+ dq +:+ ":2,"
      +:+ dq +:+ "b" +:+ dq +:+ ":" +:+ dq +:+ "x,]" +:+ dq +:+ "}".
Definition trailing_comma_text : string :=
  "{" +:+ dq +:+ "a" +:+ dq +:+ ":1," +:+ dq +:+ "a" +:+ dq +:+ ":2,"
      +:+ dq +:+ "b" +:+ dq +:+ ":" +:+ dq +:+ "x,]" +:+ dq +:+ ",}".

Definition sample_message (content : string) : DMMessage.t :=
  {| DMMessage.sender_handle := "@a"; DMMessage.content := content;
     DMMessage.is_read := None; DMMessage.timestamp := None |}.

(** A cache whose record for ["@a"] has no messages. *)
Definition empty_record_db : option (gmap string NpcChatRecord.t) :=
  Some {[ "@a" := {| NpcChatRecord.key := "@a"; NpcChatRecord.updated_at := Int 0;
                     NpcChatRecord.messages := [] |} ]}.

(** The [stat_data] that [updateWithVars] hands to [apply] for the scope
    document [vars], and the document it writes back. *)
Definition statDataOf (vars : value) : value :=
  lodash_get (vars ?? VObj []) "stat_data" ?? VObj [].

Definition nextOf (vars mutated : value) : value :=
  lodash_set (vars ?? VObj []) "stat_data" mutated.

(** What C1 says of a call: the generic backend is not touched. *)
Definition no_generic_attempt (call : Eff unit) : Prop :=
  ∀ ev, ev ∈ emitted call →
    match ev with
    | CallGetVariables _ | CallReplaceVariables _ _ => False
    | _ => True
    end.

(** A page where [Mvu] is present and its read throws, beside a working
    generic backend whose message scope holds [{stat_data: {}}]. *)
Definition failingMvuHost : Host :=
  {| yaml_parse := λ _, Raise (SyntaxError "YAML");
     JSON_parse := JSON_parse_reference;
     substitudeMacros := None;
     getCurrentMessageId := Some (Ok 7%Z);
     waitGlobalInitialized := Some (λ _, Ok ());
     Mvu := Some {| getMvuData := Some (λ _, Raise (HostError "MVU read failed"));
                    replaceMvuData := λ _ _, Ok () |};
     getVariables := Some (λ _, Ok (VObj [("stat_data", VObj [])]));
     replaceVariables := Some (λ _ _, Ok ()) |}.

(** A mutator: [statData.touched = true]. *)
Definition touch (statData : value) : Result value :=
  Ok (assign_field statData "touched" (VBool true)).

(** A page where [getVariables] exists and resolving the current message id
    throws, as it does outside a message frame. *)
Definition unresolvedMessageHost : Host :=
  {| yaml_parse := λ _, Raise (SyntaxError "YAML");
     JSON_parse := JSON_parse_reference;
     substitudeMacros := None;
     getCurrentMessageId := Some (Raise (HostError "no current message"));
     waitGlobalInitialized := None;
     Mvu := None;
     getVariables := Some (λ _, Ok (VObj []));
     replaceVariables := None |}.

(** An import file of two records: the first has [null] in its messages, the
    second is well formed. *)
Definition import_text : string :=
  "[{" +:+ dq +:+ "key" +:+ dq +:+ ":" +:+ dq +:+ "@a" +:+ dq +:+ ","
       +:+ dq +:+ "messages" +:+ dq +:+ ":[null]},"
  +:+ "{" +:+ dq +:+ "key" +:+ dq +:+ ":" +:+ dq +:+ "@b" +:+ dq +:+ ","
       +:+ dq +:+ "messages" +:+ dq +:+ ":[{"
       +:+ dq +:+ "sender_handle" +:+ dq +:+ ":" +:+ dq +:+ "@b" +:+ dq +:+ ","
       +:+ dq +:+ "content" +:+ dq +:+ ":" +:+ dq +:+ "hi" +:+ dq +:+ "}]}]".

(** A message that [normalizeNpcMessage] drops: it is not [null] or
    [undefined], and its sender or its content prints as the empty string. *)
Definition invalid_message (message : value) : Prop :=
  nullish message = false
  ∧ (js_String (member message "sender_handle" ?? VStr "") = ""
     ∨ js_String (member message "content" ?? VStr "") = "").

(** ** Further state and handlers (App.tsx 502-515, 579-584, 636-644, 774-806,
    1119-1189) *)

Module DMParticipant.
Record t := {
  name : string;
  handle : string;
  avatar_char : option string;
  avatar_icon : option string;
  avatar_bg : option string;
}.
End DMParticipant.

(** Truthiness of an optional string: present and not empty. *)
Definition string_truthy (s : option string) : bool :=
  match s with
  | Some s => negb (bool_decide (s = ""))
  | None => false
  end.

Definition isViewerComment (feedViewer : FeedViewerProfile.t)
    (comment : option FeedPostComment.t) : bool :=
  match comment with
  | None => false
  | Some comment =>
      if string_truthy (FeedViewerProfile.user_handle feedViewer)
         && string_truthy (FeedPostComment.handle comment)
      then bool_decide (FeedPostComment.handle comment
                        = FeedViewerProfile.user_handle feedViewer)
      else bool_decide (FeedPostComment.author comment = FeedViewerProfile.name feedViewer)
  end.

Definition isViewerReply (feedViewer : FeedViewerProfile.t)
    (reply : option FeedPostReply.t) : bool :=
  match reply with
  | Some reply => bool_decide (FeedPostReply.from reply = FeedViewerProfile.name feedViewer)
  | None => false
  end.

(** [activeDmPartner.handle || activeDmPartner.name || ''] *)
Definition dmKey (activeDmPartner : DMParticipant.t) : string :=
  if negb (bool_decide (DMParticipant.handle activeDmPartner = ""))
  then DMParticipant.handle activeDmPartner
  else if negb (bool_decide (DMParticipant.name activeDmPartner = ""))
       then DMParticipant.name activeDmPartner
       else "".

Definition hasActivePartner (activeDmPartner : DMParticipant.t) : bool :=
  negb (bool_decide (DMParticipant.handle activeDmPartner = ""))
  || negb (bool_decide (DMParticipant.name activeDmPartner = "")).

(** The callback of the timer that the effect of lines 636-644 sets, when it
    fires: the cache after it. *)
Definition persistNpcChat (now : Z) (db : option (gmap string NpcChatRecord.t))
    (dmKey : string) (dmMessages : list DMMessage.t)
  : Eff (option (gmap string NpcChatRecord.t)) :=
  if bool_decide (dmKey = "") then mret db
  else
    try_catch
      (lift (writeNpcChat now db dmKey dmMessages))
      (λ error,
        _ ← emit (ConsoleWarn "Failed to persist NPC chat:" error);
        mret db).

(** The message composer of the conversation view. *)
Record DmComposer := {
  dmMessages : list DMMessage.t;
  dmStagedMessages : list string;
  dmInput : string;
}.

(** [confirmed] is the answer to [window.confirm]; [thread] is
    [data.direct_message_thread?.messages]. *)
Definition handleDeleteNpcChat (confirmed : bool) (thread : option (list DMMessage.t))
    (dmKey : string) (db : option (gmap string NpcChatRecord.t)) (composer : DmComposer)
  : Eff (option (gmap string NpcChatRecord.t) * DmComposer) :=
  if bool_decide (dmKey = "") then mret (db, composer)
  else if negb confirmed then mret (db, composer)
  else
    try_catch
      (db' ← lift (deleteNpcChat db dmKey);
       mret (db', {| dmMessages := default [] thread;
                     dmStagedMessages := [];
                     dmInput := "" |}))
      (λ error,
        _ ← emit (ConsoleWarn "Failed to delete NPC chat:" error);
        mret (db, composer)).

Definition handleStageMessage (composer : DmComposer) : DmComposer :=
  let content := trim (dmInput composer) in
  if bool_decide (content = "") then composer
  else {| dmMessages := dmMessages composer;
          dmStagedMessages := dmStagedMessages composer ++ [content];
          dmInput := "" |}.

(** [timestamp] is [new Date().toLocaleTimeString(...)]. *)
Definition handleSendAllMessages (dmViewer : DMParticipant.t) (timestamp : string)
    (composer : DmComposer) : DmComposer :=
  let content := trim (dmInput composer) in
  let payload := dmStagedMessages composer
                 ++ (if bool_decide (content = "") then [] else [content]) in
  if Nat.eqb (length payload) 0 then composer
  else {| dmMessages :=
            dmMessages composer
            ++ map (λ msg, {| DMMessage.sender_handle := DMParticipant.handle dmViewer;
                              DMMessage.content := msg;
                              DMMessage.is_read := Some false;
                              DMMessage.timestamp := Some timestamp |}) payload;
          dmStagedMessages := [];
          dmInput := "" |}.

(** [ctrlKey], [metaKey], [shiftKey] and [key] are the fields of the event. *)
Definition handleDmKeyDown (dmViewer : DMParticipant.t) (timestamp : string)
    (ctrlKey metaKey shiftKey : bool) (key : string) (composer : DmComposer)
  : DmComposer :=
  if (ctrlKey || metaKey) && bool_decide (key = "Enter") then handleStageMessage composer
  else if bool_decide (key = "Enter") && negb shiftKey then
    let content := trim (dmInput composer) in
    if bool_decide (content = "") then composer
    else {| dmMessages :=
              dmMessages composer
              ++ [{| DMMessage.sender_handle := DMParticipant.handle dmViewer;
                     DMMessage.content := content;
                     DMMessage.is_read := Some false;
                     DMMessage.timestamp := Some timestamp |}];
            dmStagedMessages := dmStagedMessages composer;
            dmInput := "" |}
  else composer.

(** [now] is [Date.now()]. *)
Definition handleNewPostSubmit (now : Z) (newPostBody newPostImage : string)
    (userPosts : list ProfilePost.t) : list ProfilePost.t :=
  let body := trim newPostBody in
  if bool_decide (body = "") then userPosts
  else
    let imageCaption := trim newPostImage in
    let newPost :=
      {| ProfilePost.id := "local-" +:+ js_String (VNum now);
         ProfilePost.body := body;
         ProfilePost.image_caption :=
           if bool_decide (imageCaption = "") then None else Some imageCaption;
         ProfilePost.stats :=
           {| FeedPostStats.comments := Some 0%Z; FeedPostStats.likes := Some 0%Z;
              FeedPostStats.is_liked_by_viewer := Some false |};
         ProfilePost.comments_data := Some [] |} in
    newPost :: userPosts.

Definition handleDeletePost (postId : string) (userPosts : list ProfilePost.t)
  : list ProfilePost.t :=
  filter (λ post, ProfilePost.id post ≠ postId) userPosts.

(** [handleProfileFollowToggle] (lines 1140-1145) on the pair of
    [profileFollowed] and [profileFollowerCount]. *)
Definition handleProfileFollowToggle (state : bool * Z) : bool * Z :=
  let '(prev, count) := state in
  (negb prev, Z.max 0 (count + (if prev then -1 else 1))%Z).

(** ** Export (App.tsx 774-792)

    The JSON document of the exported file: what [JSON.parse] reads back from
    [JSON.stringify(payload, null, 2)].  A property that is [undefined] is
    left out and [NaN] is written as [null]. *)

Definition optional_field (k : string) (v : option value) : list (string * value) :=
  match v with
  | Some x => [(k, x)]
  | None => []
  end.

Definition DMMessage_document (m : DMMessage.t) : value :=
  VObj ([("sender_handle", VStr (DMMessage.sender_handle m));
         ("content", VStr (DMMessage.content m))]
        ++ optional_field "is_read" (VBool <$> DMMessage.is_read m)
        ++ optional_field "timestamp" (VStr <$> DMMessage.timestamp m)).

Definition number_document (n : number) : value :=
  match n with
  | Int n => VNum n
  | NaN => VNull
  end.

Definition NpcChatRecord_document (r : NpcChatRecord.t) : value :=
  VObj [("key", VStr (NpcChatRecord.key r));
        ("updated_at", number_document (NpcChatRecord.updated_at r));
        ("messages", VArr (DMMessage_document <$> NpcChatRecord.messages r))].

Definition exportDocument (now : Z) (chats : list NpcChatRecord.t) : value :=
  VObj [("version", VNum 1);
        ("exported_at", VNum now);
        ("chats", VArr (NpcChatRecord_document <$> chats))].

(** [Some document] when the file is produced, [None] after a logged failure. *)
Definition handleExportNpcChats (now : Z) (db : option (gmap string NpcChatRecord.t))
  : Eff (option value) :=
  try_catch
    (chats ← lift (listNpcChats db);
     mret (Some (exportDocument now chats)))
    (λ error,
      _ ← emit (ConsoleWarn "Failed to export NPC chats:" error);
      mret None).

(** ** Statements used by the further properties *)

(** A document with every string leaf rewritten by [g]: same keys in the same
    order, same array order, other scalars as they are. *)
Fixpoint mapStrings (g : string → string) (v : value) : value :=
  match v with
  | VStr s => VStr (g s)
  | VArr items => VArr (map (mapStrings g) items)
  | VObj fields => VObj (map (λ entry, (entry.1, mapStrings g entry.2)) fields)
  | _ => v
  end.

(** What [resolveMacroString] makes of a string: the substitution when the
    function exists and returns, the string itself otherwise. *)
Definition resolvedString (h : Host) (s : string) : string :=
  match substitudeMacros h with
  | Some substitude => match substitude s with Ok s' => s' | Raise _ => s end
  | None => s
  end.

Definition is_console (ev : event) : bool :=
  match ev with
  | ConsoleWarn _ _ | ConsoleError _ _ => true
  | _ => false
  end.

(** The comments and replies a comment list shows. *)
Definition commentWeight (c : FeedPostComment.t) : Z :=
  (1 + Z.of_nat (List.length (default [] (FeedPostComment.replies c))))%Z.

Definition commentsTotal (cs : list FeedPostComment.t) : Z :=
  foldr (λ c acc, (commentWeight c + acc)%Z) 0%Z cs.

(** The count a post displays agrees with its comment list. *)
Definition commentCountInSync (post : FeedPost.t) : Prop :=
  default 0%Z (FeedPostStats.comments (FeedPost.stats post))
  = commentsTotal (default [] (FeedPost.people_comments post)).

(** A message that survives [normalizeNpcMessage]. *)
Definition valid_message (m : DMMessage.t) : Prop :=
  DMMessage.sender_handle m ≠ "" ∧ DMMessage.content m ≠ "".

(** A page whose structured backend works: the message scope holds
    [{stat_data: {}}]. *)
Definition workingMvuHost : Host :=
  {| yaml_parse := λ _, Raise (SyntaxError "YAML");
     JSON_parse := JSON_parse_reference;
     substitudeMacros := None;
     getCurrentMessageId := Some (Ok 7%Z);
     waitGlobalInitialized := Some (λ _, Ok ());
     Mvu := Some {| getMvuData := Some (λ _, Ok (VObj [("stat_data", VObj [])]));
                    replaceMvuData := λ _ _, Ok () |};
     getVariables := Some (λ _, Ok (VObj [("stat_data", VObj [])]));
     replaceVariables := Some (λ _ _, Ok ()) |}.

(** A page whose backends exist and whose every write throws. *)
Definition readOnlyHost : Host :=
  {| yaml_parse := λ _, Raise (SyntaxError "YAML");
     JSON_parse := JSON_parse_reference;
     substitudeMacros := None;
     getCurrentMessageId := Some (Ok 7%Z);
     waitGlobalInitialized := None;
     Mvu := Some {| getMvuData := Some (λ _, Ok (VObj []));
                    replaceMvuData := λ _ _, Raise (HostError "read only") |};
     getVariables := Some (λ _, Ok (VObj []));
     replaceVariables := Some (λ _ _, Raise (HostError "read only")) |}.

(** An event that reads a backend or logs: no write, no mutator, no refresh. *)
Definition reads_only (ev : event) : bool :=
  match ev with
  | ConsoleWarn _ _ | ConsoleError _ _ | CallGetMvuData _ | CallGetVariables _ => true
  | _ => false
  end.

(** A generic backend whose chat scope alone holds a feed. *)
Definition chatScopeVariables (scope : VariableOption) : Result value :=
  match scope with
  | OptChat => Ok (VObj [("echo_chamber_feed", VObj [("posts", VArr [])])])
  | _ => Ok (VObj [])
  end.

(** A successful write that precedes a refresh: the call [replace next opt]
    of one of the two backends returned normally. *)
Definition wrote (h : Host) (trace : list event) : Prop :=
  (∃ mvu next opt,
      Mvu h = Some mvu ∧ replaceMvuData mvu next opt = Ok ()
      ∧ CallReplaceMvuData next opt ∈ trace)
  ∨ (∃ replaceVars next opt,
      replaceVariables h = Some replaceVars ∧ replaceVars next opt = Ok ()
      ∧ CallReplaceVariables next opt ∈ trace).

(** A text without the characters the relaxation may drop: commas and white
    space. *)
Fixpoint strip_separators (s : string) : string :=
  match s with
  | "" => ""
  | String c s' =>
      if bool_decide (c = ","%char) || is_space c then strip_separators s'
      else String c (strip_separators s')
  end.

Fixpoint has_comma (s : string) : bool :=
  match s with
  | "" => false
  | String c s' => bool_decide (c = ","%char) || has_comma s'
  end.

(** A stand-in for [Number(v)] on the sample inputs below, which hand it
    numbers only: it is [Number] on a number and [NaN] elsewhere. *)
Definition integerNumber (v : value) : number :=
  match v with
  | VNum n => Int n
  | _ => NaN
  end.

(** A record as the cache holds it after a write of this program: the key
    has no white space around it and every message has a sender and a
    content. *)
Definition exportable (r : NpcChatRecord.t) : Prop :=
  NpcChatRecord.key r ≠ ""
  ∧ trim (NpcChatRecord.key r) = NpcChatRecord.key r
  ∧ Forall valid_message (NpcChatRecord.messages r).

(** The store keeps each record under its own key ([keyPath: 'key']), and
    this program never writes under the empty key. *)
Definition cache_wf (store : gmap string NpcChatRecord.t) : Prop :=
  ∀ k r, store !! k = Some r → NpcChatRecord.key r = k ∧ k ≠ "".

(** The record that [writeNpcChat] puts for [r] at the time [now]. *)
Definition rewritten (now : Z) (r : NpcChatRecord.t) : NpcChatRecord.t :=
  {| NpcChatRecord.key := NpcChatRecord.key r;
     NpcChatRecord.updated_at := Int now;
     NpcChatRecord.messages := NpcChatRecord.messages r |}.

(** The cache after the records were written one after the other. *)
Definition upsertAll (now : Z) (store : gmap string NpcChatRecord.t)
    (records : list NpcChatRecord.t) : gmap string NpcChatRecord.t :=
  foldl (λ st r, <[NpcChatRecord.key r := rewritten now r]> st) store records.

(** A cache with one conversation, and the text of its export at time 1. *)
Definition sample_record : NpcChatRecord.t :=
  {| NpcChatRecord.key := "@a"; NpcChatRecord.updated_at := Int 0;
     NpcChatRecord.messages := [sample_message "hi"] |}.

Definition sample_store : gmap string NpcChatRecord.t := {[ "@a" := sample_record ]}.

Definition export_text : string :=
  "{" +:+ dq +:+ "version" +:+ dq +:+ ":1,"
  +:+ dq +:+ "exported_at" +:+ dq +:+ ":1,"
  +:+ dq +:+ "chats" +:+ dq +:+ ":[{"
  +:+ dq +:+ "key" +:+ dq +:+ ":" +:+ dq +:+ "@a" +:+ dq +:+ ","
  +:+ dq +:+ "updated_at" +:+ dq +:+ ":0,"
  +:+ dq +:+ "messages" +:+ dq +:+ ":[{"
  +:+ dq +:+ "sender_handle" +:+ dq +:+ ":" +:+ dq +:+ "@a" +:+ dq +:+ ","
  +:+ dq +:+ "content" +:+ dq +:+ ":" +:+ dq +:+ "hi" +:+ dq +:+ "}]}]}".

(** The composer after a conversation was cleared. *)
Definition clearedComposer (thread : option (list DMMessage.t)) : DmComposer :=
  {| dmMessages := default [] thread; dmStagedMessages := []; dmInput := "" |}.

Definition unavailable : exn := HostError "IndexedDB is not available".

(** The list on screen after a conversation with the cached messages
    [cached] is opened, [base] being the backend thread or, without one, the
    list shown before. *)
Definition adopted (cached base current : list DMMessage.t) : list DMMessage.t :=
  if Nat.eqb (List.length cached) 0 then current
  else if Nat.ltb (List.length base) (List.length cached) then cached else base.

Definition sample_partner : DMParticipant.t :=
  {| DMParticipant.name := "A"; DMParticipant.handle := "@a";
     DMParticipant.avatar_char := None; DMParticipant.avatar_icon := None;
     DMParticipant.avatar_bg := None |}.

(** A post with an empty comment list and a count of 0. *)
Definition commented_post : FeedPost.t :=
  {| FeedPost.user := sample_user; FeedPost.body := "hi"; FeedPost.tags := None;
     FeedPost.image_caption := None;
     FeedPost.stats := {| FeedPostStats.comments := Some 0%Z; FeedPostStats.likes := Some 0%Z;
                          FeedPostStats.is_liked_by_viewer := None |};
     FeedPost.people_comments := Some [] |}.

(** The id that [handleNewPostSubmit] gives to a post made at the time [now]. *)
Definition localPostId (now : Z) : string := "local-" +:+ js_String (VNum now).

Definition sample_composer : DmComposer :=
  {| dmMessages := [sample_message "hi"]; dmStagedMessages := ["one"]; dmInput := " two " |}.

(** A page whose chat scope holds a feed with [posts] that is not a list. *)
Definition brokenFeedHost : Host :=
  {| yaml_parse := λ _, Raise (SyntaxError "YAML");
     JSON_parse := JSON_parse_reference;
     substitudeMacros := None;
     getCurrentMessageId := None;
     waitGlobalInitialized := None;
     Mvu := None;
     getVariables :=
       Some (λ _, Ok (VObj [("echo_chamber_feed", VObj [("posts", VStr "soon")])]));
     replaceVariables := None |}.

(** A page whose structured backend holds a feed under [stat_data]. *)
Definition structuredHost : Host :=
  {| yaml_parse := λ _, Raise (SyntaxError "YAML");
     JSON_parse := JSON_parse_reference;
     substitudeMacros := None;
     getCurrentMessageId := Some (Ok 7%Z);
     waitGlobalInitialized := None;
     Mvu := Some {| getMvuData :=
                      Some (λ _, Ok (VObj [("stat_data",
                                            VObj [("echo_chamber_feed",
                                                   VObj [("posts", VArr [])])])]));
                    replaceMvuData := λ _ _, Ok () |};
     getVariables := Some (λ _, Ok (VObj []));
     replaceVariables := None |}.

(** * Properties *)

(** ** Objects *)

Lemma field_set_field_eq k v o : field k (set_field k v o) = v.
Proof.
  induction o as [|[k' v'] o IH]; simpl.
  - by rewrite decide_True.
  - destruct (decide (k' = k)) as [->|Hne]; simpl.
    + by rewrite decide_True.
    + by rewrite decide_False.
Qed.

Lemma field_set_field_ne k k' v o : k ≠ k' → field k' (set_field k v o) = field k' o.
Proof.
  intros Hne. induction o as [|[k0 v0] o IH]; simpl.
  - by rewrite decide_False.
  - destruct (decide (k0 = k)) as [->|Hk0]; simpl.
    + by rewrite !decide_False.
    + destruct (decide (k0 = k')); [done | apply IH].
Qed.

Lemma has_field_set_field_ne k k' v o :
  k ≠ k' → has_field k' (set_field k v o) = has_field k' o.
Proof.
  intros Hne. induction o as [|[k0 v0] o IH]; simpl.
  - by rewrite decide_False.
  - destruct (decide (k0 = k)) as [->|Hk0]; simpl.
    + by rewrite !decide_False.
    + destruct (decide (k0 = k')); [done | apply IH].
Qed.

Lemma set_field_set_field k v v' o : set_field k v (set_field k v' o) = set_field k v o.
Proof.
  induction o as [|[k0 v0] o IH]; simpl.
  - by rewrite decide_True.
  - destruct (decide (k0 = k)) as [->|Hk0]; simpl.
    + by rewrite decide_True.
    + rewrite decide_False by done. by rewrite IH.
Qed.

(** ** [mapM] in [Result] *)

Lemma mapM_Result_cons {A B} (f : A → Result B) x l :
  mapM f (x :: l) =
  match f x with
  | Ok y => match mapM f l with Ok k => Ok (y :: k) | Raise e => Raise e end
  | Raise e => Raise e
  end.
Proof. reflexivity. Qed.

Lemma mapM_Result_Forall2 {A B} (f : A → Result B) l l' :
  mapM f l = Ok l' ↔ Forall2 (λ x y, f x = Ok y) l l'.
Proof.
  revert l'. induction l as [|x l IH]; intros l'.
  - split.
    + intros [= <-]. constructor.
    + intros Hl. by inversion Hl.
  - rewrite mapM_Result_cons. split.
    + destruct (f x) as [y|] eqn:Hx; [|done].
      destruct (mapM f l) as [k|] eqn:Hl; [|done].
      intros [= <-]. constructor; [done | by apply IH].
    + intros Hl. inversion Hl as [|? y ? k Hx Hk]; subst.
      rewrite Hx. apply IH in Hk. by rewrite Hk.
Qed.

Lemma mapM_Result_total {A B} (f : A → Result B) l :
  Forall (λ x, ∃ y, f x = Ok y) l → ∃ l', mapM f l = Ok l'.
Proof.
  induction 1 as [|x l [y Hy] _ [k Hk]].
  - by exists [].
  - exists (y :: k). by rewrite mapM_Result_cons, Hy, Hk.
Qed.

(** ** Laws of [Eff] *)

Lemma Eff_eta {A} (m : Eff A) : mkEff (emitted m) (outcome m) = m.
Proof. by destruct m. Qed.

Lemma bind_mret {A B} (a : A) (k : A → Eff B) : (mret a ≫= k) = k a.
Proof. unfold mbind, Eff_bind, mret, Eff_ret. simpl. apply Eff_eta. Qed.

Lemma bind_lift_Ok {A B} (a : A) (k : A → Eff B) : (lift (Ok a) ≫= k) = k a.
Proof. unfold mbind, Eff_bind, lift. simpl. apply Eff_eta. Qed.

Lemma bind_lift_Raise {A B} (e : exn) (k : A → Eff B) :
  (lift (Raise e) ≫= k) = mkEff [] (Raise e).
Proof. reflexivity. Qed.

Lemma bind_throw {A B} (e : exn) (k : A → Eff B) : (throw e ≫= k) = mkEff [] (Raise e).
Proof. reflexivity. Qed.

Lemma bind_emit {B} (ev : event) (k : unit → Eff B) :
  (emit ev ≫= k) = mkEff (ev :: emitted (k ())) (outcome (k ())).
Proof. reflexivity. Qed.

Lemma bind_mkEff_Ok {A B} (l : list event) (a : A) (k : A → Eff B) :
  (mkEff l (Ok a) ≫= k) = mkEff (l ++ emitted (k a)) (outcome (k a)).
Proof. reflexivity. Qed.

Lemma bind_mkEff_Raise {A B} (l : list event) (e : exn) (k : A → Eff B) :
  (mkEff l (Raise e) ≫= k) = mkEff l (Raise e).
Proof. reflexivity. Qed.

Lemma try_catch_Ok {A} (l : list event) (a : A) (handler : exn → Eff A) :
  try_catch (mkEff l (Ok a)) handler = mkEff l (Ok a).
Proof. reflexivity. Qed.

Lemma try_catch_Raise {A} (l : list event) (e : exn) (handler : exn → Eff A) :
  try_catch (mkEff l (Raise e)) handler
  = mkEff (l ++ emitted (handler e)) (outcome (handler e)).
Proof. reflexivity. Qed.

Lemma mret_Eff {A} (a : A) : (mret a : Eff A) = mkEff [] (Ok a).
Proof. reflexivity. Qed.

Lemma lift_mkEff {A} (r : Result A) : lift r = mkEff [] r.
Proof. reflexivity. Qed.

Lemma emit_mkEff (ev : event) : emit ev = mkEff [ev] (Ok ()).
Proof. reflexivity. Qed.

Create Rewrite HintDb eff.
#[local] Hint Rewrite @bind_mret @bind_lift_Ok @bind_lift_Raise @bind_throw @bind_emit
  @bind_mkEff_Ok @bind_mkEff_Raise @try_catch_Ok @try_catch_Raise : eff.

(** Normalise a computation in [Eff] whose host answers are known. *)
Ltac eff_simpl :=
  repeat (progress (autorewrite with eff; rewrite ?mret_Eff, ?lift_mkEff, ?emit_mkEff;
                    cbn [emitted outcome app]; autorewrite with eff)).

(** Membership of an event in a trace built from given events and appends. *)
Ltac trace_solver :=
  rewrite ?list_elem_of_In in *; simpl in *; rewrite ?in_app_iff in *; simpl in *;
  intuition (auto; congruence).

(** ** [normalizeEchoChamberFeed] *)

Lemma normalizePost_fixed post post' :
  normalizePost post = Ok post' → normalizePost post' = Ok post'.
Proof.
  unfold normalizePost.
  destruct post as [| |b|n|s|l|o]; simpl; try done; try (by intros [= <-]).
  destruct (truthy (field "people_comments" o)) eqn:Hpc; simpl.
  - intros [= <-]. simpl. by rewrite Hpc.
  - destruct (truthy (field "People_comments" o)) eqn:HPc; simpl.
    + intros [= <-]. unfold spread_with. simpl.
      by rewrite field_set_field_eq, HPc.
    + intros [= <-]. simpl. by rewrite Hpc, HPc.
Qed.

Lemma normalizePost_frame post post' k :
  normalizePost post = Ok post' → k ≠ "people_comments" →
  member post' k = member post k ∧ in_op k post' = in_op k post.
Proof.
  unfold normalizePost. intros Hn Hk.
  destruct post as [| |b|n|s|l|o]; simpl in Hn; try done; try (by injection Hn as <-).
  destruct (truthy (field "people_comments" o)); simpl in Hn; [by injection Hn as <-|].
  destruct (truthy (field "People_comments" o)); simpl in Hn; [|by injection Hn as <-].
  injection Hn as <-. unfold spread_with. simpl.
  split; [by apply field_set_field_ne | by apply has_field_set_field_ne].
Qed.

Lemma normalizePost_total post : nullish post = false → ∃ post', normalizePost post = Ok post'.
Proof.
  unfold normalizePost.
  destruct post as [| |b|n|s|l|o]; simpl; try done; eauto.
  destruct (truthy (field "people_comments" o)); simpl; eauto.
  destruct (truthy (field "People_comments" o)); simpl; eauto.
Qed.

Lemma mapM_normalizePost_fixed posts posts' :
  mapM normalizePost posts = Ok posts' → mapM normalizePost posts' = Ok posts'.
Proof.
  rewrite !mapM_Result_Forall2. intros H.
  induction H as [|x y l k Hxy _ IH]; constructor; [|done].
  exact (normalizePost_fixed x y Hxy).
Qed.

Lemma normalizeEchoChamberFeed_fixed feed feed' :
  normalizeEchoChamberFeed feed = Ok feed' → normalizeEchoChamberFeed feed' = Ok feed'.
Proof.
  unfold normalizeEchoChamberFeed.
  destruct feed as [| |b|n|s|l|o]; simpl; try done; try (by intros [= <-]).
  destruct (truthy (field "posts" o)) eqn:Hposts; simpl;
    [|intros [= <-]; simpl; by rewrite Hposts].
  destruct (field "posts" o) as [| |b|n|s|l|o']; simpl; try done.
  destruct (mapM normalizePost l) as [l'|] eqn:Hl; simpl; [|done].
  intros [= <-]. unfold spread_with. simpl.
  rewrite field_set_field_eq. simpl.
  rewrite (mapM_normalizePost_fixed _ _ Hl). simpl.
  by rewrite set_field_set_field.
Qed.

(** C4: [normalizeEchoChamberFeed] is idempotent (a second application
    returns what the first returned, and fails exactly when the first fails);
    it returns normally on every typed feed; and a normal return differs from
    its argument at most in [posts], each post differing from the original
    at most in [people_comments]: every other field has the value it had and
    is present exactly when it was. *)
Theorem normalizeEchoChamberFeed_idempotent (feed : value) :
  (normalizeEchoChamberFeed feed ≫= normalizeEchoChamberFeed = normalizeEchoChamberFeed feed)
  ∧ (feed_typed feed → ∃ feed', normalizeEchoChamberFeed feed = Ok feed')
  ∧ (∀ feed', normalizeEchoChamberFeed feed = Ok feed' →
       (∀ k, k ≠ "posts" → member feed' k = member feed k ∧ in_op k feed' = in_op k feed)
       ∧ Forall2 (λ post post',
                    ∀ k, k ≠ "people_comments" →
                         member post' k = member post k ∧ in_op k post' = in_op k post)
           (posts_of feed) (posts_of feed')).
Proof.
  split; [|split].
  - destruct (normalizeEchoChamberFeed feed) as [feed'|e] eqn:Hn; [|done].
    simpl. exact (normalizeEchoChamberFeed_fixed feed feed' Hn).
  - intros (o & -> & Hposts). unfold normalizeEchoChamberFeed. simpl.
    destruct Hposts as [Hu | (posts & Hp & Hall)].
    + rewrite Hu. simpl. eauto.
    + rewrite Hp. simpl.
      destruct (mapM_Result_total normalizePost posts) as [l' Hl'].
      { eapply Forall_impl; [exact Hall|]. intros p [f ->].
        by apply normalizePost_total. }
      rewrite Hl'. simpl. eauto.
  - intros feed'. unfold normalizeEchoChamberFeed, posts_of.
    destruct feed as [| |b|n|s|l|o]; simpl; try done;
      try (intros [= <-]; split; [done | simpl; constructor]).
    destruct (truthy (field "posts" o)) eqn:Hposts; simpl.
    + destruct (field "posts" o) as [| |b|n|s|l|o'] eqn:Hf; simpl; try done.
      destruct (mapM normalizePost l) as [l'|] eqn:Hl; simpl; [|done].
      intros [= <-]. unfold spread_with. simpl. split.
      * intros k Hk. split; [by apply field_set_field_ne | by apply has_field_set_field_ne].
      * rewrite field_set_field_eq.
        apply mapM_Result_Forall2 in Hl.
        eapply Forall2_impl; [exact Hl|]. simpl. intros post post' Hpost k Hk.
        exact (normalizePost_frame post post' k Hpost Hk).
    + intros [= <-]. split; [done|]. simpl.
      destruct (field "posts" o); try constructor.
      apply Forall2_same_length_lookup. split; [done|].
      intros i x y Hx Hy k Hk. by simplify_eq.
Qed.

Lemma field_absent k o : has_field k o = false → field k o = VUndefined.
Proof.
  induction o as [|[k' v] o IH]; simpl; [done|].
  destruct (decide (k' = k)); [done | exact IH].
Qed.

Lemma normalizePost_alias o cs :
  has_field "people_comments" o = false →
  field "People_comments" o = VArr cs →
  normalizePost (VObj o) = Ok (VObj (set_field "people_comments" (VArr cs) o)).
Proof.
  intros Hno Hcs. unfold normalizePost. simpl.
  by rewrite (field_absent _ _ Hno), Hcs.
Qed.

(** C2, as stated, fails: the post of [alias_feed] has [People_comments] and
    no [people_comments]; after normalisation the field [People_comments] is
    still there. *)
Lemma normalizeEchoChamberFeed_keeps_alias :
  in_op "people_comments" alias_post = false
  ∧ ∃ post', normalizeEchoChamberFeed alias_feed = Ok (VObj [("posts", VArr [post'])])
             ∧ ¬ alias_moved alias_post post'.
Proof.
  split; [reflexivity|].
  eexists. split; [reflexivity|].
  intros [_ Habsent]. vm_compute in Habsent. discriminate.
Qed.

(** C2, amended: for a post that carries comments under [People_comments]
    and has no [people_comments], normalisation copies those entries to
    [people_comments] and keeps every field of the post, [People_comments]
    included, so that both variants are present with the same entries. *)
Theorem normalizeEchoChamberFeed_copies_alias
    (feed : value) (posts : list value) (i : nat) (post : value) (cs : list value) :
  member feed "posts" = VArr posts →
  Forall (λ p, nullish p = false) posts →
  posts !! i = Some post →
  in_op "people_comments" post = false →
  member post "People_comments" = VArr cs →
  ∃ feed' posts' post',
    normalizeEchoChamberFeed feed = Ok feed'
    ∧ member feed' "posts" = VArr posts'
    ∧ posts' !! i = Some post'
    ∧ member post' "people_comments" = VArr cs
    ∧ member post' "People_comments" = VArr cs
    ∧ ∀ k, k ≠ "people_comments" → member post' k = member post k.
Proof.
  intros Hposts Hall Hi Hno Hcs.
  destruct feed as [| |b|n|s|l|o]; simpl in Hposts; try done.
  destruct post as [| |b|n|s|l|f]; simpl in Hcs, Hno; try done.
  destruct (mapM_Result_total normalizePost posts) as [posts' Hmap].
  { eapply Forall_impl; [exact Hall|]. intros p. apply normalizePost_total. }
  pose proof Hmap as HF. apply mapM_Result_Forall2 in HF.
  destruct (Forall2_lookup_l _ _ _ _ _ HF Hi) as (post' & Hi' & Hpost').
  rewrite (normalizePost_alias f cs Hno Hcs) in Hpost'. injection Hpost' as <-.
  exists (VObj (set_field "posts" (VArr posts') o)), posts',
    (VObj (set_field "people_comments" (VArr cs) f)).
  split; [|split; [|split; [|split; [|split]]]].
  - unfold normalizeEchoChamberFeed. simpl. rewrite Hposts. simpl. by rewrite Hmap.
  - simpl. apply field_set_field_eq.
  - exact Hi'.
  - simpl. apply field_set_field_eq.
  - simpl. by rewrite field_set_field_ne.
  - intros k Hk. simpl. by apply field_set_field_ne.
Qed.

Lemma normalizeEchoChamberFeed_copies_alias_witness :
  ∃ feed' posts' post',
    normalizeEchoChamberFeed alias_feed = Ok feed'
    ∧ member feed' "posts" = VArr posts'
    ∧ posts' !! 0%nat = Some post'
    ∧ member post' "people_comments" = VArr [VObj [("author", VStr "X"); ("text", VStr "t")]]
    ∧ member post' "People_comments" = VArr [VObj [("author", VStr "X"); ("text", VStr "t")]]
    ∧ ∀ k, k ≠ "people_comments" → member post' k = member alias_post k.
Proof.
  apply (normalizeEchoChamberFeed_copies_alias alias_feed [alias_post] 0 alias_post).
  - reflexivity.
  - repeat constructor.
  - reflexivity.
  - reflexivity.
  - reflexivity.
Defined.

(** ** Optimistic handlers: likes and comment counts *)

Lemma lookup_imap_at {A} (f : A → A) (i j : nat) (l : list A) :
  imap (λ idx x, if nat_neqb idx i then x else f x) l !! j
  = (if decide (j = i) then f else id) <$> l !! j.
Proof.
  rewrite list_lookup_imap. unfold nat_neqb.
  destruct (decide (j = i)) as [->|Hne].
  - by rewrite Nat.eqb_refl.
  - apply Nat.eqb_neq in Hne. rewrite Hne. simpl. by destruct (l !! j).
Qed.


Lemma imap_at_twice {A} (f : A → A) (i : nat) (l : list A) (x : A) :
  l !! i = Some x →
  imap (λ idx y, if nat_neqb idx i then y else f y)
    (imap (λ idx y, if nat_neqb idx i then y else f y) l)
  = <[i := f (f x)]> l.
Proof.
  intros Hx. apply list_eq. intros j.
  rewrite !lookup_imap_at.
  destruct (decide (j = i)) as [->|Hne].
  - rewrite Hx. simpl. symmetry. apply list_lookup_insert_eq.
    by apply lookup_lt_Some in Hx.
  - rewrite list_lookup_insert_ne by done. by destruct (l !! j).
Qed.

Lemma toggledStats_likes_nonneg stats :
  (0 ≤ default 0 (FeedPostStats.likes (toggledStats stats)))%Z.
Proof. unfold toggledStats. simpl. lia. Qed.

Lemma toggledStats_twice stats n :
  FeedPostStats.likes stats = Some n →
  (0 ≤ n)%Z →
  (default false (FeedPostStats.is_liked_by_viewer stats) = true → (1 ≤ n)%Z) →
  toggledStats (toggledStats stats)
  = {| FeedPostStats.comments := FeedPostStats.comments stats;
       FeedPostStats.likes := Some n;
       FeedPostStats.is_liked_by_viewer :=
         Some (default false (FeedPostStats.is_liked_by_viewer stats)) |}.
Proof.
  intros Hlikes Hn Hliked. unfold toggledStats. simpl. rewrite Hlikes. simpl.
  destruct (default false (FeedPostStats.is_liked_by_viewer stats)) eqn:Hl; simpl.
  - specialize (Hliked eq_refl). do 2 f_equal. lia.
  - do 2 f_equal. lia.
Qed.

(** C3, as stated, fails: a post with 0 likes that the viewer has liked
    comes back from two toggles with 1 like, in the feed and on the profile. *)
Lemma like_toggle_twice_counterexample :
  FeedPostStats.likes (FeedPost.stats liked_post_without_likes) = Some 0%Z
  ∧ (FeedPostStats.likes ∘ FeedPost.stats <$>
       toggleFeedLike 0 (toggleFeedLike 0 [liked_post_without_likes]) !! 0%nat)
    = Some (Some 1%Z)
  ∧ (FeedPostStats.likes ∘ ProfilePost.stats <$>
       toggleUserLike 0 (toggleUserLike 0 [liked_profile_post_without_likes]) !! 0%nat)
    = Some (Some 1%Z)
  ∧ toggleFeedLike 0 (toggleFeedLike 0 [liked_post_without_likes])
    ≠ [liked_post_without_likes]
  ∧ toggleUserLike 0 (toggleUserLike 0 [liked_profile_post_without_likes])
    ≠ [liked_profile_post_without_likes].
Proof. repeat split; discriminate. Qed.

(** C3, amended: for a post with [n] likes, [0 ≤ n ≤ MAX_SAFE_INTEGER]
    (where adding and subtracting 1 is exact on the doubles of the source),
    that is either not liked by the viewer or has [n ≥ 1], two toggles
    ([toggleFeedLike] or [toggleUserLike]) change nothing but the statistics
    of that post, where [likes] is [n] again and [is_liked_by_viewer] is the
    original flag (an absent flag, which reads as false, comes back as
    [false]); and after any toggle of any statistics [likes] is not
    negative. *)
Theorem like_toggle_twice (stats : FeedPostStats.t) (n : Z) :
  FeedPostStats.likes stats = Some n →
  (0 ≤ n ≤ MAX_SAFE_INTEGER)%Z →
  (default false (FeedPostStats.is_liked_by_viewer stats) = true → (1 ≤ n)%Z) →
  (∀ index feedPosts post,
     feedPosts !! index = Some post → FeedPost.stats post = stats →
     toggleFeedLike index (toggleFeedLike index feedPosts)
     = <[index := FeedPost.with_stats post
                    {| FeedPostStats.comments := FeedPostStats.comments stats;
                       FeedPostStats.likes := Some n;
                       FeedPostStats.is_liked_by_viewer :=
                         Some (default false (FeedPostStats.is_liked_by_viewer stats)) |}]>
         feedPosts)
  ∧ (∀ index userPosts post,
       userPosts !! index = Some post → ProfilePost.stats post = stats →
       toggleUserLike index (toggleUserLike index userPosts)
       = <[index := ProfilePost.with_stats post
                      {| FeedPostStats.comments := FeedPostStats.comments stats;
                         FeedPostStats.likes := Some n;
                         FeedPostStats.is_liked_by_viewer :=
                           Some (default false (FeedPostStats.is_liked_by_viewer stats)) |}]>
           userPosts)
  ∧ (∀ any, (0 ≤ default 0 (FeedPostStats.likes (toggledStats any)))%Z).
Proof.
  intros Hlikes [Hn Hsafe] Hliked.
  pose proof (toggledStats_twice stats n Hlikes Hn Hliked) as Htwice.
  split; [|split].
  - intros index feedPosts post Hpost Hstats. unfold toggleFeedLike.
    rewrite (imap_at_twice _ index feedPosts post Hpost).
    f_equal. unfold FeedPost.with_stats. simpl. by rewrite Hstats, Htwice.
  - intros index userPosts post Hpost Hstats. unfold toggleUserLike.
    rewrite (imap_at_twice _ index userPosts post Hpost).
    f_equal. unfold ProfilePost.with_stats. simpl. by rewrite Hstats, Htwice.
  - apply toggledStats_likes_nonneg.
Qed.

Lemma like_toggle_twice_witness :
  (∀ index feedPosts post,
     feedPosts !! index = Some post →
     FeedPost.stats post
     = {| FeedPostStats.comments := None; FeedPostStats.likes := Some 3%Z;
          FeedPostStats.is_liked_by_viewer := Some true |} →
     toggleFeedLike index (toggleFeedLike index feedPosts)
     = <[index := FeedPost.with_stats post
                    {| FeedPostStats.comments := None; FeedPostStats.likes := Some 3%Z;
                       FeedPostStats.is_liked_by_viewer := Some true |}]> feedPosts)
  ∧ (∀ index userPosts post,
       userPosts !! index = Some post →
       ProfilePost.stats post
       = {| FeedPostStats.comments := None; FeedPostStats.likes := Some 3%Z;
            FeedPostStats.is_liked_by_viewer := Some true |} →
       toggleUserLike index (toggleUserLike index userPosts)
       = <[index := ProfilePost.with_stats post
                      {| FeedPostStats.comments := None; FeedPostStats.likes := Some 3%Z;
                         FeedPostStats.is_liked_by_viewer := Some true |}]> userPosts)
  ∧ (∀ any, (0 ≤ default 0 (FeedPostStats.likes (toggledStats any)))%Z).
Proof.
  apply (like_toggle_twice
           {| FeedPostStats.comments := None; FeedPostStats.likes := Some 3%Z;
              FeedPostStats.is_liked_by_viewer := Some true |} 3%Z).
  - reflexivity.
  - unfold MAX_SAFE_INTEGER. lia.
  - intros _. lia.
Defined.










(** ** [parseYamlSource] and its relaxed-JSON fallback *)

Lemma relaxTrailingCommas_cons c s :
  relaxTrailingCommas (String c s)
  = if bool_decide (c = ","%char) then
      match match_close relaxTrailingCommas s with
      | Some replaced => replaced
      | None => String c (relaxTrailingCommas s)
      end
    else String c (relaxTrailingCommas s).
Proof. reflexivity. Qed.

Lemma is_close_not_space c : is_close c = true → is_space c = false.
Proof.
  unfold is_close. intros H. apply orb_true_iff in H.
  destruct H as [H|H]; apply bool_decide_eq_true in H; by subst.
Qed.

Lemma match_close_spaces rest ws c post :
  all_space ws = true → is_close c = true →
  match_close rest (ws +:+ String c post) = Some (String c (rest post)).
Proof.
  intros Hws Hc. induction ws as [|d ws IH]; simpl.
  - by rewrite (is_close_not_space c Hc), Hc.
  - simpl in Hws. apply andb_true_iff in Hws as [Hd Hws].
    rewrite Hd. by apply IH.
Qed.

Lemma match_close_inv rest t r :
  match_close rest t = Some r →
  ∃ ws d post, t = ws +:+ String d post ∧ all_space ws = true ∧ is_close d = true
               ∧ r = String d (rest post).
Proof.
  revert r. induction t as [|c t IH]; intros r; simpl; [done|].
  destruct (is_space c) eqn:Hspace.
  - intros H. destruct (IH r H) as (ws & d & post & -> & Hws & Hd & ->).
    exists (String c ws), d, post. simpl. by rewrite Hspace, Hws.
  - destruct (is_close c) eqn:Hclose; [|done].
    intros [= <-]. by exists "", c, t.
Qed.


Lemma match_close_app_comma (t rest : string) :
  (∀ t', String.length t' < String.length t →
     relaxTrailingCommas (t' +:+ String "," rest)
     = relaxTrailingCommas t' +:+ relaxTrailingCommas (String "," rest)) →
  match_close relaxTrailingCommas (t +:+ String "," rest)
  = (λ r, r +:+ relaxTrailingCommas (String "," rest)) <$> match_close relaxTrailingCommas t.
Proof.
  induction t as [|d t IH]; intros Hshort.
  - reflexivity.
  - simpl. destruct (is_space d).
    + apply IH. intros t' Hlt. apply Hshort. simpl. lia.
    + destruct (is_close d); [|reflexivity].
      simpl. rewrite Hshort by (simpl; lia). reflexivity.
Qed.

Lemma relaxTrailingCommas_app_comma (pre rest : string) :
  relaxTrailingCommas (pre +:+ String "," rest)
  = relaxTrailingCommas pre +:+ relaxTrailingCommas (String "," rest).
Proof.
  remember (String.length pre) as n eqn:Hn.
  revert pre Hn. induction (lt_wf n) as [n _ IH]. intros pre ->.
  destruct pre as [|c pre]; [reflexivity|].
  change (String c pre +:+ String "," rest) with (String c (pre +:+ String "," rest)).
  rewrite !relaxTrailingCommas_cons.
  assert (relaxTrailingCommas (pre +:+ String "," rest)
          = relaxTrailingCommas pre +:+ relaxTrailingCommas (String "," rest)) as Hpre.
  { apply (IH (String.length pre)); [simpl; lia | reflexivity]. }
  case_bool_decide; [|by rewrite Hpre].
  rewrite match_close_app_comma.
  - destruct (match_close relaxTrailingCommas pre); simpl; [reflexivity | by rewrite Hpre].
  - intros t' Hlt. apply (IH (String.length t')); [simpl; lia | reflexivity].
Qed.

Lemma relaxTrailingCommas_single (pre ws post : string) (c : ascii) :
  all_space ws = true → is_close c = true →
  relaxTrailingCommas (pre +:+ "," +:+ ws +:+ String c post)
  = relaxTrailingCommas pre +:+ String c (relaxTrailingCommas post).
Proof.
  intros Hws Hc.
  change (pre +:+ "," +:+ ws +:+ String c post)
    with (pre +:+ String "," (ws +:+ String c post)).
  rewrite relaxTrailingCommas_app_comma, relaxTrailingCommas_cons.
  rewrite bool_decide_true by done.
  by rewrite (match_close_spaces _ ws c post Hws Hc).
Qed.


(** C8, as stated, fails: the text [trailing_comma_text] is strict JSON but
    for one trailing comma before the closing brace.  The YAML parser
    rejects it for the repeated key [a] and strict JSON for the comma, so
    the fallback is reached; it also rewrites the string [x,]] to [x]], and
    the parse differs from that of the comma-free text under [b]. *)
Lemma relaxed_json_counterexample :
  trailing_comma_text
  = "{" +:+ dq +:+ "a" +:+ dq +:+ ":1," +:+ dq +:+ "a" +:+ dq +:+ ":2,"
        +:+ dq +:+ "b" +:+ dq +:+ ":" +:+ dq +:+ "x,]" +:+ dq +:+ "," +:+ "}"
  ∧ comma_free_text
    = "{" +:+ dq +:+ "a" +:+ dq +:+ ":1," +:+ dq +:+ "a" +:+ dq +:+ ":2,"
          +:+ dq +:+ "b" +:+ dq +:+ ":" +:+ dq +:+ "x,]" +:+ dq +:+ "}"
  ∧ yaml_parse jsonOnlyHost trailing_comma_text = Raise (SyntaxError "YAML")
  ∧ JSON_parse jsonOnlyHost trailing_comma_text
    = Raise (SyntaxError "Unexpected token in JSON")
  ∧ JSON_parse jsonOnlyHost comma_free_text = Ok (VObj [("a", VNum 2); ("b", VStr "x,]")])
  ∧ parseRelaxedJson jsonOnlyHost trailing_comma_text
    = Ok (VObj [("a", VNum 2); ("b", VStr "x]")])
  ∧ parseYamlSource jsonOnlyHost trailing_comma_text
    = mkEff [] (Ok (VObj [("a", VNum 2); ("b", VStr "x]")]))
  ∧ parseRelaxedJson jsonOnlyHost trailing_comma_text
    ≠ JSON_parse jsonOnlyHost comma_free_text.
Proof. repeat split; try reflexivity. vm_compute. discriminate. Qed.

(** C8, amended: for a text with a trailing comma, followed by white space
    or nothing, before a closing bracket or brace, in which the pattern
    comma, white space, closing bracket or brace occurs nowhere else (string
    literals included), the relaxed-JSON fallback parses exactly the text
    without that comma and the white space after it. *)
Theorem relaxed_json_single_trailing_comma
    (h : Host) (pre ws post : string) (c : ascii) :
  all_space ws = true →
  is_close c = true →
  relaxTrailingCommas pre = pre →
  relaxTrailingCommas post = post →
  relaxTrailingCommas (pre +:+ "," +:+ ws +:+ String c post) = pre +:+ String c post
  ∧ parseRelaxedJson h (pre +:+ "," +:+ ws +:+ String c post)
    = (parsed ← JSON_parse h (pre +:+ String c post); Ok (parsed ?? VObj [])).
Proof.
  intros Hws Hc Hpre Hpost.
  assert (relaxTrailingCommas (pre +:+ "," +:+ ws +:+ String c post)
          = pre +:+ String c post) as Heq.
  { by rewrite (relaxTrailingCommas_single pre ws post c Hws Hc), Hpre, Hpost. }
  split; [exact Heq|].
  unfold parseRelaxedJson. by rewrite Heq.
Qed.

Lemma relaxed_json_single_trailing_comma_witness :
  relaxTrailingCommas ("[1, 2" +:+ "," +:+ " " +:+ String "]" "") = "[1, 2" +:+ String "]" ""
  ∧ parseRelaxedJson jsonOnlyHost ("[1, 2" +:+ "," +:+ " " +:+ String "]" "")
    = (parsed ← JSON_parse jsonOnlyHost ("[1, 2" +:+ String "]" ""); Ok (parsed ?? VObj [])).
Proof.
  apply (relaxed_json_single_trailing_comma jsonOnlyHost "[1, 2" " " "" "]"%char);
    reflexivity.
Defined.

(** ** Conversation cache: merge on load *)

(** C6, as stated, fails: the cached record for ["@a"] has 0 messages, the
    backend thread has 1, three messages are on screen; opening the
    conversation leaves the three on screen. *)
Lemma loadNpcChat_counterexample :
  ∃ record adopted,
    readNpcChat empty_record_db "@a" = Ok (Some record)
    ∧ loadNpcChat empty_record_db "@a" false (Some [sample_message "one"])
        [sample_message "one"; sample_message "two"; sample_message "three"]
      = mkEff [] (Ok adopted)
    ∧ List.length adopted = 3%nat
    ∧ List.length adopted
      ≠ Nat.max (List.length (NpcChatRecord.messages record))
          (List.length [sample_message "one"]).
Proof.
  eexists. eexists.
  split; [vm_compute; reflexivity|].
  split; [vm_compute; reflexivity|].
  split; [reflexivity | discriminate].
Qed.

(** C6, amended: on opening a conversation whose cached record has [m ≥ 1]
    messages while the backend thread has [n], the current list becomes the
    cached messages when [m > n] and the backend thread otherwise, so it has
    [max m n] messages; when the cached record has no messages the current
    list stays as it is. *)
Theorem loadNpcChat_adopts_longer
    (store : gmap string NpcChatRecord.t) (dmKey : string) (record : NpcChatRecord.t)
    (thread current : list DMMessage.t) :
  dmKey ≠ "" →
  store !! dmKey = Some record →
  ((1 ≤ List.length (NpcChatRecord.messages record))%nat →
     ∃ adopted,
       loadNpcChat (Some store) dmKey false (Some thread) current = mkEff [] (Ok adopted)
       ∧ adopted = (if decide (List.length thread < List.length (NpcChatRecord.messages record))
                    then NpcChatRecord.messages record else thread)
       ∧ List.length adopted = Nat.max (List.length (NpcChatRecord.messages record)) (List.length thread))
  ∧ (List.length (NpcChatRecord.messages record) = 0%nat →
       loadNpcChat (Some store) dmKey false (Some thread) current = mkEff [] (Ok current)).
Proof.
  intros Hkey Hrecord. unfold loadNpcChat.
  rewrite bool_decide_false by done.
  unfold readNpcChat. simpl. rewrite Hrecord. eff_simpl.
  split.
  - intros Hm.
    destruct (Nat.eqb_spec (List.length (NpcChatRecord.messages record)) 0) as [H0|_]; [lia|].
    eff_simpl. eexists. split; [reflexivity|].
    destruct (Nat.ltb_spec (List.length thread) (List.length (NpcChatRecord.messages record)));
      destruct (decide (List.length thread < List.length (NpcChatRecord.messages record)));
      try lia; split; try reflexivity; lia.
  - intros ->. by eff_simpl.
Qed.

Lemma loadNpcChat_adopts_longer_witness :
  ∃ adopted,
    loadNpcChat
      (Some {[ "@a" := {| NpcChatRecord.key := "@a"; NpcChatRecord.updated_at := Int 0;
                          NpcChatRecord.messages :=
                            [sample_message "one"; sample_message "two"] |} ]})
      "@a" false (Some [sample_message "one"]) [] = mkEff [] (Ok adopted)
    ∧ adopted = (if decide (List.length [sample_message "one"]
                            < List.length [sample_message "one"; sample_message "two"])
                 then [sample_message "one"; sample_message "two"]
                 else [sample_message "one"])
    ∧ List.length adopted
      = Nat.max (List.length [sample_message "one"; sample_message "two"])
          (List.length [sample_message "one"]).
Proof.
  refine (proj1 (loadNpcChat_adopts_longer
                   {[ "@a" := {| NpcChatRecord.key := "@a"; NpcChatRecord.updated_at := Int 0;
                                 NpcChatRecord.messages :=
                                   [sample_message "one"; sample_message "two"] |} ]}
                   "@a"
                   {| NpcChatRecord.key := "@a"; NpcChatRecord.updated_at := Int 0;
                      NpcChatRecord.messages := [sample_message "one"; sample_message "two"] |}
                   [sample_message "one"] [] _ _) _).
  - discriminate.
  - reflexivity.
  - simpl. lia.
Defined.

(** ** Variable store writer *)

Lemma coalesce_idem v d : nullish d = false → (v ?? d) ?? d = v ?? d.
Proof. intros Hd. unfold coalesce. destruct (nullish v) eqn:Hv; [by rewrite Hd | by rewrite Hv]. Qed.

Lemma updateWithVars_eq apply vars :
  updateWithVars apply (vars ?? VObj [])
  = mkEff [CallApply (statDataOf vars)]
      (match apply (statDataOf vars) with
       | Ok mutated => Ok (nextOf vars mutated)
       | Raise e => Raise e
       end).
Proof.
  unfold updateWithVars, statDataOf, nextOf.
  rewrite coalesce_idem by done. eff_simpl.
  destruct (apply _); by eff_simpl.
Qed.

Lemma writerOption_emits h : emitted (writerOption h) = [].
Proof. unfold writerOption. destruct (getCurrentMessageId h) as [[id|e]|]; reflexivity. Qed.

Lemma waitForMvu_returns h : ∃ l, waitForMvu h = mkEff l (Ok ()).
Proof.
  unfold waitForMvu.
  destruct (waitGlobalInitialized h) as [wait|]; [|by exists []].
  eff_simpl. destruct (wait "Mvu") as [[]|e]; eff_simpl; eauto.
Qed.

Lemma updateGeneric_returns h apply refresh opt :
  outcome (updateGeneric h apply refresh opt) = Ok ().
Proof.
  unfold updateGeneric.
  match goal with |- outcome (try_catch ?body _) = _ => destruct body as [l [[]|e]] end;
    reflexivity.
Qed.

Lemma updateGeneric_attempt h apply refresh opt getVars replaceVars :
  getVariables h = Some getVars → replaceVariables h = Some replaceVars →
  CallGetVariables opt ∈ emitted (updateGeneric h apply refresh opt)
  ∧ ∀ vars mutated,
      getVars opt = Ok vars → apply (statDataOf vars) = Ok mutated →
      CallReplaceVariables (nextOf vars mutated) opt
        ∈ emitted (updateGeneric h apply refresh opt).
Proof.
  intros Hget Hreplace. unfold updateGeneric. rewrite Hget, Hreplace. eff_simpl.
  destruct (getVars opt) as [vars|e] eqn:Hvars; eff_simpl.
  - rewrite updateWithVars_eq.
    destruct (apply (statDataOf vars)) as [mutated|e] eqn:Happly; eff_simpl.
    + destruct (replaceVars (nextOf vars mutated) opt) as [[]|e] eqn:Hwrite; eff_simpl.
      * destruct refresh as [[]|e]; eff_simpl;
          (split; [trace_solver|]); intros vars' mutated' Hv Ha; simplify_eq; trace_solver.
      * split; [trace_solver|]. intros vars' mutated' Hv Ha. simplify_eq. trace_solver.
    + split; [trace_solver|]. intros vars' mutated' Hv Ha; simplify_eq; congruence.
  - split; [trace_solver|]. intros vars' mutated' Hv Ha; simplify_eq; congruence.
Qed.

Lemma updateMvu_failure h apply refresh opt mvu getData error :
  Mvu h = Some mvu → getMvuData mvu = Some getData →
  (getData opt = Raise error
   ∨ ∃ vars mutated,
       getData opt = Ok vars
       ∧ apply (statDataOf vars) = Ok mutated
       ∧ replaceMvuData mvu (nextOf vars mutated) opt = Raise error) →
  ∃ l, updateMvu h apply refresh opt
       = mkEff (l ++ [ConsoleWarn "Failed to update MVU data:" error]) (Ok false).
Proof.
  intros Hmvu Hget Hfail. unfold updateMvu. rewrite Hmvu, Hget. eff_simpl.
  destruct Hfail as [Hread | (vars & mutated & Hread & Happly & Hwrite)]; rewrite Hread; eff_simpl.
  - by exists [CallGetMvuData opt].
  - rewrite updateWithVars_eq, Happly. eff_simpl. rewrite Hwrite. eff_simpl.
    by exists [CallGetMvuData opt; CallApply (statDataOf vars);
               CallReplaceMvuData (nextOf vars mutated) opt].
Qed.

(** C1, as stated, fails: on [failingMvuHost] the structured read throws, the
    failure is logged, and the same call reads the generic scope document and
    writes the mutated document back through [replaceVariables]. *)
Lemma updateStatData_fallback_counterexample :
  updateStatData failingMvuHost touch (Ok ())
  = mkEff [CallWaitGlobalInitialized "Mvu";
           CallGetMvuData (OptMessage (MessageId 7));
           ConsoleWarn "Failed to update MVU data:" (HostError "MVU read failed");
           CallGetVariables (OptMessage (MessageId 7));
           CallApply (VObj []);
           CallReplaceVariables (VObj [("stat_data", VObj [("touched", VBool true)])])
             (OptMessage (MessageId 7));
           CallRefresh]
      (Ok ())
  ∧ ¬ no_generic_attempt (updateStatData failingMvuHost touch (Ok ())).
Proof.
  assert (updateStatData failingMvuHost touch (Ok ())
          = mkEff [CallWaitGlobalInitialized "Mvu";
                   CallGetMvuData (OptMessage (MessageId 7));
                   ConsoleWarn "Failed to update MVU data:" (HostError "MVU read failed");
                   CallGetVariables (OptMessage (MessageId 7));
                   CallApply (VObj []);
                   CallReplaceVariables (VObj [("stat_data", VObj [("touched", VBool true)])])
                     (OptMessage (MessageId 7));
                   CallRefresh]
              (Ok ())) as Heq by reflexivity.
  split; [exact Heq|].
  rewrite Heq. intros Hno.
  apply (Hno (CallGetVariables (OptMessage (MessageId 7)))).
  simpl. trace_solver.
Qed.

(** C1, amended: when [Mvu] is present but its read or its
    replace-whole-document write throws, the failure is logged and, if
    [getVariables] and [replaceVariables] exist, the same call goes on to the
    generic backend: it reads the scope document with [getVariables] and, when
    that read and the mutator succeed, writes the mutated document with
    [replaceVariables]; the call itself returns normally. *)
Theorem updateStatData_falls_back
    (h : Host) (apply : value → Result value) (refresh : Result unit)
    (mvu : MvuApi) (getData getVars : VariableOption → Result value)
    (replaceVars : value → VariableOption → Result unit)
    (opt : VariableOption) (error : exn) :
  Mvu h = Some mvu →
  getMvuData mvu = Some getData →
  getVariables h = Some getVars →
  replaceVariables h = Some replaceVars →
  outcome (writerOption h) = Ok opt →
  (getData opt = Raise error
   ∨ ∃ vars mutated,
       getData opt = Ok vars
       ∧ apply (statDataOf vars) = Ok mutated
       ∧ replaceMvuData mvu (nextOf vars mutated) opt = Raise error) →
  outcome (updateStatData h apply refresh) = Ok ()
  ∧ ConsoleWarn "Failed to update MVU data:" error ∈ emitted (updateStatData h apply refresh)
  ∧ CallGetVariables opt ∈ emitted (updateStatData h apply refresh)
  ∧ ∀ vars mutated,
      getVars opt = Ok vars → apply (statDataOf vars) = Ok mutated →
      CallReplaceVariables (nextOf vars mutated) opt
        ∈ emitted (updateStatData h apply refresh).
Proof.
  intros Hmvu Hget Hvars Hreplace Hopt Hfail.
  destruct (updateMvu_failure h apply refresh opt mvu getData error Hmvu Hget Hfail)
    as [l Hupdate].
  destruct (waitForMvu_returns h) as [lw Hwait].
  destruct (updateGeneric_attempt h apply refresh opt getVars replaceVars Hvars Hreplace)
    as [Hread Hwrite].
  pose proof (updateGeneric_returns h apply refresh opt) as Hret.
  unfold updateStatData.
  rewrite <- (Eff_eta (writerOption h)), writerOption_emits, Hopt.
  eff_simpl. rewrite Hwait. eff_simpl. rewrite Hupdate. eff_simpl.
  split; [exact Hret|].
  split; [trace_solver|].
  split; [trace_solver|].
  intros vars mutated Hv Ha. specialize (Hwrite vars mutated Hv Ha). trace_solver.
Qed.

Lemma updateStatData_falls_back_witness :
  outcome (updateStatData failingMvuHost touch (Ok ())) = Ok ()
  ∧ ConsoleWarn "Failed to update MVU data:" (HostError "MVU read failed")
      ∈ emitted (updateStatData failingMvuHost touch (Ok ()))
  ∧ CallGetVariables (OptMessage (MessageId 7))
      ∈ emitted (updateStatData failingMvuHost touch (Ok ()))
  ∧ CallReplaceVariables (VObj [("stat_data", VObj [("touched", VBool true)])])
      (OptMessage (MessageId 7))
      ∈ emitted (updateStatData failingMvuHost touch (Ok ())).
Proof.
  destruct (updateStatData_falls_back failingMvuHost touch (Ok ())
              {| getMvuData := Some (λ _, Raise (HostError "MVU read failed"));
                 replaceMvuData := λ _ _, Ok () |}
              (λ _, Raise (HostError "MVU read failed"))
              (λ _, Ok (VObj [("stat_data", VObj [])]))
              (λ _ _, Ok ())
              (OptMessage (MessageId 7)) (HostError "MVU read failed")
              eq_refl eq_refl eq_refl eq_refl eq_refl (or_introl eq_refl))
    as (Hreturns & Hlogged & Hread & Hwrite).
  split; [exact Hreturns|]. split; [exact Hlogged|]. split; [exact Hread|].
  exact (Hwrite (VObj [("stat_data", VObj [])]) (VObj [("touched", VBool true)])
           eq_refl eq_refl).
Defined.

(** A structured write that succeeds ends the call: the generic backend is
    not touched. *)
Lemma updateStatData_structured_success h apply mvu getData opt vars mutated :
  Mvu h = Some mvu → getMvuData mvu = Some getData →
  outcome (writerOption h) = Ok opt →
  getData opt = Ok vars →
  apply (statDataOf vars) = Ok mutated →
  replaceMvuData mvu (nextOf vars mutated) opt = Ok () →
  no_generic_attempt (updateStatData h apply (Ok ())).
Proof.
  intros Hmvu Hget Hopt Hread Happly Hwrite.
  destruct (waitForMvu_returns h) as [lw Hwait].
  assert (∀ ev, ev ∈ lw → match ev with
                          | CallGetVariables _ | CallReplaceVariables _ _ => False
                          | _ => True
                          end) as Hlw.
  { revert Hwait. unfold waitForMvu.
    destruct (waitGlobalInitialized h) as [wait|]; eff_simpl.
    - destruct (wait "Mvu") as [[]|e]; eff_simpl; intros [= <-] ev Hev;
        apply list_elem_of_In in Hev; simpl in Hev;
        destruct Hev as [<-|Hev]; try done; destruct Hev as [<-|[]]; done.
    - intros [= <-] ev Hev. by apply elem_of_nil in Hev. }
  unfold no_generic_attempt, updateStatData.
  rewrite <- (Eff_eta (writerOption h)), writerOption_emits, Hopt.
  eff_simpl. rewrite Hwait. eff_simpl.
  unfold updateMvu. rewrite Hmvu, Hget. eff_simpl. rewrite Hread. eff_simpl.
  rewrite updateWithVars_eq, Happly. eff_simpl. rewrite Hwrite. eff_simpl.
  intros ev Hev. apply elem_of_app in Hev as [Hev|Hev]; [by apply Hlw|].
  apply list_elem_of_In in Hev. simpl in Hev.
  repeat (destruct Hev as [<-|Hev]; [done|]). done.
Qed.

(** ** Variable store reader *)

Lemma readMvu_returns h depth : ∃ l found, readMvu h depth = mkEff l (Ok found).
Proof.
  unfold readMvu.
  match goal with |- ∃ l found, try_catch ?body _ = _ => destruct body as [l [found|e]] end.
  - rewrite try_catch_Ok. eauto.
  - rewrite try_catch_Raise. eff_simpl. eauto.
Qed.

Lemma readScopes_returns h depth getVars scopes :
  ∃ l root, readScopes h depth getVars scopes = mkEff l (Ok root).
Proof.
  induction scopes as [|scope rest (l & root & IH)]; simpl.
  - by exists [], VNull.
  - destruct (probeScope h depth getVars scope) as [lp [[found|]|e]]; eff_simpl; eauto.
    + rewrite IH. eff_simpl. eauto.
    + rewrite IH. eff_simpl. eauto.
Qed.

(** The reader returns normally whatever the backends do, as long as
    resolving the current message id does not throw. *)
Lemma readEchoChamberVariables_returns h depth :
  (∀ error, getCurrentMessageId h ≠ Some (Raise error)) →
  ∃ root, outcome (readEchoChamberVariables h depth) = Ok root.
Proof.
  intros Hid. unfold readEchoChamberVariables.
  destruct (readMvu_returns h depth) as (l & found & ->). eff_simpl.
  destruct found as [root|]; eff_simpl; [eauto|].
  destruct (getVariables h) as [getVars|]; eff_simpl; [|eauto].
  destruct (getCurrentMessageId h) as [[id|error]|] eqn:Hcur; eff_simpl.
  - destruct (readScopes_returns h depth getVars
                [OptMessage (MessageId id); OptChat; OptCharacter; OptGlobal])
      as (l' & root & ->). eff_simpl. eauto.
  - by destruct (Hid error).
  - destruct (readScopes_returns h depth getVars [OptChat; OptCharacter; OptGlobal])
      as (l' & root & ->). eff_simpl. eauto.
Qed.

(** When no scope yields a root, the scan of the scopes returns [null]. *)
Lemma readScopes_miss h depth getVars scopes :
  Forall (λ scope, ∀ root, outcome (probeScope h depth getVars scope) ≠ Ok (Some root)) scopes →
  outcome (readScopes h depth getVars scopes) = Ok VNull.
Proof.
  induction 1 as [|scope rest Hmiss _ IH]; simpl; [reflexivity|].
  destruct (readScopes_returns h depth getVars rest) as (l & root & Hrest).
  rewrite Hrest in IH. simpl in IH. injection IH as ->.
  destruct (probeScope h depth getVars scope) as [lp [[found|]|e]] eqn:Hprobe; eff_simpl.
  - by destruct (Hmiss found).
  - rewrite Hrest. by eff_simpl.
  - rewrite Hrest. by eff_simpl.
Qed.

(** On a [null] result [refreshData] leaves the canonical model as it was. *)
Lemma refreshData_null_keeps h depth data root :
  outcome (readEchoChamberVariables h depth) = Ok root → truthy root = false →
  outcome (refreshData h depth data) = Ok data.
Proof.
  intros Hread Hnull. unfold refreshData.
  destruct (readEchoChamberVariables h depth) as [l r]. simpl in Hread. subst r.
  eff_simpl. rewrite Hnull. by eff_simpl.
Qed.

(** C5 fails on the code: when [getVariables] exists and resolving the
    current message id throws, the call at line 391 stands outside every
    [try], so the reader throws instead of returning [null], and so does
    [refreshData]. *)
Theorem readEchoChamberVariables_message_id_raises
    (h : Host) (depth : nat) (getVars : VariableOption → Result value) (error : exn)
    (data : value) :
  getVariables h = Some getVars →
  getCurrentMessageId h = Some (Raise error) →
  outcome (readEchoChamberVariables h depth) = Raise error
  ∧ outcome (refreshData h depth data) = Raise error.
Proof.
  intros Hvars Hid.
  assert (outcome (readEchoChamberVariables h depth) = Raise error) as Hread.
  { unfold readEchoChamberVariables.
    destruct (readMvu_returns h depth) as (l & found & Hmvu).
    assert (found = None) as ->.
    { revert Hmvu. unfold readMvu. rewrite Hid.
      destruct (Mvu h) as [mvu|]; eff_simpl; by intros [= _ <-]. }
    rewrite Hmvu. eff_simpl. rewrite Hvars, Hid. by eff_simpl. }
  split; [exact Hread|].
  unfold refreshData.
  destruct (readEchoChamberVariables h depth) as [l r]. simpl in Hread. subst r.
  by eff_simpl.
Qed.

Lemma readEchoChamberVariables_message_id_raises_witness :
  outcome (readEchoChamberVariables unresolvedMessageHost 8)
  = Raise (HostError "no current message")
  ∧ outcome (refreshData unresolvedMessageHost 8 (VObj [("echo_chamber_feed", VObj [])]))
    = Raise (HostError "no current message").
Proof.
  apply (readEchoChamberVariables_message_id_raises unresolvedMessageHost 8
           (λ _, Ok (VObj [])) (HostError "no current message")).
  - reflexivity.
  - reflexivity.
Defined.

(** ** Conversation cache: import *)

Lemma get_prop_member v k : nullish v = false → get_prop v k = Ok (member v k).
Proof. by destruct v. Qed.

Lemma normalizeNpcMessage_returns message :
  nullish message = false → ∃ result, normalizeNpcMessage message = Ok result.
Proof.
  intros Hm. unfold normalizeNpcMessage.
  rewrite !(get_prop_member message) by done. simpl.
  match goal with |- context [if ?b then _ else _] => destruct b end; eauto.
Qed.

Lemma normalizeNpcMessage_invalid message :
  invalid_message message → normalizeNpcMessage message = Ok None.
Proof.
  intros [Hm Hempty]. unfold normalizeNpcMessage.
  rewrite !(get_prop_member message) by done. simpl.
  destruct Hempty as [-> | ->]; [reflexivity|].
  by rewrite orb_true_r.
Qed.

Lemma mapM_normalizeNpcMessage_invalid messages :
  Forall invalid_message messages →
  mapM normalizeNpcMessage messages = Ok (replicate (length messages) None).
Proof.
  induction 1 as [|m l Hm _ IH]; [reflexivity|].
  rewrite mapM_Result_cons, (normalizeNpcMessage_invalid m Hm), IH. reflexivity.
Qed.

Lemma omap_replicate_None {A} n : omap id (replicate n (@None A)) = [].
Proof. induction n as [|n IH]; [reflexivity | exact IH]. Qed.

(** A record with a non-empty key whose messages are all invalid is kept,
    with an empty message list. *)
Lemma normalizeNpcChatRecord_keeps_empty toNumber now o messages :
  trim (js_String (field "key" o ?? field "npc_key" o ?? VStr "")) ≠ "" →
  field "messages" o = VArr messages →
  Forall invalid_message messages →
  normalizeNpcChatRecord toNumber now (VObj o)
  = Ok (Some {| NpcChatRecord.key :=
                  trim (js_String (field "key" o ?? field "npc_key" o ?? VStr ""));
                NpcChatRecord.updated_at := toNumber (field "updated_at" o ?? VNum now);
                NpcChatRecord.messages := [] |}).
Proof.
  intros Hkey Hmessages Hinvalid. unfold normalizeNpcChatRecord. simpl.
  rewrite bool_decide_false by done. rewrite Hmessages.
  rewrite (mapM_normalizeNpcMessage_invalid messages Hinvalid). simpl.
  by rewrite omap_replicate_None.
Qed.

(** The partner identifier is accepted under [npc_key] when [key] is absent:
    the record's key is that string, trimmed. *)
Lemma normalizeNpcChatRecord_npc_key toNumber now o s :
  nullish (field "key" o) = true →
  field "npc_key" o = VStr s →
  trim s ≠ "" →
  Forall (λ m, nullish m = false)
    (match field "messages" o with VArr items => items | _ => [] end) →
  ∃ record,
    normalizeNpcChatRecord toNumber now (VObj o) = Ok (Some record)
    ∧ NpcChatRecord.key record = trim s.
Proof.
  intros Hkey Hnpc Htrim Hmessages. unfold normalizeNpcChatRecord. simpl.
  assert (field "key" o ?? field "npc_key" o ?? VStr "" = VStr s) as ->.
  { unfold coalesce. by rewrite Hkey, Hnpc. }
  simpl. rewrite bool_decide_false by done.
  destruct (mapM_Result_total normalizeNpcMessage
              (match field "messages" o with VArr items => items | _ => [] end))
    as [mapped Hmapped].
  { eapply Forall_impl; [exact Hmessages|]. intros m. apply normalizeNpcMessage_returns. }
  rewrite Hmapped. simpl. eauto.
Qed.

(** C10 fails on the code: a record with key ["@a"] whose only message is
    [null] is not kept with an empty message list; reading [sender_handle]
    of [null] throws, the handler's [catch] logs it, and the import writes
    nothing, the well-formed record ["@b"] of the same file included. *)
Theorem normalizeNpcChatRecord_null_message
    (toNumber : value → number) (now : Z)
    (db : option (gmap string NpcChatRecord.t)) (dmMessages : list DMMessage.t) :
  normalizeNpcChatRecord toNumber now (VObj [("key", VStr "@a"); ("messages", VArr [VNull])])
  = Raise (TypeError "Cannot read properties of null")
  ∧ JSON_parse jsonOnlyHost import_text
    = Ok (VArr [VObj [("key", VStr "@a"); ("messages", VArr [VNull])];
                VObj [("key", VStr "@b");
                      ("messages", VArr [VObj [("sender_handle", VStr "@b");
                                               ("content", VStr "hi")]])]])
  ∧ handleImportNpcChatsFile jsonOnlyHost toNumber now (Some import_text) "@b" db dmMessages
    = mkEff [ConsoleWarn "Failed to import NPC chats:"
               (TypeError "Cannot read properties of null")]
        (Ok (db, dmMessages)).
Proof.
  assert (JSON_parse jsonOnlyHost import_text
          = Ok (VArr [VObj [("key", VStr "@a"); ("messages", VArr [VNull])];
                      VObj [("key", VStr "@b");
                            ("messages", VArr [VObj [("sender_handle", VStr "@b");
                                                     ("content", VStr "hi")]])]])) as Hparse.
  { vm_compute. reflexivity. }
  split; [reflexivity|]. split; [exact Hparse|].
  unfold handleImportNpcChatsFile. rewrite Hparse. reflexivity.
Qed.

(** * Further properties *)

(** ** Coercion *)

Lemma parseYamlSource_returns h source :
  ∃ l document, parseYamlSource h source = mkEff l (Ok document)
                ∧ Forall (λ ev, is_console ev = true) l.
Proof.
  unfold parseYamlSource, parseRelaxedJson.
  destruct (yaml_parse h source) as [v|e1]; eff_simpl; [by eexists _, _|].
  destruct (JSON_parse h source) as [v|e2]; eff_simpl; [by eexists _, _|].
  destruct (JSON_parse h (relaxTrailingCommas source)) as [v|e3]; simpl; eff_simpl.
  - by eexists _, _.
  - eexists _, _. split; [reflexivity|]. by repeat constructor.
Qed.

Lemma coerceEchoChamberFeed_returns h input :
  ∃ l feed, coerceEchoChamberFeed h input = mkEff l (Ok feed)
            ∧ Forall (λ ev, is_console ev = true) l.
Proof.
  unfold coerceEchoChamberFeed.
  destruct (truthy input); simpl; [|by eexists _, _].
  destruct input as [| |b|n|s|items|fields]; try (by eexists _, _).
  - destruct (parseYamlSource_returns h s) as (l & parsed & -> & Hl). eff_simpl.
    destruct (isRootData parsed); [|destruct (isEchoChamberFeed parsed)];
      simpl; rewrite app_nil_r; by eexists _, _.
  - destruct (isEchoChamberFeed (VObj fields)); by eexists _, _.
Qed.

Lemma coerceRootData_console h depth input :
  Forall (λ ev, is_console ev = true) (emitted (coerceRootData h depth input)).
Proof.
  revert input. induction depth as [|depth IH]; intros input; simpl; [constructor|].
  destruct (truthy input); simpl; [|constructor].
  assert (∀ record,
    Forall (λ ev, is_console ev = true)
      (emitted
         (if isRootData record then
            feed ← coerceEchoChamberFeed h (member record "echo_chamber_feed");
            mret (VObj [("echo_chamber_feed", feed ?? member record "echo_chamber_feed");
                        ("user_profile_page", member record "user_profile_page");
                        ("direct_message_thread", member record "direct_message_thread")])
          else
            nested ← (if truthy (member record "echo_chamber")
                      then coerceRootData h depth (member record "echo_chamber")
                      else mret VNull);
            if truthy nested then mret nested
            else if isEchoChamberFeed record
                 then mret (VObj [("echo_chamber_feed", record)])
                 else mret VNull))) as Hobject.
  { intros record. destruct (isRootData record).
    - destruct (coerceEchoChamberFeed_returns h (member record "echo_chamber_feed"))
        as (l & feed & -> & Hl). eff_simpl. by rewrite app_nil_r.
    - destruct (truthy (member record "echo_chamber")); eff_simpl.
      + specialize (IH (member record "echo_chamber")).
        destruct (coerceRootData h depth (member record "echo_chamber")) as [l [nested|e]];
          eff_simpl; [|exact IH].
        simpl in IH.
        destruct (truthy nested); [by rewrite app_nil_r|].
        destruct (isEchoChamberFeed record); by rewrite app_nil_r.
      + destruct (isEchoChamberFeed record); constructor. }
  destruct input as [| |b|n|s|items|fields]; try constructor; try apply Hobject.
  destruct (parseYamlSource_returns h s) as (l & parsed & -> & Hl). eff_simpl.
  apply Forall_app. split; [exact Hl | apply IH].
Qed.

Lemma coerceRootData_shape h depth input root :
  outcome (coerceRootData h depth input) = Ok root →
  root = VNull ∨ isRootData root = true.
Proof.
  revert input root. induction depth as [|depth IH]; intros input root; simpl; [done|].
  destruct (truthy input); simpl; [|intros [= <-]; by left].
  assert (∀ record,
    outcome
      (if isRootData record then
         feed ← coerceEchoChamberFeed h (member record "echo_chamber_feed");
         mret (VObj [("echo_chamber_feed", feed ?? member record "echo_chamber_feed");
                     ("user_profile_page", member record "user_profile_page");
                     ("direct_message_thread", member record "direct_message_thread")])
       else
         nested ← (if truthy (member record "echo_chamber")
                   then coerceRootData h depth (member record "echo_chamber")
                   else mret VNull);
         if truthy nested then mret nested
         else if isEchoChamberFeed record
              then mret (VObj [("echo_chamber_feed", record)])
              else mret VNull) = Ok root →
    root = VNull ∨ isRootData root = true) as Hobject.
  { intros record. destruct (isRootData record).
    - destruct (coerceEchoChamberFeed_returns h (member record "echo_chamber_feed"))
        as (l & feed & -> & Hl). eff_simpl. intros [= <-]. by right.
    - destruct (truthy (member record "echo_chamber")); eff_simpl.
      + specialize (IH (member record "echo_chamber")).
        destruct (coerceRootData h depth (member record "echo_chamber")) as [l [nested|e]];
          eff_simpl; [|done].
        destruct (truthy nested) eqn:Hnested; simpl.
        * intros [= <-]. destruct (IH nested eq_refl) as [->|Hroot]; [done | by right].
        * destruct (isEchoChamberFeed record); intros [= <-]; [by right | by left].
      + destruct (isEchoChamberFeed record); intros [= <-]; [by right | by left]. }
  destruct input as [| |b|n|s|items|fields]; try (intros [= <-]; by left); try apply Hobject.
  destruct (parseYamlSource_returns h s) as (l & parsed & -> & Hl). eff_simpl.
  apply IH.
Qed.

(** ** Reader: shape of the result and order of the scopes *)

Lemma probeScope_spec h depth getVars scope :
  ∃ l, emitted (probeScope h depth getVars scope) = CallGetVariables scope :: l
       ∧ Forall (λ ev, is_console ev = true) l
       ∧ ∀ root, outcome (probeScope h depth getVars scope) = Ok (Some root) →
                 isRootData root = true.
Proof.
  unfold probeScope. eff_simpl.
  destruct (getVars scope) as [vars|e]; eff_simpl;
    [|exists []; split; [done|]; split; [constructor | done]].
  set (statData := lodash_get vars "stat_data").
  pose proof (coerceRootData_console h depth (lodash_get statData "echo_chamber" ?? statData))
    as Hc1.
  pose proof (coerceRootData_shape h depth (lodash_get statData "echo_chamber" ?? statData))
    as Hs1.
  destruct (coerceRootData h depth (lodash_get statData "echo_chamber" ?? statData))
    as [l1 [statRoot|e1]]; simpl in Hc1, Hs1; eff_simpl;
    [|eexists; split; [reflexivity|]; split; [exact Hc1 | done]].
  destruct (truthy statRoot) eqn:Ht1; simpl.
  { eexists. split; [reflexivity|]. split; [by rewrite app_nil_r|].
    intros root [= <-]. destruct (Hs1 statRoot eq_refl) as [->|Hroot]; done. }
  destruct (coerceEchoChamberFeed_returns h (lodash_get statData "echo_chamber_feed"))
    as (l2 & statFeed & -> & Hc2). eff_simpl.
  destruct (truthy statFeed) eqn:Ht2; simpl.
  { eexists. split; [reflexivity|]. split.
    - rewrite ?app_nil_r, ?Forall_app. by repeat split.
    - by intros root [= <-]. }
  pose proof (coerceRootData_console h depth vars) as Hc3.
  pose proof (coerceRootData_shape h depth vars) as Hs3.
  destruct (coerceRootData h depth vars) as [l3 [direct|e3]]; simpl in Hc3, Hs3; eff_simpl;
    [|eexists; split; [reflexivity|]; split; [by rewrite ?Forall_app | done]].
  destruct (truthy direct) eqn:Ht3; simpl.
  { eexists. split; [reflexivity|]. split.
    - rewrite ?app_nil_r, ?Forall_app. by repeat split.
    - intros root [= <-]. destruct (Hs3 direct eq_refl) as [->|Hroot]; done. }
  pose proof (coerceRootData_console h depth (lodash_get vars "echo_chamber")) as Hc4.
  pose proof (coerceRootData_shape h depth (lodash_get vars "echo_chamber")) as Hs4.
  destruct (coerceRootData h depth (lodash_get vars "echo_chamber")) as [l4 [nested|e4]];
    simpl in Hc4, Hs4; eff_simpl;
    [|eexists; split; [reflexivity|]; split; [by rewrite ?Forall_app | done]].
  destruct (truthy nested) eqn:Ht4; simpl.
  { eexists. split; [reflexivity|]. split.
    - rewrite ?app_nil_r, ?Forall_app. by repeat split.
    - intros root [= <-]. destruct (Hs4 nested eq_refl) as [->|Hroot]; done. }
  destruct (coerceEchoChamberFeed_returns h (lodash_get vars "echo_chamber_feed"))
    as (l5 & feedOnly & -> & Hc5). eff_simpl.
  destruct (truthy feedOnly) eqn:Ht5; simpl.
  - eexists. split; [reflexivity|]. split.
    + rewrite ?app_nil_r, ?Forall_app. by repeat split.
    + by intros root [= <-].
  - eexists. split; [reflexivity|]. split.
    + rewrite ?app_nil_r, ?Forall_app. by repeat split.
    + done.
Qed.

Lemma console_reads_only l :
  Forall (λ ev, is_console ev = true) l → Forall (λ ev, reads_only ev = true) l.
Proof. intros Hl. eapply Forall_impl; [exact Hl|]. by intros []. Qed.

Lemma readMvu_spec h depth :
  ∃ l found, readMvu h depth = mkEff l (Ok found)
             ∧ Forall (λ ev, reads_only ev = true) l
             ∧ ∀ root, found = Some root → isRootData root = true.
Proof.
  unfold readMvu.
  destruct (Mvu h) as [mvu|]; [|by exists [], None].
  destruct (getCurrentMessageId h) as [[id|e]|]; eff_simpl;
    [| eexists _, _; split; [reflexivity|]; split; [by repeat constructor | done]
     | by exists [], None].
  destruct (getMvuData mvu) as [getData|]; eff_simpl;
    [| eexists _, _; split; [reflexivity|]; split; [by repeat constructor | done]].
  destruct (getData (OptMessage (MessageId id))) as [variables|e]; eff_simpl;
    [| eexists _, _; split; [reflexivity|]; split; [by repeat constructor | done]].
  set (statData := lodash_get variables "stat_data").
  pose proof (coerceRootData_console h depth (lodash_get statData "echo_chamber" ?? statData))
    as Hc.
  pose proof (coerceRootData_shape h depth (lodash_get statData "echo_chamber" ?? statData))
    as Hs.
  apply console_reads_only in Hc.
  destruct (coerceRootData h depth (lodash_get statData "echo_chamber" ?? statData))
    as [l [fromStat|e]]; simpl in Hc, Hs; eff_simpl.
  - destruct (truthy fromStat) eqn:Ht; simpl; rewrite app_nil_r.
    + eexists _, _. split; [reflexivity|]. split; [by constructor|].
      intros root [= <-]. destruct (Hs fromStat eq_refl) as [->|Hroot]; done.
    + eexists _, _. split; [reflexivity|]. split; [by constructor | done].
  - eexists _, _. split; [reflexivity|]. split; [|done].
    constructor; [done|]. rewrite Forall_app. split; [done | by repeat constructor].
Qed.

Lemma readScopes_spec h depth getVars scopes :
  ∃ l root, readScopes h depth getVars scopes = mkEff l (Ok root)
            ∧ Forall (λ ev, reads_only ev = true) l
            ∧ (root = VNull ∨ isRootData root = true).
Proof.
  induction scopes as [|scope rest (l & root & IH & Hl & Hroot)]; simpl.
  - exists [], VNull. split; [reflexivity|]. split; [constructor | by left].
  - destruct (probeScope_spec h depth getVars scope) as (lp & Hemit & Hlp & Hshape).
    apply console_reads_only in Hlp.
    destruct (probeScope h depth getVars scope) as [lp' [[found|]|e]];
      simpl in Hemit, Hshape; subst lp'; eff_simpl.
    + eexists _, _. split; [reflexivity|]. split.
      * rewrite app_nil_r. by constructor.
      * right. by apply Hshape.
    + rewrite IH. eff_simpl. eexists _, _. split; [reflexivity|]. split; [|done].
      constructor; [done|]. by rewrite Forall_app.
    + rewrite IH. eff_simpl. eexists _, _. split; [reflexivity|]. split; [|done].
      constructor; [done|]. rewrite !Forall_app. repeat split; try done.
      by repeat constructor.
Qed.

Lemma readEchoChamberVariables_spec h depth :
  Forall (λ ev, reads_only ev = true) (emitted (readEchoChamberVariables h depth))
  ∧ ∀ root, outcome (readEchoChamberVariables h depth) = Ok root →
            root = VNull ∨ isRootData root = true.
Proof.
  unfold readEchoChamberVariables.
  destruct (readMvu_spec h depth) as (l & found & -> & Hl & Hfound). eff_simpl.
  destruct found as [root|]; eff_simpl.
  { rewrite app_nil_r. split; [done|]. intros ? [= <-]. right. by apply Hfound. }
  destruct (getVariables h) as [getVars|]; eff_simpl;
    [|rewrite app_nil_r; split; [done|]; intros ? [= <-]; by left].
  destruct (getCurrentMessageId h) as [[id|error]|]; eff_simpl.
  - destruct (readScopes_spec h depth getVars
                [OptMessage (MessageId id); OptChat; OptCharacter; OptGlobal])
      as (l' & root & -> & Hl' & Hroot). eff_simpl.
    split; [by rewrite Forall_app|]. by intros ? [= <-].
  - rewrite app_nil_r. by split.
  - destruct (readScopes_spec h depth getVars [OptChat; OptCharacter; OptGlobal])
      as (l' & root & -> & Hl' & Hroot). eff_simpl.
    split; [by rewrite Forall_app|]. by intros ? [= <-].
Qed.

(** X1: [coerceRootData] only logs, never calls a backend; what it returns is
    [null] or an object that [isRootData] accepts; and on an object that
    [isRootData] accepts it returns, at any depth of at least one call, the
    object of the three sections, the page and the thread as they were. *)
Theorem coerceRootData_returns_root (h : Host) (depth : nat) (input : value) :
  Forall (λ ev, is_console ev = true) (emitted (coerceRootData h depth input))
  ∧ (∀ root, outcome (coerceRootData h depth input) = Ok root →
             root = VNull ∨ isRootData root = true)
  ∧ (isRootData input = true →
     ∃ feed, outcome (coerceRootData h (S depth) input)
             = Ok (VObj [("echo_chamber_feed", feed);
                         ("user_profile_page", member input "user_profile_page");
                         ("direct_message_thread", member input "direct_message_thread")])).
Proof.
  split; [apply coerceRootData_console|].
  split; [intros root; apply coerceRootData_shape|].
  intros Hroot.
  destruct input as [| |b|n|s|items|fields];
    try (unfold isRootData in Hroot; simpl in Hroot; rewrite ?orb_true_r in Hroot; done).
  cbn [coerceRootData truthy negb]. rewrite Hroot.
  destruct (coerceEchoChamberFeed_returns h (member (VObj fields) "echo_chamber_feed"))
    as (l & feed & -> & _).
  eff_simpl. eauto.
Qed.

(** X3: as long as resolving the current message id does not throw, the
    reader returns, whatever the backends hold or throw, and what it returns
    is [null] or an object that [isRootData] accepts. *)
Theorem readEchoChamberVariables_root_or_null (h : Host) (depth : nat) :
  (∀ error, getCurrentMessageId h ≠ Some (Raise error)) →
  ∃ root, outcome (readEchoChamberVariables h depth) = Ok root
          ∧ (root = VNull ∨ isRootData root = true).
Proof.
  intros Hid.
  destruct (readEchoChamberVariables_returns h depth Hid) as [root Hroot].
  exists root. split; [exact Hroot|].
  by apply (readEchoChamberVariables_spec h depth).
Qed.

Lemma readEchoChamberVariables_root_or_null_witness :
  ∃ root, outcome (readEchoChamberVariables failingMvuHost 8) = Ok root
          ∧ (root = VNull ∨ isRootData root = true).
Proof.
  apply (readEchoChamberVariables_root_or_null failingMvuHost 8).
  intros error H. discriminate H.
Defined.

(** X4: the scopes are tried in order and the first that yields a root wins:
    when the scopes before [scope] yield nothing (or throw) and [scope]
    yields [root], the scan returns [root] and never reads a later scope. *)
Theorem readScopes_first_hit
    (h : Host) (depth : nat) (getVars : VariableOption → Result value)
    (before : list VariableOption) (scope : VariableOption)
    (after : list VariableOption) (root : value) :
  Forall (λ s, ∀ r, outcome (probeScope h depth getVars s) ≠ Ok (Some r)) before →
  outcome (probeScope h depth getVars scope) = Ok (Some root) →
  outcome (readScopes h depth getVars (before ++ scope :: after)) = Ok root
  ∧ ∀ s, CallGetVariables s ∈ emitted (readScopes h depth getVars (before ++ scope :: after)) →
         s ∈ before ++ [scope].
Proof.
  intros Hbefore Hhit. induction Hbefore as [|first before Hmiss _ [IHo IHe]]; simpl.
  - destruct (probeScope_spec h depth getVars scope) as (lp & Hemit & Hlp & _).
    destruct (probeScope h depth getVars scope) as [lp' r]. simpl in Hhit, Hemit. subst.
    eff_simpl. split; [done|]. intros s Hs. rewrite app_nil_r in Hs.
    apply elem_of_cons in Hs as [[= ->]|Hs]; [by apply list_elem_of_singleton|].
    rewrite Forall_forall in Hlp. by apply Hlp in Hs.
  - destruct (probeScope_spec h depth getVars first) as (lp & Hemit & Hlp & _).
    rewrite Forall_forall in Hlp.
    destruct (readScopes h depth getVars (before ++ scope :: after)) as [lr rr].
    simpl in IHo, IHe. subst rr.
    destruct (probeScope h depth getVars first) as [lp' [[found|]|e]]; simpl in Hemit, Hmiss;
      subst lp'; eff_simpl.
    + by destruct (Hmiss found).
    + split; [done|]. intros s Hs.
      apply elem_of_cons in Hs as [[= ->]|Hs]; [by left|]. right.
      apply elem_of_app in Hs as [Hs|Hs]; [by apply Hlp in Hs | by apply IHe].
    + split; [done|]. intros s Hs.
      apply elem_of_cons in Hs as [[= ->]|Hs]; [by left|]. right.
      apply elem_of_app in Hs as [Hs|Hs]; [|by apply IHe].
      apply elem_of_app in Hs as [Hs|Hs]; [by apply Hlp in Hs|].
      by apply list_elem_of_singleton in Hs.
Qed.

Lemma readScopes_first_hit_witness :
  outcome (readScopes jsonOnlyHost 8 chatScopeVariables
             ([OptMessage (MessageId 7)] ++ OptChat :: [OptCharacter; OptGlobal]))
  = Ok (VObj [("echo_chamber_feed", VObj [("posts", VArr [])]);
              ("user_profile_page", VUndefined);
              ("direct_message_thread", VUndefined)])
  ∧ ∀ s, CallGetVariables s
           ∈ emitted (readScopes jsonOnlyHost 8 chatScopeVariables
                        ([OptMessage (MessageId 7)] ++ OptChat :: [OptCharacter; OptGlobal])) →
         s ∈ [OptMessage (MessageId 7)] ++ [OptChat].
Proof.
  apply (readScopes_first_hit jsonOnlyHost 8 chatScopeVariables [OptMessage (MessageId 7)]
           OptChat [OptCharacter; OptGlobal]).
  - constructor; [|constructor]. intros r H. vm_compute in H. discriminate H.
  - reflexivity.
Defined.

(** ** Macro resolver and refresh *)

Lemma value_nested_ind (P : value → Prop) :
  P VUndefined → P VNull → (∀ b, P (VBool b)) → (∀ n, P (VNum n)) → (∀ s, P (VStr s)) →
  (∀ items, Forall P items → P (VArr items)) →
  (∀ fields, Forall (λ entry, P entry.2) fields → P (VObj fields)) →
  ∀ v, P v.
Proof.
  intros Hu Hn Hb Hz Hs Ha Ho. fix IH 1.
  intros [| |b|n|s|items|fields];
    [exact Hu | exact Hn | apply Hb | apply Hz | apply Hs | |].
  - apply Ha. induction items as [|x items IHitems]; constructor; [apply IH | exact IHitems].
  - apply Ho. induction fields as [|[k x] fields IHfields]; constructor;
      [apply IH | exact IHfields].
Qed.

Lemma mapM_Eff_cons {A B} (f : A → Eff B) x l :
  mapM f (x :: l) = (y ← f x; k ← mapM f l; mret (y :: k)).
Proof. reflexivity. Qed.

Lemma mapM_Eff_spec {A B} (f : A → Eff B) (g : A → B) (items : list A) :
  Forall (λ x, ∃ l, f x = mkEff l (Ok (g x)) ∧ Forall (λ ev, is_console ev = true) l) items →
  ∃ l, mapM f items = mkEff l (Ok (map g items)) ∧ Forall (λ ev, is_console ev = true) l.
Proof.
  induction 1 as [|x items (lx & Hx & Hlx) _ (l & IH & Hl)].
  - by exists [].
  - rewrite mapM_Eff_cons, Hx, IH. eff_simpl.
    eexists. split; [reflexivity|]. rewrite app_nil_r. by apply Forall_app.
Qed.

Lemma resolveMacroString_spec h s :
  ∃ l, resolveMacroString h s = mkEff l (Ok (resolvedString h s))
       ∧ Forall (λ ev, is_console ev = true) l.
Proof.
  unfold resolveMacroString, resolvedString.
  destruct (substitudeMacros h) as [substitude|]; [|by exists []].
  destruct (substitude s) as [s'|e]; eff_simpl.
  - by exists [].
  - eexists. split; [reflexivity|]. by repeat constructor.
Qed.

Lemma resolveMacrosDeep_spec h input :
  ∃ l, resolveMacrosDeep h input = mkEff l (Ok (mapStrings (resolvedString h) input))
       ∧ Forall (λ ev, is_console ev = true) l.
Proof.
  induction input as [| |b|n|s|items IH|fields IH] using value_nested_ind;
    try (by exists []).
  - simpl. destruct (resolveMacroString_spec h s) as (l & -> & Hl). by exists l.
  - simpl. destruct (mapM_Eff_spec (resolveMacrosDeep h) (mapStrings (resolvedString h))
                       items IH) as (l & -> & Hl).
    by exists l.
  - simpl.
    destruct (mapM_Eff_spec
                (λ entry : string * value,
                   item ← resolveMacrosDeep h entry.2; mret (entry.1, item))
                (λ entry, (entry.1, mapStrings (resolvedString h) entry.2))
                fields) as (l & -> & Hl).
    { eapply Forall_impl; [exact IH|]. intros [k x] (l & Hx & Hl). simpl in *.
      rewrite Hx. eff_simpl. exists l. by rewrite app_nil_r. }
    by exists l.
Qed.

Lemma mapStrings_fixed g v : (∀ s, g s = s) → mapStrings g v = v.
Proof.
  intros Hg.
  induction v as [| |b|n|s|items IH|fields IH] using value_nested_ind; try reflexivity.
  - simpl. by rewrite Hg.
  - simpl. f_equal. induction IH as [|x l Hx _ IHl]; [done|]. simpl. by rewrite Hx, IHl.
  - simpl. f_equal. induction IH as [|[k x] l Hx _ IHl]; [done|].
    simpl in *. by rewrite Hx, IHl.
Qed.

(** X5: [resolveMacrosDeep] never throws and keeps the shape of the
    document: the result has the same keys in the same order and the same
    array lengths, every string leaf is replaced by what [substitudeMacros]
    makes of it (or kept, when the function is missing or throws on it), and
    every other leaf is kept; failures are only logged.  In particular, when
    no string is changed the document is returned as it is. *)
Theorem resolveMacrosDeep_maps_strings (h : Host) (input : value) :
  (∃ l, resolveMacrosDeep h input = mkEff l (Ok (mapStrings (resolvedString h) input))
        ∧ Forall (λ ev, is_console ev = true) l)
  ∧ ((∀ s, resolvedString h s = s) → outcome (resolveMacrosDeep h input) = Ok input).
Proof.
  destruct (resolveMacrosDeep_spec h input) as (l & Heq & Hl).
  split; [by exists l|].
  intros Hfixed. rewrite Heq. simpl. f_equal. by apply mapStrings_fixed.
Qed.

Lemma has_field_map_values k (f : value → value) o :
  has_field k (map (λ entry, (entry.1, f entry.2)) o) = has_field k o.
Proof.
  induction o as [|[k' v] o IH]; simpl; [done|].
  destruct (decide (k' = k)); [done | exact IH].
Qed.

Lemma isRootData_mapStrings g v : isRootData (mapStrings g v) = isRootData v.
Proof.
  destruct v as [| |b|n|s|items|fields]; try reflexivity.
  - unfold isRootData. simpl. by rewrite !orb_true_r.
  - unfold isRootData. simpl. by rewrite !has_field_map_values.
Qed.

Lemma has_field_set_field_eq k v o : has_field k (set_field k v o) = true.
Proof.
  induction o as [|[k' v'] o IH]; simpl.
  - by rewrite decide_True.
  - destruct (decide (k' = k)) as [->|Hne]; simpl.
    + by rewrite decide_True.
    + by rewrite decide_False.
Qed.

Lemma isRootData_object v : isRootData v = true → ∃ o, v = VObj o.
Proof.
  destruct v as [| |b|n|s|items|fields]; try done; eauto;
    unfold isRootData; simpl; rewrite ?orb_true_r; done.
Qed.

(** X6: [refreshData] only reads and logs: it calls no write, no mutator and
    no refresh.  When it returns, the canonical model is the one it had, or
    an object that [isRootData] accepts whose feed, when it has one, is
    already normalised. *)
Theorem refreshData_reads_only (h : Host) (depth : nat) (data : value) :
  Forall (λ ev, reads_only ev = true) (emitted (refreshData h depth data))
  ∧ ∀ next, outcome (refreshData h depth data) = Ok next →
      next = data
      ∨ (isRootData next = true
         ∧ (truthy (member next "echo_chamber_feed") = true →
            normalizeEchoChamberFeed (member next "echo_chamber_feed")
            = Ok (member next "echo_chamber_feed"))).
Proof.
  unfold refreshData.
  destruct (readEchoChamberVariables_spec h depth) as [Hl Hshape].
  destruct (readEchoChamberVariables h depth) as [l [root|e]]; simpl in Hl, Hshape; eff_simpl;
    [|by split].
  destruct (truthy root) eqn:Htruthy; simpl; eff_simpl.
  2:{ rewrite app_nil_r. split; [done|]. intros next [= <-]. by left. }
  destruct (Hshape root eq_refl) as [->|Hroot]; [done|].
  destruct (resolveMacrosDeep_spec h root) as (lm & -> & Hlm). eff_simpl.
  apply console_reads_only in Hlm.
  rewrite <- (isRootData_mapStrings (resolvedString h)) in Hroot.
  set (next := mapStrings (resolvedString h) root) in *.
  destruct (isRootData_object next Hroot) as [o Ho].
  destruct (truthy (member next "echo_chamber_feed")) eqn:Hfeed; eff_simpl.
  - destruct (normalizeEchoChamberFeed (member next "echo_chamber_feed"))
      as [normalized|e] eqn:Hnormalized; eff_simpl.
    + split; [by rewrite app_nil_r, Forall_app|].
      intros ? [= <-]. right. rewrite Ho. simpl. split.
      * unfold isRootData. simpl. by rewrite has_field_set_field_eq.
      * intros _. rewrite field_set_field_eq.
        exact (normalizeEchoChamberFeed_fixed _ _ Hnormalized).
    + split; [by rewrite app_nil_r, Forall_app | done].
  - split; [by rewrite app_nil_r, Forall_app|].
    intros ? [= <-]. right. split; [done|]. by rewrite Hfeed.
Qed.

(** ** Writer: what is written, and when the view is refreshed *)

Lemma updateMvu_returns h apply refresh opt :
  ∃ written, outcome (updateMvu h apply refresh opt) = Ok written.
Proof.
  unfold updateMvu.
  match goal with |- ∃ w, outcome (try_catch ?body _) = _ => destruct body as [l [w|e]] end;
    eauto.
Qed.

Lemma updateStatData_trace h apply refresh opt :
  outcome (writerOption h) = Ok opt →
  ∃ written,
    outcome (updateMvu h apply refresh opt) = Ok written
    ∧ emitted (updateStatData h apply refresh)
      = emitted (waitForMvu h) ++ emitted (updateMvu h apply refresh opt)
        ++ (if written : bool then [] else emitted (updateGeneric h apply refresh opt))
    ∧ outcome (updateStatData h apply refresh) = Ok ().
Proof.
  intros Hopt. unfold updateStatData.
  rewrite <- (Eff_eta (writerOption h)), writerOption_emits, Hopt. eff_simpl.
  destruct (waitForMvu_returns h) as [lw ->]. eff_simpl.
  destruct (updateMvu_returns h apply refresh opt) as [written Hwritten].
  exists written. split; [exact Hwritten|].
  destruct (updateMvu h apply refresh opt) as [lm rm]. simpl in Hwritten. subst rm.
  eff_simpl. destruct written; simpl.
  - by rewrite !app_nil_r.
  - split; [done|]. apply updateGeneric_returns.
Qed.

Lemma waitForMvu_trace h ev :
  ev ∈ emitted (waitForMvu h) →
  ev = CallWaitGlobalInitialized "Mvu" ∨ ∃ e, ev = ConsoleWarn "Failed waiting for MVU:" e.
Proof.
  unfold waitForMvu.
  destruct (waitGlobalInitialized h) as [wait|]; eff_simpl; [|by intros ?%elem_of_nil].
  destruct (wait "Mvu") as [[]|e]; eff_simpl; intros Hev;
    apply list_elem_of_In in Hev; simpl in Hev; intuition (subst; eauto).
Qed.

Lemma updateMvu_refresh h apply refresh opt :
  CallRefresh ∈ emitted (updateMvu h apply refresh opt) →
  ∃ mvu next,
    Mvu h = Some mvu ∧ replaceMvuData mvu next opt = Ok ()
    ∧ CallReplaceMvuData next opt ∈ emitted (updateMvu h apply refresh opt).
Proof.
  unfold updateMvu.
  destruct (Mvu h) as [mvu|]; eff_simpl; [|by intros ?%elem_of_nil].
  destruct (getMvuData mvu) as [getData|]; eff_simpl; [|by intros ?%elem_of_nil].
  destruct (getData opt) as [vars|e]; eff_simpl; [|intros Hev; trace_solver].
  rewrite updateWithVars_eq.
  destruct (apply (statDataOf vars)) as [mutated|e]; eff_simpl; [|intros Hev; trace_solver].
  destruct (replaceMvuData mvu (nextOf vars mutated) opt) as [[]|e] eqn:Hwrite; eff_simpl;
    [|intros Hev; trace_solver].
  intros _. exists mvu, (nextOf vars mutated). split; [done|]. split; [done|].
  destruct refresh as [[]|e]; eff_simpl; trace_solver.
Qed.

Lemma updateGeneric_refresh h apply refresh opt :
  CallRefresh ∈ emitted (updateGeneric h apply refresh opt) →
  ∃ replaceVars next,
    replaceVariables h = Some replaceVars ∧ replaceVars next opt = Ok ()
    ∧ CallReplaceVariables next opt ∈ emitted (updateGeneric h apply refresh opt).
Proof.
  unfold updateGeneric.
  destruct (getVariables h) as [getVars|]; eff_simpl; [|by intros ?%elem_of_nil].
  destruct (replaceVariables h) as [replaceVars|]; eff_simpl; [|by intros ?%elem_of_nil].
  destruct (getVars opt) as [vars|e]; eff_simpl; [|intros Hev; trace_solver].
  rewrite updateWithVars_eq.
  destruct (apply (statDataOf vars)) as [mutated|e]; eff_simpl; [|intros Hev; trace_solver].
  destruct (replaceVars (nextOf vars mutated) opt) as [[]|e] eqn:Hwrite; eff_simpl;
    [|intros Hev; trace_solver].
  intros _. exists replaceVars, (nextOf vars mutated). split; [done|]. split; [done|].
  destruct refresh as [[]|e]; eff_simpl; trace_solver.
Qed.

(** X7: once the scope is determined, [updateStatData] never rejects,
    whatever the backends, the mutator and [refresh] throw; and it calls
    [refresh] only after a write that returned normally. *)
Theorem updateStatData_refreshes_after_write
    (h : Host) (apply : value → Result value) (refresh : Result unit)
    (opt : VariableOption) :
  outcome (writerOption h) = Ok opt →
  outcome (updateStatData h apply refresh) = Ok ()
  ∧ (CallRefresh ∈ emitted (updateStatData h apply refresh) →
     wrote h (emitted (updateStatData h apply refresh))).
Proof.
  intros Hopt.
  destruct (updateStatData_trace h apply refresh opt Hopt) as (written & Hw & -> & Hret).
  split; [exact Hret|]. intros Hev.
  apply elem_of_app in Hev as [Hev|Hev].
  { apply waitForMvu_trace in Hev as [Hev|[e Hev]]; discriminate Hev. }
  apply elem_of_app in Hev as [Hev|Hev].
  - destruct (updateMvu_refresh h apply refresh opt Hev) as (mvu & next & Hmvu & Hok & Hin).
    left. exists mvu, next, opt. split; [done|]. split; [done|].
    rewrite !elem_of_app. auto.
  - destruct written; [by apply elem_of_nil in Hev|].
    destruct (updateGeneric_refresh h apply refresh opt Hev) as (rv & next & Hrv & Hok & Hin).
    right. exists rv, next, opt. split; [done|]. split; [done|].
    rewrite !elem_of_app. auto.
Qed.

Lemma updateStatData_refreshes_after_write_witness :
  outcome (updateStatData workingMvuHost touch (Ok ())) = Ok ()
  ∧ (CallRefresh ∈ emitted (updateStatData workingMvuHost touch (Ok ())) →
     wrote workingMvuHost (emitted (updateStatData workingMvuHost touch (Ok ())))).
Proof.
  apply (updateStatData_refreshes_after_write workingMvuHost touch (Ok ())
           (OptMessage (MessageId 7))).
  reflexivity.
Defined.

Lemma nextOf_frame o mutated :
  member (nextOf (VObj o) mutated) "stat_data" = mutated
  ∧ ∀ k, k ≠ "stat_data" → member (nextOf (VObj o) mutated) k = member (VObj o) k.
Proof.
  unfold nextOf. simpl. split; [apply field_set_field_eq|].
  intros k Hk. by apply field_set_field_ne.
Qed.

(** X8: a structured write that succeeds is the whole call: after the wait
    the trace is the read of the message scope, the mutator on the stored
    [stat_data], the write of the document and one refresh; the generic
    backend is not touched; and the document written has the mutated
    [stat_data] and every other variable of the scope as it was read. *)
Theorem updateStatData_structured_write
    (h : Host) (apply : value → Result value) (mvu : MvuApi)
    (getData : VariableOption → Result value) (opt : VariableOption)
    (o : list (string * value)) (mutated : value) :
  Mvu h = Some mvu → getMvuData mvu = Some getData →
  outcome (writerOption h) = Ok opt →
  getData opt = Ok (VObj o) →
  apply (statDataOf (VObj o)) = Ok mutated →
  replaceMvuData mvu (nextOf (VObj o) mutated) opt = Ok () →
  updateStatData h apply (Ok ())
  = mkEff (emitted (waitForMvu h)
           ++ [CallGetMvuData opt; CallApply (statDataOf (VObj o));
               CallReplaceMvuData (nextOf (VObj o) mutated) opt; CallRefresh])
      (Ok ())
  ∧ no_generic_attempt (updateStatData h apply (Ok ()))
  ∧ member (nextOf (VObj o) mutated) "stat_data" = mutated
  ∧ ∀ k, k ≠ "stat_data" → member (nextOf (VObj o) mutated) k = field k o.
Proof.
  intros Hmvu Hget Hopt Hread Happly Hwrite.
  split; [|split; [|apply nextOf_frame]].
  - unfold updateStatData.
    rewrite <- (Eff_eta (writerOption h)), writerOption_emits, Hopt. eff_simpl.
    destruct (waitForMvu_returns h) as [lw ->]. eff_simpl.
    unfold updateMvu. rewrite Hmvu, Hget. eff_simpl. rewrite Hread. eff_simpl.
    rewrite updateWithVars_eq, Happly. eff_simpl. rewrite Hwrite. by eff_simpl.
  - exact (updateStatData_structured_success h apply mvu getData opt (VObj o) mutated
             Hmvu Hget Hopt Hread Happly Hwrite).
Qed.

Lemma updateStatData_structured_write_witness :
  updateStatData workingMvuHost touch (Ok ())
  = mkEff (emitted (waitForMvu workingMvuHost)
           ++ [CallGetMvuData (OptMessage (MessageId 7));
               CallApply (statDataOf (VObj [("stat_data", VObj [])]));
               CallReplaceMvuData
                 (nextOf (VObj [("stat_data", VObj [])]) (VObj [("touched", VBool true)]))
                 (OptMessage (MessageId 7));
               CallRefresh])
      (Ok ())
  ∧ no_generic_attempt (updateStatData workingMvuHost touch (Ok ()))
  ∧ member (nextOf (VObj [("stat_data", VObj [])]) (VObj [("touched", VBool true)])) "stat_data"
    = VObj [("touched", VBool true)]
  ∧ ∀ k, k ≠ "stat_data" →
         member (nextOf (VObj [("stat_data", VObj [])]) (VObj [("touched", VBool true)])) k
         = field k [("stat_data", VObj [])].
Proof.
  apply (updateStatData_structured_write workingMvuHost touch
           {| getMvuData := Some (λ _, Ok (VObj [("stat_data", VObj [])]));
              replaceMvuData := λ _ _, Ok () |}
           (λ _, Ok (VObj [("stat_data", VObj [])]))
           (OptMessage (MessageId 7)) [("stat_data", VObj [])] (VObj [("touched", VBool true)]));
    reflexivity.
Defined.

(** X9: when the structured write succeeds and [refresh] then throws, the
    failure is taken for a failed update: it is logged and the call goes on
    to the generic backend, where the mutator runs and the document is
    written a second time. *)
Theorem updateStatData_refresh_failure_repeats
    (h : Host) (apply : value → Result value) (error : exn) (mvu : MvuApi)
    (getData getVars : VariableOption → Result value)
    (replaceVars : value → VariableOption → Result unit)
    (opt : VariableOption) (o o' : list (string * value)) (mutated mutated' : value) :
  Mvu h = Some mvu → getMvuData mvu = Some getData →
  getVariables h = Some getVars → replaceVariables h = Some replaceVars →
  outcome (writerOption h) = Ok opt →
  getData opt = Ok (VObj o) →
  apply (statDataOf (VObj o)) = Ok mutated →
  replaceMvuData mvu (nextOf (VObj o) mutated) opt = Ok () →
  getVars opt = Ok (VObj o') →
  apply (statDataOf (VObj o')) = Ok mutated' →
  replaceVars (nextOf (VObj o') mutated') opt = Ok () →
  updateStatData h apply (Raise error)
  = mkEff (emitted (waitForMvu h)
           ++ [CallGetMvuData opt; CallApply (statDataOf (VObj o));
               CallReplaceMvuData (nextOf (VObj o) mutated) opt; CallRefresh;
               ConsoleWarn "Failed to update MVU data:" error;
               CallGetVariables opt; CallApply (statDataOf (VObj o'));
               CallReplaceVariables (nextOf (VObj o') mutated') opt; CallRefresh;
               ConsoleWarn "Failed to update variables:" error])
      (Ok ()).
Proof.
  intros Hmvu Hget Hvars Hreplace Hopt Hread Happly Hwrite Hread' Happly' Hwrite'.
  unfold updateStatData.
  rewrite <- (Eff_eta (writerOption h)), writerOption_emits, Hopt. eff_simpl.
  destruct (waitForMvu_returns h) as [lw ->]. eff_simpl.
  unfold updateMvu. rewrite Hmvu, Hget. eff_simpl. rewrite Hread. eff_simpl.
  rewrite updateWithVars_eq, Happly. eff_simpl. rewrite Hwrite. eff_simpl.
  unfold updateGeneric. rewrite Hvars, Hreplace. eff_simpl. rewrite Hread'. eff_simpl.
  rewrite updateWithVars_eq, Happly'. eff_simpl. rewrite Hwrite'. by eff_simpl.
Qed.

Lemma updateStatData_refresh_failure_repeats_witness :
  updateStatData workingMvuHost touch (Raise (HostError "refresh"))
  = mkEff (emitted (waitForMvu workingMvuHost)
           ++ [CallGetMvuData (OptMessage (MessageId 7));
               CallApply (statDataOf (VObj [("stat_data", VObj [])]));
               CallReplaceMvuData
                 (nextOf (VObj [("stat_data", VObj [])]) (VObj [("touched", VBool true)]))
                 (OptMessage (MessageId 7));
               CallRefresh;
               ConsoleWarn "Failed to update MVU data:" (HostError "refresh");
               CallGetVariables (OptMessage (MessageId 7));
               CallApply (statDataOf (VObj [("stat_data", VObj [])]));
               CallReplaceVariables
                 (nextOf (VObj [("stat_data", VObj [])]) (VObj [("touched", VBool true)]))
                 (OptMessage (MessageId 7));
               CallRefresh;
               ConsoleWarn "Failed to update variables:" (HostError "refresh")])
      (Ok ()).
Proof.
  apply (updateStatData_refresh_failure_repeats workingMvuHost touch (HostError "refresh")
           {| getMvuData := Some (λ _, Ok (VObj [("stat_data", VObj [])]));
              replaceMvuData := λ _ _, Ok () |}
           (λ _, Ok (VObj [("stat_data", VObj [])]))
           (λ _, Ok (VObj [("stat_data", VObj [])]))
           (λ _ _, Ok ())
           (OptMessage (MessageId 7))
           [("stat_data", VObj [])] [("stat_data", VObj [])]
           (VObj [("touched", VBool true)]) (VObj [("touched", VBool true)]));
    reflexivity.
Defined.

(** ** The relaxation of trailing commas *)

Lemma strip_separators_spaces ws t :
  all_space ws = true → strip_separators (ws +:+ t) = strip_separators t.
Proof.
  induction ws as [|c ws IH]; simpl; [done|].
  intros [Hc Hws]%andb_true_iff. rewrite Hc, orb_true_r. by apply IH.
Qed.

Lemma strip_separators_comma t : strip_separators (String "," t) = strip_separators t.
Proof. reflexivity. Qed.

Lemma strip_separators_close d t :
  is_close d = true → strip_separators (String d t) = String d (strip_separators t).
Proof.
  unfold is_close. intros [H|H]%orb_true_iff; apply bool_decide_eq_true in H; by subst.
Qed.

Lemma list_ascii_of_string_app s t :
  list_ascii_of_string (s +:+ t) = list_ascii_of_string s ++ list_ascii_of_string t.
Proof. induction s as [|c s IH]; simpl; [done | by rewrite IH]. Qed.

Lemma length_app_string s t : String.length (s +:+ t) = (String.length s + String.length t)%nat.
Proof. induction s as [|c s IH]; simpl; [done | by rewrite IH]. Qed.

Lemma relaxTrailingCommas_drops source :
  strip_separators (relaxTrailingCommas source) = strip_separators source
  ∧ list_ascii_of_string (relaxTrailingCommas source) `sublist_of` list_ascii_of_string source.
Proof.
  remember (String.length source) as n eqn:Hn.
  revert source Hn. induction (lt_wf n) as [n _ IH]. intros source ->.
  destruct source as [|c source]; [done|].
  destruct (IH (String.length source) ltac:(simpl; lia) source eq_refl) as [IHs IHl].
  rewrite relaxTrailingCommas_cons.
  case_bool_decide as Hc.
  - subst c. destruct (match_close relaxTrailingCommas source) as [r|] eqn:Hmatch.
    + apply match_close_inv in Hmatch as (ws & d & post & -> & Hws & Hd & ->).
      destruct (IH (String.length post)
                  ltac:(simpl; rewrite length_app_string; simpl; lia) post eq_refl)
        as [IHps IHpl].
      split.
      * rewrite strip_separators_comma, (strip_separators_spaces ws _ Hws).
        rewrite !(strip_separators_close d) by done. by rewrite IHps.
      * cbn [list_ascii_of_string]. apply sublist_cons.
        rewrite list_ascii_of_string_app. apply sublist_inserts_l.
        simpl. by apply sublist_skip.
    + split.
      * simpl. exact IHs.
      * simpl. by apply sublist_skip.
  - split.
    + simpl. rewrite bool_decide_false by done. simpl.
      destruct (is_space c); [exact IHs | by rewrite IHs].
    + simpl. by apply sublist_skip.
Qed.

Lemma relaxTrailingCommas_no_comma t :
  has_comma t = false → relaxTrailingCommas t = t.
Proof.
  induction t as [|c t IH]; [done|].
  simpl. intros [Hc Ht]%orb_false_iff. rewrite Hc. by rewrite IH.
Qed.

(** X10: the relaxation only drops commas and white space: the characters of
    its result are a subsequence of those of the source, and apart from
    commas and white space the two texts are the same; a source without a
    comma is returned as it is, so that the third attempt of
    [parseYamlSource] then parses what the second did. *)
Theorem relaxTrailingCommas_drops_separators (h : Host) (source : string) :
  strip_separators (relaxTrailingCommas source) = strip_separators source
  ∧ list_ascii_of_string (relaxTrailingCommas source) `sublist_of` list_ascii_of_string source
  ∧ (has_comma source = false →
     relaxTrailingCommas source = source
     ∧ parseRelaxedJson h source = (parsed ← JSON_parse h source; Ok (parsed ?? VObj []))).
Proof.
  destruct (relaxTrailingCommas_drops source) as [Hstrip Hsub].
  split; [exact Hstrip|]. split; [exact Hsub|].
  intros Hno. pose proof (relaxTrailingCommas_no_comma source Hno) as Heq.
  split; [exact Heq|]. unfold parseRelaxedJson. by rewrite Heq.
Qed.

(** ** Strings: [trim] *)

Lemma trimStart_head s :
  trimStart s = "" ∨ ∃ c t, trimStart s = String c t ∧ is_space c = false.
Proof.
  induction s as [|c s IH]; simpl; [by left|].
  destruct (is_space c) eqn:Hc; [exact IH|]. right. by exists c, s.
Qed.

Lemma trimEnd_head c t : is_space c = false → ∃ t', trimEnd (String c t) = String c t'.
Proof.
  intros Hc. simpl. destruct (trimEnd t) as [|d k]; [|by eexists].
  rewrite Hc. by eexists.
Qed.

Lemma trimEnd_idem s : trimEnd (trimEnd s) = trimEnd s.
Proof.
  induction s as [|c s IH]; simpl; [done|].
  destruct (trimEnd s) as [|d k] eqn:Hk.
  - destruct (is_space c) eqn:Hc; simpl; [done | by rewrite Hc].
  - simpl in *. by rewrite IH.
Qed.

Lemma trim_idem s : trim (trim s) = trim s.
Proof.
  unfold trim. destruct (trimStart_head s) as [->|(c & t & -> & Hc)]; [done|].
  destruct (trimEnd_head c t Hc) as [t' Ht']. rewrite Ht' at 1.
  simpl trimStart. rewrite Hc, <- Ht'. apply trimEnd_idem.
Qed.

Lemma trim_head s : trim s = "" ∨ ∃ c t, trim s = String c t ∧ is_space c = false.
Proof.
  unfold trim. destruct (trimStart_head s) as [->|(c & t & -> & Hc)]; [by left|].
  destruct (trimEnd_head c t Hc) as [t' ->]. right. by exists c, t'.
Qed.

(** ** Conversation cache: what a normalised record looks like *)

Lemma normalizeNpcMessage_valid message m :
  normalizeNpcMessage message = Ok (Some m) → valid_message m.
Proof.
  unfold normalizeNpcMessage.
  destruct (get_prop message "sender_handle") as [sender|]; [|done]. simpl.
  destruct (get_prop message "content") as [content|]; [|done]. simpl.
  destruct (bool_decide (js_String (sender ?? VStr "") = "")) eqn:Hs; [done|].
  destruct (bool_decide (js_String (content ?? VStr "") = "")) eqn:Hc; [done|].
  simpl.
  destruct (get_prop message "is_read") as [is_read|]; [|done]. simpl.
  destruct (get_prop message "timestamp") as [timestamp|]; [|done]. simpl.
  intros [= <-]. apply bool_decide_eq_false in Hs, Hc. by split.
Qed.

Lemma mapM_normalizeNpcMessage_valid messages mapped :
  mapM normalizeNpcMessage messages = Ok mapped → Forall valid_message (omap id mapped).
Proof.
  rewrite mapM_Result_Forall2. induction 1 as [|x y l k Hxy _ IH]; [constructor|].
  destruct y as [m|]; simpl; [|exact IH].
  constructor; [exact (normalizeNpcMessage_valid x m Hxy) | exact IH].
Qed.

Lemma normalizeNpcChatRecord_shape toNumber now input record :
  normalizeNpcChatRecord toNumber now input = Ok (Some record) →
  NpcChatRecord.key record ≠ ""
  ∧ trim (NpcChatRecord.key record) = NpcChatRecord.key record
  ∧ Forall valid_message (NpcChatRecord.messages record).
Proof.
  unfold normalizeNpcChatRecord.
  destruct (negb (truthy input) || negb (typeof_object input)); [done|].
  case_bool_decide as Hkey; [done|].
  destruct (mapM normalizeNpcMessage _) as [mapped|] eqn:Hmapped; [|done].
  simpl. intros [= <-]. simpl.
  split; [exact Hkey|]. split; [apply trim_idem|].
  exact (mapM_normalizeNpcMessage_valid _ _ Hmapped).
Qed.

(** ** Conversation cache: export and import *)

Lemma normalizeNpcMessage_document m :
  valid_message m → normalizeNpcMessage (DMMessage_document m) = Ok (Some m).
Proof.
  intros [Hs Hc]. destruct m as [sender content is_read timestamp]. simpl in *.
  unfold normalizeNpcMessage, DMMessage_document. simpl.
  rewrite !bool_decide_false by done. simpl.
  destruct is_read as [b|], timestamp as [t|]; reflexivity.
Qed.

Lemma mapM_normalizeNpcMessage_document messages :
  Forall valid_message messages →
  mapM normalizeNpcMessage (DMMessage_document <$> messages) = Ok (Some <$> messages).
Proof.
  induction 1 as [|m l Hm _ IH]; [reflexivity|].
  rewrite fmap_cons, mapM_Result_cons, (normalizeNpcMessage_document m Hm), IH. reflexivity.
Qed.

Lemma omap_id_Some {A} (l : list A) : omap id (Some <$> l) = l.
Proof. induction l as [|x l IH]; [done|]. rewrite fmap_cons. simpl. by f_equal. Qed.

Lemma normalizeNpcChatRecord_document toNumber now r :
  exportable r →
  ∃ r', normalizeNpcChatRecord toNumber now (NpcChatRecord_document r) = Ok (Some r')
        ∧ NpcChatRecord.key r' = NpcChatRecord.key r
        ∧ NpcChatRecord.messages r' = NpcChatRecord.messages r.
Proof.
  intros (Hkey & Htrim & Hvalid).
  unfold normalizeNpcChatRecord, NpcChatRecord_document. simpl.
  rewrite Htrim, bool_decide_false by done.
  rewrite (mapM_normalizeNpcMessage_document _ Hvalid). simpl.
  eexists. split; [reflexivity|]. simpl. split; [done | apply omap_id_Some].
Qed.

(** X11: a record that [normalizeNpcChatRecord] lets through is well formed:
    its key is not empty and has no white space around it, and each of its
    messages has a sender and a content that are not empty; and it is stable:
    normalising the document of the record gives back the same key and the
    same messages. *)
Theorem normalizeNpcChatRecord_wellformed
    (toNumber : value → number) (now : Z) (input : value) (record : NpcChatRecord.t) :
  normalizeNpcChatRecord toNumber now input = Ok (Some record) →
  NpcChatRecord.key record ≠ ""
  ∧ trim (NpcChatRecord.key record) = NpcChatRecord.key record
  ∧ Forall valid_message (NpcChatRecord.messages record)
  ∧ ∃ record',
      normalizeNpcChatRecord toNumber now (NpcChatRecord_document record) = Ok (Some record')
      ∧ NpcChatRecord.key record' = NpcChatRecord.key record
      ∧ NpcChatRecord.messages record' = NpcChatRecord.messages record.
Proof.
  intros Hrecord.
  pose proof (normalizeNpcChatRecord_shape toNumber now input record Hrecord)
    as (Hkey & Htrim & Hvalid).
  split; [exact Hkey|]. split; [exact Htrim|]. split; [exact Hvalid|].
  by apply normalizeNpcChatRecord_document.
Qed.

Lemma normalizeNpcChatRecord_wellformed_witness :
  NpcChatRecord.key sample_record ≠ ""
  ∧ trim (NpcChatRecord.key sample_record) = NpcChatRecord.key sample_record
  ∧ Forall valid_message (NpcChatRecord.messages sample_record)
  ∧ ∃ record',
      normalizeNpcChatRecord integerNumber 0 (NpcChatRecord_document sample_record)
      = Ok (Some record')
      ∧ NpcChatRecord.key record' = NpcChatRecord.key sample_record
      ∧ NpcChatRecord.messages record' = NpcChatRecord.messages sample_record.
Proof.
  apply (normalizeNpcChatRecord_wellformed integerNumber 0
           (VObj [("npc_key", VStr "  @a ");
                  ("messages", VArr [VObj [("sender_handle", VStr "@a"); ("content", VStr "hi")];
                                     VObj [("sender_handle", VStr "@a")];
                                     VNum 3])])).
  reflexivity.
Defined.

Lemma mapM_normalizeNpcChatRecord_document toNumber now chats :
  Forall exportable chats →
  ∃ chats', mapM (normalizeNpcChatRecord toNumber now) (NpcChatRecord_document <$> chats)
            = Ok (Some <$> chats')
            ∧ Forall2 (λ r r', NpcChatRecord.key r' = NpcChatRecord.key r
                               ∧ NpcChatRecord.messages r' = NpcChatRecord.messages r)
                chats chats'.
Proof.
  induction 1 as [|r l Hr _ (chats' & IH & Hall)].
  - exists []. split; [reflexivity | constructor].
  - destruct (normalizeNpcChatRecord_document toNumber now r Hr) as (r' & Hr' & Hsame).
    exists (r' :: chats'). split; [|by constructor].
    rewrite fmap_cons, mapM_Result_cons, Hr', IH. reflexivity.
Qed.

Lemma writeAll_upsertAll now store records :
  writeAll now (Some store) records = Ok (Some (upsertAll now store records)).
Proof.
  revert store. induction records as [|r records IH]; intros store; [reflexivity|].
  simpl. apply IH.
Qed.

Lemma upsertAll_same now store chats chats' :
  Forall2 (λ r r', NpcChatRecord.key r' = NpcChatRecord.key r
                   ∧ NpcChatRecord.messages r' = NpcChatRecord.messages r) chats chats' →
  upsertAll now store chats' = upsertAll now store chats.
Proof.
  intros Hall. revert store. induction Hall as [|r r' l l' [Hk Hm] _ IH]; intros store;
    [reflexivity|].
  simpl. rewrite IH. unfold rewritten. by rewrite Hk, Hm.
Qed.

Lemma find_key_same dmKey chats chats' :
  Forall2 (λ r r', NpcChatRecord.key r' = NpcChatRecord.key r
                   ∧ NpcChatRecord.messages r' = NpcChatRecord.messages r) chats chats' →
  NpcChatRecord.messages
    <$> find (λ item, bool_decide (NpcChatRecord.key item = dmKey)) chats'
  = NpcChatRecord.messages
      <$> find (λ item, bool_decide (NpcChatRecord.key item = dmKey)) chats.
Proof.
  induction 1 as [|r r' l l' [Hk Hm] _ IH]; [reflexivity|].
  simpl. rewrite Hk. destruct (bool_decide (NpcChatRecord.key r = dmKey)); [|exact IH].
  simpl. by rewrite Hm.
Qed.

Lemma upsertAll_lookup_other now store records k :
  k ∉ NpcChatRecord.key <$> records → upsertAll now store records !! k = store !! k.
Proof.
  revert store. induction records as [|r records IH]; intros store Hk; [reflexivity|].
  rewrite fmap_cons, not_elem_of_cons in Hk. destruct Hk as [Hne Hk].
  simpl. rewrite (IH _ Hk). by rewrite lookup_insert_ne.
Qed.

Lemma upsertAll_lookup now store records r :
  NoDup (NpcChatRecord.key <$> records) → r ∈ records →
  upsertAll now store records !! NpcChatRecord.key r = Some (rewritten now r).
Proof.
  revert store. induction records as [|r0 records IH]; intros store Hnodup Hr.
  - by apply elem_of_nil in Hr.
  - rewrite fmap_cons in Hnodup. apply NoDup_cons in Hnodup as [Hfresh Hnodup].
    apply elem_of_cons in Hr as [->|Hr]; simpl.
    + rewrite (upsertAll_lookup_other _ _ _ _ Hfresh). apply lookup_insert_eq.
    + by apply IH.
Qed.

(** The import of a list of documents of well-formed records. *)
Lemma handleImportNpcChatsFile_documents h toNumber now text dmKey store dmMessages
    parsed chats :
  JSON_parse h text = Ok parsed →
  (parsed = VArr (NpcChatRecord_document <$> chats)
   ∨ ∃ o, parsed = VObj o ∧ field "chats" o = VArr (NpcChatRecord_document <$> chats)) →
  Forall exportable chats →
  handleImportNpcChatsFile h toNumber now (Some text) dmKey (Some store) dmMessages
  = mkEff []
      (Ok (Some (upsertAll now store chats),
           default dmMessages
             (NpcChatRecord.messages
                <$> find (λ item, bool_decide (NpcChatRecord.key item = dmKey)) chats))).
Proof.
  intros Hparse Hshape Hall. unfold handleImportNpcChatsFile. rewrite Hparse. eff_simpl.
  destruct (mapM_normalizeNpcChatRecord_document toNumber now chats Hall)
    as (chats' & Hmap & Hsame).
  assert (match parsed with
          | VArr _ => parsed
          | _ => member parsed "chats" ?? VArr []
          end = VArr (NpcChatRecord_document <$> chats)) as ->.
  { destruct Hshape as [->|(o & -> & Ho)]; [done|]. simpl. by rewrite Ho. }
  rewrite Hmap. eff_simpl. rewrite omap_id_Some, writeAll_upsertAll. eff_simpl.
  rewrite (upsertAll_same now store chats chats' Hsame).
  rewrite <- (find_key_same dmKey chats chats' Hsame).
  by destruct (find _ chats').
Qed.

Lemma handleExportNpcChats_document now store :
  handleExportNpcChats now (Some store)
  = mkEff [] (Ok (Some (exportDocument now (map_to_list store).*2))).
Proof. reflexivity. Qed.

Lemma cache_records store :
  cache_wf store →
  NpcChatRecord.key <$> (map_to_list store).*2 = (map_to_list store).*1.
Proof.
  intros Hwf. rewrite <- list_fmap_compose. apply list_fmap_ext.
  intros i [k r] Hi. simpl.
  apply list_elem_of_lookup_2, elem_of_map_to_list in Hi. by apply Hwf in Hi as [-> _].
Qed.

(** X12: export then import restores every conversation.  For a cache that
    this program has written (each record well formed), the file produced by
    [handleExportNpcChats], imported into any cache, puts back every
    exported conversation with its messages, stamped with the time of the
    import, leaves the conversations it does not hold as they are, and shows
    the imported messages of the open conversation. *)
Theorem export_import_round_trip
    (h : Host) (toNumber : value → number) (exported_at now : Z) (text dmKey : string)
    (store target : gmap string NpcChatRecord.t) (dmMessages : list DMMessage.t)
    (document : value) :
  cache_wf store →
  (∀ k r, store !! k = Some r → exportable r) →
  outcome (handleExportNpcChats exported_at (Some store)) = Ok (Some document) →
  JSON_parse h text = Ok document →
  ∃ target',
    handleImportNpcChatsFile h toNumber now (Some text) dmKey (Some target) dmMessages
    = mkEff [] (Ok (Some target',
                    default dmMessages (NpcChatRecord.messages <$> store !! dmKey)))
    ∧ (∀ k r, store !! k = Some r → target' !! k = Some (rewritten now r))
    ∧ (∀ k, store !! k = None → target' !! k = target !! k).
Proof.
  intros Hwf Hexportable Hexport Hparse.
  rewrite handleExportNpcChats_document in Hexport. simpl in Hexport.
  injection Hexport as <-.
  set (chats := (map_to_list store).*2).
  assert (Forall exportable chats) as Hall.
  { apply Forall_forall. intros r Hr. subst chats.
    apply list_elem_of_fmap in Hr as ([k r'] & -> & Hr).
    apply elem_of_map_to_list in Hr. exact (Hexportable k r' Hr). }
  pose proof (cache_records store Hwf) as Hkeys. fold chats in Hkeys.
  assert (NoDup (NpcChatRecord.key <$> chats)) as Hnodup.
  { rewrite Hkeys. apply NoDup_fst_map_to_list. }
  exists (upsertAll now target chats).
  split; [|split].
  - rewrite (handleImportNpcChatsFile_documents h toNumber now text dmKey target dmMessages
               (exportDocument exported_at chats) chats Hparse); [|right; by eexists|done].
    do 3 f_equal.
    destruct (find (λ item, bool_decide (NpcChatRecord.key item = dmKey)) chats)
      as [r|] eqn:Hfind.
    + apply find_some in Hfind as [Hin Hkey].
      apply bool_decide_eq_true in Hkey.
      apply list_elem_of_In in Hin. subst chats.
      apply list_elem_of_fmap in Hin as ([k r'] & -> & Hin).
      apply elem_of_map_to_list in Hin. simpl in Hkey.
      destruct (Hwf k r' Hin) as [Hk _]. rewrite Hk in Hkey. subst k. by rewrite Hin.
    + destruct (store !! dmKey) as [r|] eqn:Hstore; [|done]. exfalso.
      destruct (Hwf dmKey r Hstore) as [Hk _].
      assert (In r chats) as Hin.
      { apply list_elem_of_In. subst chats. apply list_elem_of_fmap.
        exists (dmKey, r). split; [done|]. by apply elem_of_map_to_list. }
      pose proof (find_none _ _ Hfind r Hin) as Hnone. simpl in Hnone.
      by rewrite Hk, bool_decide_true in Hnone.
  - intros k r Hr. destruct (Hwf k r Hr) as [<- _].
    apply upsertAll_lookup; [exact Hnodup|].
    subst chats. apply list_elem_of_fmap. exists (NpcChatRecord.key r, r).
    split; [done|]. by apply elem_of_map_to_list.
  - intros k Hk. apply upsertAll_lookup_other. rewrite Hkeys.
    intros Hin. apply list_elem_of_fmap in Hin as ([k' r] & -> & Hin).
    apply elem_of_map_to_list in Hin. simpl in Hk. congruence.
Qed.

Lemma sample_store_wf : cache_wf sample_store ∧ ∀ k r, sample_store !! k = Some r → exportable r.
Proof.
  split; intros k r Hr; unfold sample_store in Hr;
    apply lookup_singleton_Some in Hr as [<- <-].
  - done.
  - split; [done|]. split; [reflexivity|]. by repeat constructor.
Qed.

Lemma export_import_round_trip_witness :
  ∃ target',
    handleImportNpcChatsFile jsonOnlyHost integerNumber 2 (Some export_text) "@a" (Some ∅) []
    = mkEff [] (Ok (Some target',
                    default [] (NpcChatRecord.messages <$> sample_store !! "@a")))
    ∧ (∀ k r, sample_store !! k = Some r → target' !! k = Some (rewritten 2 r))
    ∧ (∀ k, sample_store !! k = None → target' !! k = (∅ : gmap string NpcChatRecord.t) !! k).
Proof.
  apply (export_import_round_trip jsonOnlyHost integerNumber 1 2 export_text "@a"
           sample_store ∅ [] (exportDocument 1 [sample_record])).
  - apply sample_store_wf.
  - apply sample_store_wf.
  - reflexivity.
  - vm_compute. reflexivity.
Defined.

(** ** Conversation cache: the handlers *)

(** X13: a file that does not hold a list of chats changes nothing: when the
    text is not JSON, or is JSON that is neither an array nor an object with
    an array under [chats], the cache and the messages on screen are as
    before; when [chats] is missing the file is even accepted without a
    warning. *)
Theorem handleImportNpcChatsFile_not_a_list
    (h : Host) (toNumber : value → number) (now : Z) (text dmKey : string)
    (db : option (gmap string NpcChatRecord.t)) (dmMessages : list DMMessage.t) :
  (∀ parsed, JSON_parse h text = Ok parsed →
     (∀ items, parsed ≠ VArr items) ∧ (∀ items, member parsed "chats" ≠ VArr items)) →
  outcome (handleImportNpcChatsFile h toNumber now (Some text) dmKey db dmMessages)
  = Ok (db, dmMessages)
  ∧ (∀ parsed, JSON_parse h text = Ok parsed → nullish (member parsed "chats") = true →
       emitted (handleImportNpcChatsFile h toNumber now (Some text) dmKey db dmMessages) = []).
Proof.
  intros Hshape. unfold handleImportNpcChatsFile.
  destruct (JSON_parse h text) as [parsed|e]; eff_simpl; [|by split].
  destruct (Hshape parsed eq_refl) as [Harray Hchats].
  assert (match parsed with
          | VArr _ => parsed
          | _ => member parsed "chats" ?? VArr []
          end = member parsed "chats" ?? VArr []) as ->.
  { destruct parsed as [| |b|n|s|items|o]; try done. by destruct (Harray items). }
  unfold coalesce.
  destruct (nullish (member parsed "chats")) eqn:Hnull.
  - eff_simpl. simpl. eff_simpl. split; [done|]. by intros ? [= <-] _.
  - destruct (member parsed "chats") as [| |b|n|s|items|o] eqn:Hm; try done; eff_simpl;
      try (split; [done|]; intros ? [= <-] Hn; rewrite Hm in Hn; discriminate Hn).
    by destruct (Hchats items).
Qed.

Lemma handleImportNpcChatsFile_not_a_list_witness :
  outcome (handleImportNpcChatsFile jsonOnlyHost integerNumber 2 (Some "{}") "@a"
             (Some sample_store) [])
  = Ok (Some sample_store, [])
  ∧ (∀ parsed, JSON_parse jsonOnlyHost "{}" = Ok parsed →
       nullish (member parsed "chats") = true →
       emitted (handleImportNpcChatsFile jsonOnlyHost integerNumber 2 (Some "{}") "@a"
                  (Some sample_store) []) = []).
Proof.
  apply (handleImportNpcChatsFile_not_a_list jsonOnlyHost integerNumber 2 "{}" "@a"
           (Some sample_store) []).
  intros parsed H. vm_compute in H. injection H as <-.
  split; intros items; discriminate.
Defined.

Lemma insert_wf now store r :
  cache_wf store → NpcChatRecord.key r ≠ "" →
  cache_wf (<[NpcChatRecord.key r := rewritten now r]> store).
Proof.
  intros Hwf Hkey k r' Hr'. apply lookup_insert_Some in Hr' as [[<- <-]|[_ Hr']].
  - done.
  - by apply Hwf.
Qed.

Lemma upsertAll_wf now store records :
  cache_wf store → Forall (λ r, NpcChatRecord.key r ≠ "") records →
  cache_wf (upsertAll now store records).
Proof.
  intros Hwf Hall. revert store Hwf.
  induction Hall as [|r records Hr _ IH]; intros store Hwf; [done|].
  simpl. apply IH. by apply insert_wf.
Qed.

Lemma mapM_normalizeNpcChatRecord_keys toNumber now items mapped :
  mapM (normalizeNpcChatRecord toNumber now) items = Ok mapped →
  Forall (λ r, NpcChatRecord.key r ≠ "") (omap id mapped).
Proof.
  rewrite mapM_Result_Forall2. induction 1 as [|x y l k Hxy _ IH]; [constructor|].
  destruct y as [r|]; simpl; [|exact IH].
  constructor; [|exact IH].
  by destruct (normalizeNpcChatRecord_shape toNumber now x r Hxy).
Qed.

Lemma handleImportNpcChatsFile_wf h toNumber now file dmKey store dmMessages :
  cache_wf store →
  ∃ store' dmMessages',
    outcome (handleImportNpcChatsFile h toNumber now file dmKey (Some store) dmMessages)
    = Ok (Some store', dmMessages')
    ∧ cache_wf store'.
Proof.
  intros Hwf. unfold handleImportNpcChatsFile.
  destruct file as [text|]; [|by eexists _, _].
  destruct (JSON_parse h text) as [parsed|e]; eff_simpl; [|by eexists _, _].
  destruct (match parsed with
            | VArr _ => parsed
            | _ => member parsed "chats" ?? VArr []
            end) as [| |b|n|s|items|o]; eff_simpl; try (by eexists _, _).
  destruct (mapM (normalizeNpcChatRecord toNumber now) items) as [mapped|e] eqn:Hmapped;
    eff_simpl; [|by eexists _, _].
  rewrite writeAll_upsertAll. eff_simpl.
  pose proof (mapM_normalizeNpcChatRecord_keys toNumber now items mapped Hmapped) as Hkeys.
  destruct (find _ (omap id mapped)); eff_simpl;
    (eexists _, _; split; [reflexivity|]; by apply upsertAll_wf).
Qed.

(** X14: the cache stays well formed.  If every record is stored under its
    own key and none under the empty key, the same holds after the timer
    that persists the open conversation, after the handler that clears it
    and after an import; and each of the three returns normally. *)
Theorem cache_stays_wellformed
    (h : Host) (toNumber : value → number) (now : Z)
    (store : gmap string NpcChatRecord.t) (dmKey : string)
    (messages : list DMMessage.t) (confirmed : bool) (thread : option (list DMMessage.t))
    (composer : DmComposer) (file : option string) :
  cache_wf store →
  (∃ store', outcome (persistNpcChat now (Some store) dmKey messages) = Ok (Some store')
             ∧ cache_wf store')
  ∧ (∃ store' composer',
       outcome (handleDeleteNpcChat confirmed thread dmKey (Some store) composer)
       = Ok (Some store', composer')
       ∧ cache_wf store')
  ∧ (∃ store' messages',
       outcome (handleImportNpcChatsFile h toNumber now file dmKey (Some store) messages)
       = Ok (Some store', messages')
       ∧ cache_wf store').
Proof.
  intros Hwf. split; [|split].
  - unfold persistNpcChat. case_bool_decide as Hkey; [by eexists|].
    eff_simpl. simpl. eexists. split; [reflexivity|].
    exact (insert_wf now store
             {| NpcChatRecord.key := dmKey; NpcChatRecord.updated_at := Int now;
                NpcChatRecord.messages := messages |} Hwf Hkey).
  - unfold handleDeleteNpcChat. case_bool_decide as Hkey; [by eexists _, _|].
    destruct confirmed; simpl; [|by eexists _, _].
    eff_simpl. simpl. eexists _, _. split; [reflexivity|].
    intros k r Hr. apply lookup_delete_Some in Hr as [_ Hr]. by apply Hwf.
  - by apply handleImportNpcChatsFile_wf.
Qed.

Lemma cache_stays_wellformed_witness :
  (∃ store', outcome (persistNpcChat 2 (Some sample_store) "@b" [sample_message "yo"])
             = Ok (Some store')
             ∧ cache_wf store')
  ∧ (∃ store' composer',
       outcome (handleDeleteNpcChat true None "@b" (Some sample_store) (clearedComposer None))
       = Ok (Some store', composer')
       ∧ cache_wf store')
  ∧ (∃ store' messages',
       outcome (handleImportNpcChatsFile jsonOnlyHost integerNumber 2 (Some export_text) "@b"
                  (Some sample_store) [sample_message "yo"])
       = Ok (Some store', messages')
       ∧ cache_wf store').
Proof.
  apply (cache_stays_wellformed jsonOnlyHost integerNumber 2 sample_store "@b"
           [sample_message "yo"] true None (clearedComposer None) (Some export_text)).
  apply sample_store_wf.
Defined.

(** X15: what the timer persists is what the next opening finds.  After the
    messages on screen were written under the conversation's key, opening
    the conversation reads them back: they are adopted when they are more
    than the backend thread has (or the screen, without a thread), and on a
    page without a backend thread and with an empty screen they are what is
    shown. *)
Theorem persist_then_load
    (now : Z) (store : gmap string NpcChatRecord.t) (dmKey : string)
    (messages : list DMMessage.t) (thread : option (list DMMessage.t))
    (current : list DMMessage.t) :
  dmKey ≠ "" →
  ∃ db',
    persistNpcChat now (Some store) dmKey messages = mkEff [] (Ok db')
    ∧ readNpcChat db' dmKey
      = Ok (Some {| NpcChatRecord.key := dmKey; NpcChatRecord.updated_at := Int now;
                    NpcChatRecord.messages := messages |})
    ∧ (∀ k, k ≠ dmKey → readNpcChat db' k = readNpcChat (Some store) k)
    ∧ loadNpcChat db' dmKey false thread current
      = mkEff [] (Ok (adopted messages (default current thread) current))
    ∧ loadNpcChat db' dmKey false None [] = mkEff [] (Ok messages).
Proof.
  intros Hkey. unfold persistNpcChat. rewrite bool_decide_false by done.
  eff_simpl. simpl. eexists. split; [reflexivity|].
  assert (∀ thread current,
    loadNpcChat
      (Some (<[dmKey := {| NpcChatRecord.key := dmKey; NpcChatRecord.updated_at := Int now;
                           NpcChatRecord.messages := messages |}]> store))
      dmKey false thread current
    = mkEff [] (Ok (adopted messages (default current thread) current))) as Hload.
  { intros thread' current'. unfold loadNpcChat, adopted.
    rewrite bool_decide_false by done.
    unfold readNpcChat. simpl. rewrite lookup_insert_eq. eff_simpl. simpl.
    by destruct (Nat.eqb (List.length messages) 0). }
  split; [|split; [|split]].
  - unfold readNpcChat. simpl. by rewrite lookup_insert_eq.
  - intros k Hk. unfold readNpcChat. simpl. by rewrite lookup_insert_ne.
  - apply Hload.
  - rewrite Hload. unfold adopted. simpl. by destruct messages.
Qed.

Lemma persist_then_load_witness :
  ∃ db',
    persistNpcChat 2 (Some sample_store) "@b" [sample_message "yo"] = mkEff [] (Ok db')
    ∧ readNpcChat db' "@b"
      = Ok (Some {| NpcChatRecord.key := "@b"; NpcChatRecord.updated_at := Int 2;
                    NpcChatRecord.messages := [sample_message "yo"] |})
    ∧ (∀ k, k ≠ "@b" → readNpcChat db' k = readNpcChat (Some sample_store) k)
    ∧ loadNpcChat db' "@b" false (Some []) []
      = mkEff [] (Ok (adopted [sample_message "yo"] (default [] (Some [])) []))
    ∧ loadNpcChat db' "@b" false None [] = mkEff [] (Ok [sample_message "yo"]).
Proof.
  apply (persist_then_load 2 sample_store "@b" [sample_message "yo"] (Some []) []).
  discriminate.
Defined.

(** X16: clearing a conversation.  Without the user's confirmation nothing
    changes.  With it the record is removed from the cache (the other
    conversations stay), the screen goes back to the backend thread, the
    staged messages and the input are emptied, and opening the conversation
    again finds nothing to adopt. *)
Theorem handleDeleteNpcChat_clears
    (store : gmap string NpcChatRecord.t) (dmKey : string)
    (thread : option (list DMMessage.t)) (composer : DmComposer) :
  dmKey ≠ "" →
  handleDeleteNpcChat false thread dmKey (Some store) composer
  = mkEff [] (Ok (Some store, composer))
  ∧ ∃ db',
      handleDeleteNpcChat true thread dmKey (Some store) composer
      = mkEff [] (Ok (db', clearedComposer thread))
      ∧ readNpcChat db' dmKey = Ok None
      ∧ (∀ k, k ≠ dmKey → readNpcChat db' k = readNpcChat (Some store) k)
      ∧ ∀ cancelled current,
          loadNpcChat db' dmKey cancelled thread current = mkEff [] (Ok current).
Proof.
  intros Hkey. unfold handleDeleteNpcChat. rewrite bool_decide_false by done.
  split; [reflexivity|]. simpl. eff_simpl. simpl.
  eexists. split; [reflexivity|].
  split; [|split].
  - unfold readNpcChat. simpl. by rewrite lookup_delete_eq.
  - intros k Hk. unfold readNpcChat. simpl. by rewrite lookup_delete_ne.
  - intros cancelled current. unfold loadNpcChat. rewrite bool_decide_false by done.
    unfold readNpcChat. simpl. rewrite lookup_delete_eq. by eff_simpl.
Qed.

Lemma handleDeleteNpcChat_clears_witness :
  handleDeleteNpcChat false None "@a" (Some sample_store) (clearedComposer None)
  = mkEff [] (Ok (Some sample_store, clearedComposer None))
  ∧ ∃ db',
      handleDeleteNpcChat true None "@a" (Some sample_store) (clearedComposer None)
      = mkEff [] (Ok (db', clearedComposer None))
      ∧ readNpcChat db' "@a" = Ok None
      ∧ (∀ k, k ≠ "@a" → readNpcChat db' k = readNpcChat (Some sample_store) k)
      ∧ ∀ cancelled current,
          loadNpcChat db' "@a" cancelled None current = mkEff [] (Ok current).
Proof.
  apply (handleDeleteNpcChat_clears sample_store "@a" None (clearedComposer None)).
  discriminate.
Defined.

Lemma writeAll_unavailable now records :
  writeAll now None records = match records with [] => Ok None | _ => Raise unavailable end.
Proof. by destruct records. Qed.

Lemma handleImportNpcChatsFile_unavailable h toNumber now file dmKey dmMessages :
  outcome (handleImportNpcChatsFile h toNumber now file dmKey None dmMessages)
  = Ok (None, dmMessages).
Proof.
  unfold handleImportNpcChatsFile.
  destruct file as [text|]; [|done].
  destruct (JSON_parse h text) as [parsed|e]; eff_simpl; [|done].
  destruct (match parsed with
            | VArr _ => parsed
            | _ => member parsed "chats" ?? VArr []
            end) as [| |b|n|s|items|o]; eff_simpl; try done.
  destruct (mapM (normalizeNpcChatRecord toNumber now) items) as [mapped|e]; eff_simpl;
    [|done].
  rewrite writeAll_unavailable.
  destruct (omap id mapped) as [|r rs]; eff_simpl; done.
Qed.

(** X17: on a page without IndexedDB every operation on the cache fails
    softly: opening, persisting, clearing and exporting each log one warning
    and leave the screen and the composer as they are, and an import, whatever
    the file, leaves the messages on screen as they are. *)
Theorem cache_unavailable
    (h : Host) (toNumber : value → number) (now : Z) (dmKey : string)
    (cancelled : bool) (thread : option (list DMMessage.t))
    (current : list DMMessage.t) (composer : DmComposer) (file : option string) :
  dmKey ≠ "" →
  loadNpcChat None dmKey cancelled thread current
  = mkEff [ConsoleWarn "Failed to load NPC chat:" unavailable] (Ok current)
  ∧ persistNpcChat now None dmKey current
    = mkEff [ConsoleWarn "Failed to persist NPC chat:" unavailable] (Ok None)
  ∧ handleDeleteNpcChat true thread dmKey None composer
    = mkEff [ConsoleWarn "Failed to delete NPC chat:" unavailable] (Ok (None, composer))
  ∧ handleExportNpcChats now None
    = mkEff [ConsoleWarn "Failed to export NPC chats:" unavailable] (Ok None)
  ∧ outcome (handleImportNpcChatsFile h toNumber now file dmKey None current)
    = Ok (None, current).
Proof.
  intros Hkey.
  unfold loadNpcChat, persistNpcChat, handleDeleteNpcChat.
  rewrite !bool_decide_false by done.
  repeat split; try reflexivity.
  apply handleImportNpcChatsFile_unavailable.
Qed.

Lemma cache_unavailable_witness :
  loadNpcChat None "@a" false None [sample_message "hi"]
  = mkEff [ConsoleWarn "Failed to load NPC chat:" unavailable] (Ok [sample_message "hi"])
  ∧ persistNpcChat 2 None "@a" [sample_message "hi"]
    = mkEff [ConsoleWarn "Failed to persist NPC chat:" unavailable] (Ok None)
  ∧ handleDeleteNpcChat true None "@a" None (clearedComposer None)
    = mkEff [ConsoleWarn "Failed to delete NPC chat:" unavailable]
        (Ok (None, clearedComposer None))
  ∧ handleExportNpcChats 2 None
    = mkEff [ConsoleWarn "Failed to export NPC chats:" unavailable] (Ok None)
  ∧ outcome (handleImportNpcChatsFile jsonOnlyHost integerNumber 2 (Some export_text) "@a"
               None [sample_message "hi"])
    = Ok (None, [sample_message "hi"]).
Proof.
  apply (cache_unavailable jsonOnlyHost integerNumber 2 "@a" false None [sample_message "hi"]
           (clearedComposer None) (Some export_text)).
  discriminate.
Defined.

(** X18: the cache is keyed by the partner's handle, or by the name when the
    handle is empty; a partner is active exactly when that key is not empty,
    and without an active partner nothing is loaded, persisted or cleared. *)
Theorem no_partner_no_cache
    (activeDmPartner : DMParticipant.t) (now : Z)
    (db : option (gmap string NpcChatRecord.t)) (cancelled confirmed : bool)
    (thread : option (list DMMessage.t)) (current : list DMMessage.t)
    (composer : DmComposer) :
  (hasActivePartner activeDmPartner = true ↔ dmKey activeDmPartner ≠ "")
  ∧ (hasActivePartner activeDmPartner = false →
     loadNpcChat db (dmKey activeDmPartner) cancelled thread current = mkEff [] (Ok current)
     ∧ persistNpcChat now db (dmKey activeDmPartner) current = mkEff [] (Ok db)
     ∧ handleDeleteNpcChat confirmed thread (dmKey activeDmPartner) db composer
       = mkEff [] (Ok (db, composer))).
Proof.
  unfold hasActivePartner, dmKey.
  destruct activeDmPartner as [name handle ? ? ?]. simpl.
  repeat case_bool_decide; simpl; split; try done; try (split; intros; done).
Qed.

(** ** Optimistic handlers: the comment count and the comment list *)

Lemma imap_at_alter {A} (f : A → A) (i : nat) (l : list A) :
  imap (λ idx x, if nat_neqb idx i then x else f x) l = alter f i l.
Proof.
  apply list_eq. intros j. rewrite lookup_imap_at, list_lookup_alter.
  destruct (decide (j = i)) as [->|Hne].
  - by rewrite decide_True.
  - rewrite decide_False by done. by destruct (l !! j).
Qed.

Lemma alter_middle {A} (f : A → A) (i : nat) (l : list A) (x : A) :
  l !! i = Some x → alter f i l = take i l ++ f x :: drop (S i) l.
Proof.
  intros Hx. rewrite <- (take_drop_middle l i x Hx) at 1.
  assert (length (take i l) = i) as Hlen.
  { rewrite length_take. apply lookup_lt_Some in Hx. lia. }
  rewrite <- (Nat.add_0_r i) at 1. rewrite <- Hlen at 1.
  by rewrite alter_app_r.
Qed.

Lemma filter_imap_all {A} (g : nat → nat) (keep : nat → bool) (l : list A) :
  (∀ i, keep (g i) = true) →
  (λ p : nat * A, p.2) <$> filter (λ p, keep p.1 = true) (imap (λ i x, (g i, x)) l) = l.
Proof.
  revert g. induction l as [|x l IH]; intros g Hall; [done|].
  rewrite imap_cons, filter_cons. simpl. rewrite decide_True by apply Hall.
  rewrite fmap_cons. simpl. f_equal. apply (IH (g ∘ S)). intros i. apply Hall.
Qed.

Lemma filter_imap_delete {A} (g : nat → nat) (keep : nat → bool) (k : nat) (l : list A) :
  (∀ i, keep (g i) = nat_neqb i k) →
  (λ p : nat * A, p.2) <$> filter (λ p, keep p.1 = true) (imap (λ i x, (g i, x)) l)
  = delete k l.
Proof.
  revert g k. induction l as [|x l IH]; intros g k Hkeep; [by destruct k|].
  rewrite imap_cons, filter_cons. simpl. destruct k as [|k].
  - rewrite decide_False by (rewrite Hkeep; done). simpl.
    apply (filter_imap_all (g ∘ S)). intros i. simpl. by rewrite Hkeep.
  - rewrite decide_True by (rewrite Hkeep; done).
    rewrite fmap_cons. simpl. f_equal. apply (IH (g ∘ S)). intros i. simpl. by rewrite Hkeep.
Qed.

Lemma filter_index_delete {A} (k : nat) (l : list A) :
  filter_index (λ idx, nat_neqb idx k) l = delete k l.
Proof.
  unfold filter_index.
  exact (filter_imap_delete (λ i, i) (λ idx, nat_neqb idx k) k l (λ i, eq_refl)).
Qed.

Lemma commentsTotal_app a b : commentsTotal (a ++ b) = (commentsTotal a + commentsTotal b)%Z.
Proof. unfold commentsTotal. induction a as [|c a IH]; simpl; [done | rewrite IH; lia]. Qed.

Lemma commentsTotal_cons c l : commentsTotal (c :: l) = (commentWeight c + commentsTotal l)%Z.
Proof. reflexivity. Qed.

Lemma commentsTotal_nonneg l : (0 ≤ commentsTotal l)%Z.
Proof.
  induction l as [|c l IH]; [done|]. rewrite commentsTotal_cons. unfold commentWeight. lia.
Qed.

Lemma commentsTotal_alter f i l c :
  l !! i = Some c →
  commentsTotal (alter f i l) = (commentsTotal l - commentWeight c + commentWeight (f c))%Z.
Proof.
  intros Hc. rewrite (alter_middle f i l c Hc).
  rewrite <- (take_drop_middle l i c Hc) at 3.
  rewrite !commentsTotal_app, !commentsTotal_cons. lia.
Qed.

Lemma commentsTotal_delete i l c :
  l !! i = Some c → commentsTotal (delete i l) = (commentsTotal l - commentWeight c)%Z.
Proof.
  intros Hc. rewrite delete_take_drop.
  rewrite <- (take_drop_middle l i c Hc) at 3.
  rewrite !commentsTotal_app, !commentsTotal_cons. lia.
Qed.

Lemma Forall_alter_at {A} (P : A → Prop) (f : A → A) (i : nat) (l : list A) :
  (∀ x, l !! i = Some x → P x → P (f x)) → Forall P l → Forall P (alter f i l).
Proof.
  intros Hf Hl. apply Forall_lookup. intros j y. rewrite list_lookup_alter.
  destruct (decide (i = j)) as [->|Hne].
  - destruct (l !! j) as [x|] eqn:Hx; [|done]. intros [= <-].
    apply Hf; [done|]. exact (Forall_lookup_1 _ _ _ _ Hl Hx).
  - intros Hy. exact (Forall_lookup_1 _ _ _ _ Hl Hy).
Qed.

Lemma handleFeedReplySend_sync feedViewer feedReplyInputs feedReplyTargets postIndex
    (feedPosts : list FeedPost.t) :
  Forall commentCountInSync feedPosts →
  Forall commentCountInSync
    (handleFeedReplySend feedViewer feedReplyInputs feedReplyTargets postIndex feedPosts).
Proof.
  intros Hall. unfold handleFeedReplySend.
  case_bool_decide; [done|].
  destruct (feedPosts !! postIndex) as [post|] eqn:Hpost; [|done].
  destruct (default TargetPost (feedReplyTargets !! postIndex)) as [|i].
  - rewrite imap_at_alter. apply Forall_alter_at; [|done].
    intros item _ Hsync. unfold commentCountInSync in *. simpl.
    rewrite Hsync, commentsTotal_app. reflexivity.
  - case_bool_decide as Hguard; [done|].
    rewrite imap_at_alter. apply Forall_alter_at; [|done].
    intros item Hitem Hsync. rewrite Hpost in Hitem. injection Hitem as <-.
    unfold commentCountInSync in *. simpl.
    destruct (default [] (FeedPost.people_comments post) !! i) as [comment|] eqn:Hcomment;
      [|done].
    rewrite imap_at_alter, (commentsTotal_alter _ _ _ comment Hcomment), Hsync.
    unfold commentWeight. simpl. rewrite length_app. simpl. lia.
Qed.

Lemma handleDeleteFeedComment_sync postIndex commentIndex (feedPosts : list FeedPost.t) :
  Forall commentCountInSync feedPosts →
  Forall commentCountInSync (handleDeleteFeedComment postIndex commentIndex feedPosts).
Proof.
  intros Hall. unfold handleDeleteFeedComment.
  destruct (feedPosts !! postIndex) as [post|] eqn:Hpost; [|done].
  destruct (default [] (FeedPost.people_comments post) !! commentIndex)
    as [targetComment|] eqn:Htarget; [|done].
  rewrite imap_at_alter. apply Forall_alter_at; [|done].
  intros item Hitem Hsync. rewrite Hpost in Hitem. injection Hitem as <-.
  unfold commentCountInSync in *. simpl.
  rewrite filter_index_delete, (commentsTotal_delete _ _ targetComment Htarget), Hsync.
  pose proof (commentsTotal_nonneg (delete commentIndex (default [] (FeedPost.people_comments post)))) as Hnn.
  rewrite (commentsTotal_delete _ _ targetComment Htarget) in Hnn.
  unfold commentWeight in *. lia.
Qed.

Lemma handleDeleteFeedReply_sync postIndex commentIndex replyIndex
    (feedPosts : list FeedPost.t) :
  Forall commentCountInSync feedPosts →
  Forall commentCountInSync (handleDeleteFeedReply postIndex commentIndex replyIndex feedPosts).
Proof.
  intros Hall. unfold handleDeleteFeedReply.
  destruct (feedPosts !! postIndex) as [post|] eqn:Hpost; [|done].
  destruct (FeedPost.people_comments post) as [comments|] eqn:Hcomments; [|done]. simpl.
  destruct (comments !! commentIndex) as [comment|] eqn:Hcomment; [|done]. simpl.
  destruct (FeedPostComment.replies comment) as [replies|] eqn:Hreplies; [|done]. simpl.
  destruct (replies !! replyIndex) as [reply|] eqn:Hreply; [|done].
  rewrite imap_at_alter. apply Forall_alter_at; [|done].
  intros item Hitem Hsync. rewrite Hpost in Hitem. injection Hitem as <-.
  unfold commentCountInSync in *. simpl.
  rewrite Hcomments in *. simpl in *.
  rewrite imap_at_alter, (commentsTotal_alter _ _ _ comment Hcomment), Hsync.
  pose proof (commentsTotal_nonneg (delete commentIndex comments)) as Hnn.
  rewrite (commentsTotal_delete _ _ comment Hcomment) in Hnn.
  unfold commentWeight in *. simpl. rewrite Hreplies in *. simpl in *.
  rewrite filter_index_delete, length_delete by eauto.
  apply lookup_lt_Some in Hreply. lia.
Qed.

Lemma toggleFeedLike_sync index (feedPosts : list FeedPost.t) :
  Forall commentCountInSync feedPosts → Forall commentCountInSync (toggleFeedLike index feedPosts).
Proof.
  intros Hall. unfold toggleFeedLike. rewrite imap_at_alter.
  apply Forall_alter_at; [|done]. by intros item _ Hsync.
Qed.

(** X19: the comment count follows the comment list.  If on every post the
    displayed count equals the number of comments and replies in its list,
    the same holds after the viewer posts a comment or a reply, deletes a
    comment (with its replies), deletes a reply, or toggles a like. *)
Theorem comment_count_stays_in_sync
    (feedViewer : FeedViewerProfile.t) (feedReplyInputs : gmap nat string)
    (feedReplyTargets : gmap nat replyTarget) (postIndex commentIndex replyIndex : nat)
    (feedPosts : list FeedPost.t) :
  Forall commentCountInSync feedPosts →
  Forall commentCountInSync
    (handleFeedReplySend feedViewer feedReplyInputs feedReplyTargets postIndex feedPosts)
  ∧ Forall commentCountInSync (handleDeleteFeedComment postIndex commentIndex feedPosts)
  ∧ Forall commentCountInSync (handleDeleteFeedReply postIndex commentIndex replyIndex feedPosts)
  ∧ Forall commentCountInSync (toggleFeedLike postIndex feedPosts).
Proof.
  intros Hall. split; [|split; [|split]].
  - by apply handleFeedReplySend_sync.
  - by apply handleDeleteFeedComment_sync.
  - by apply handleDeleteFeedReply_sync.
  - by apply toggleFeedLike_sync.
Qed.

Lemma comment_count_stays_in_sync_witness :
  Forall commentCountInSync
    (handleFeedReplySend sample_viewer {[ 0%nat := "hey" ]} ∅ 0 [liked_post_without_likes])
  ∧ Forall commentCountInSync (handleDeleteFeedComment 0 0 [liked_post_without_likes])
  ∧ Forall commentCountInSync (handleDeleteFeedReply 0 0 0 [liked_post_without_likes])
  ∧ Forall commentCountInSync (toggleFeedLike 0 [liked_post_without_likes]).
Proof.
  apply (comment_count_stays_in_sync sample_viewer {[ 0%nat := "hey" ]} ∅ 0 0 0
           [liked_post_without_likes]).
  repeat constructor.
Defined.

Lemma isViewerComment_own feedViewer avatar text replies :
  isViewerComment feedViewer
    (Some {| FeedPostComment.author := FeedViewerProfile.name feedViewer;
             FeedPostComment.handle := FeedViewerProfile.user_handle feedViewer;
             FeedPostComment.avatar := avatar;
             FeedPostComment.text := text;
             FeedPostComment.replies := replies |}) = true.
Proof.
  unfold isViewerComment. simpl.
  destruct (string_truthy (FeedViewerProfile.user_handle feedViewer)); simpl;
    by rewrite bool_decide_true.
Qed.

(** X20: what the viewer posts is the viewer's.  A comment sent on a post is
    appended to that post's list, carries the trimmed input as its text, and
    is recognised by [isViewerComment]; a reply sent to a comment is appended
    to that comment's replies, is addressed to the comment's author, and is
    recognised by [isViewerReply]; every other post is left as it is. *)
Theorem handleFeedReplySend_posts_as_viewer
    (feedViewer : FeedViewerProfile.t) (feedReplyInputs : gmap nat string)
    (feedReplyTargets : gmap nat replyTarget) (postIndex : nat)
    (feedPosts : list FeedPost.t) (post : FeedPost.t) :
  trim (default "" (feedReplyInputs !! postIndex)) ≠ "" →
  feedPosts !! postIndex = Some post →
  (∀ j, j ≠ postIndex →
     handleFeedReplySend feedViewer feedReplyInputs feedReplyTargets postIndex feedPosts !! j
     = feedPosts !! j)
  ∧ (default TargetPost (feedReplyTargets !! postIndex) = TargetPost →
     ∃ post' comment,
       handleFeedReplySend feedViewer feedReplyInputs feedReplyTargets postIndex feedPosts
         !! postIndex = Some post'
       ∧ FeedPost.people_comments post'
         = Some (default [] (FeedPost.people_comments post) ++ [comment])
       ∧ FeedPostComment.text comment = trim (default "" (feedReplyInputs !! postIndex))
       ∧ isViewerComment feedViewer (Some comment) = true)
  ∧ (∀ i target,
       default TargetPost (feedReplyTargets !! postIndex) = TargetComment i →
       default [] (FeedPost.people_comments post) !! i = Some target →
       ∃ post' reply,
         handleFeedReplySend feedViewer feedReplyInputs feedReplyTargets postIndex feedPosts
           !! postIndex = Some post'
         ∧ FeedPost.people_comments post'
           = Some (<[i := FeedPostComment.with_replies target
                            (default [] (FeedPostComment.replies target) ++ [reply])]>
                     (default [] (FeedPost.people_comments post)))
         ∧ FeedPostReply.to reply = Some (FeedPostComment.author target)
         ∧ FeedPostReply.text reply = trim (default "" (feedReplyInputs !! postIndex))
         ∧ isViewerReply feedViewer (Some reply) = true).
Proof.
  intros Hcontent Hpost. unfold handleFeedReplySend.
  rewrite bool_decide_false, Hpost by done.
  split; [|split].
  - intros j Hj.
    match goal with |- context [if ?b then feedPosts else _] => destruct b end; [done|].
    rewrite lookup_imap_at, decide_False by done. by destruct (feedPosts !! j).
  - intros ->. rewrite lookup_imap_at, decide_True, Hpost by done. simpl.
    eexists _, _. split; [reflexivity|]. simpl. split; [reflexivity|].
    split; [reflexivity|]. apply isViewerComment_own.
  - intros i target -> Htarget. rewrite Htarget.
    rewrite bool_decide_false by done.
    rewrite lookup_imap_at, decide_True, Hpost by done. simpl.
    eexists _, _. split; [reflexivity|]. simpl. split; [|split; [|split]].
    + f_equal. rewrite imap_at_alter. apply list_eq. intros j.
      rewrite list_lookup_alter.
      destruct (decide (i = j)) as [<-|Hne].
      * rewrite Htarget. simpl. symmetry. apply list_lookup_insert_eq.
        by apply lookup_lt_Some in Htarget.
      * by rewrite list_lookup_insert_ne.
    + reflexivity.
    + reflexivity.
    + unfold isViewerReply. simpl. by rewrite bool_decide_true.
Qed.

Lemma handleFeedReplySend_posts_as_viewer_witness :
  (∀ j, j ≠ 0%nat →
     handleFeedReplySend sample_viewer {[ 0%nat := " hey " ]} ∅ 0 [liked_post_without_likes] !! j
     = [liked_post_without_likes] !! j)
  ∧ (default TargetPost ((∅ : gmap nat replyTarget) !! 0%nat) = TargetPost →
     ∃ post' comment,
       handleFeedReplySend sample_viewer {[ 0%nat := " hey " ]} ∅ 0 [liked_post_without_likes]
         !! 0%nat = Some post'
       ∧ FeedPost.people_comments post'
         = Some (default [] (FeedPost.people_comments liked_post_without_likes) ++ [comment])
       ∧ FeedPostComment.text comment
         = trim (default "" (({[ 0%nat := " hey " ]} : gmap nat string) !! 0%nat))
       ∧ isViewerComment sample_viewer (Some comment) = true)
  ∧ (∀ i target,
       default TargetPost ((∅ : gmap nat replyTarget) !! 0%nat) = TargetComment i →
       default [] (FeedPost.people_comments liked_post_without_likes) !! i = Some target →
       ∃ post' reply,
         handleFeedReplySend sample_viewer {[ 0%nat := " hey " ]} ∅ 0
           [liked_post_without_likes] !! 0%nat = Some post'
         ∧ FeedPost.people_comments post'
           = Some (<[i := FeedPostComment.with_replies target
                            (default [] (FeedPostComment.replies target) ++ [reply])]>
                     (default [] (FeedPost.people_comments liked_post_without_likes)))
         ∧ FeedPostReply.to reply = Some (FeedPostComment.author target)
         ∧ FeedPostReply.text reply
           = trim (default "" (({[ 0%nat := " hey " ]} : gmap nat string) !! 0%nat))
         ∧ isViewerReply sample_viewer (Some reply) = true).
Proof.
  apply (handleFeedReplySend_posts_as_viewer sample_viewer {[ 0%nat := " hey " ]} ∅ 0
           [liked_post_without_likes] liked_post_without_likes).
  - vm_compute. discriminate.
  - reflexivity.
Defined.

(** X21: posting a comment and deleting it again gives back the list of
    posts, when the post had a comment list and a count that is not negative
    and not above [MAX_SAFE_INTEGER] (where adding and subtracting 1 is
    exact on the doubles of the source). *)
Theorem comment_add_then_delete
    (feedViewer : FeedViewerProfile.t) (feedReplyInputs : gmap nat string)
    (feedReplyTargets : gmap nat replyTarget) (postIndex : nat)
    (feedPosts : list FeedPost.t) (post : FeedPost.t)
    (comments : list FeedPostComment.t) (count : Z) :
  trim (default "" (feedReplyInputs !! postIndex)) ≠ "" →
  default TargetPost (feedReplyTargets !! postIndex) = TargetPost →
  feedPosts !! postIndex = Some post →
  FeedPost.people_comments post = Some comments →
  FeedPostStats.comments (FeedPost.stats post) = Some count →
  (0 ≤ count ≤ MAX_SAFE_INTEGER)%Z →
  handleDeleteFeedComment postIndex (List.length comments)
    (handleFeedReplySend feedViewer feedReplyInputs feedReplyTargets postIndex feedPosts)
  = feedPosts.
Proof.
  intros Hcontent Htarget Hpost Hcomments Hcount [Hnonneg Hsafe].
  unfold handleFeedReplySend. rewrite bool_decide_false, Hpost, Htarget by done.
  rewrite imap_at_alter. unfold handleDeleteFeedComment.
  rewrite list_lookup_alter_eq, Hpost. simpl. rewrite Hcomments. simpl.
  rewrite lookup_app_r, Nat.sub_diag by done. simpl.
  rewrite imap_at_alter. apply list_eq. intros j.
  rewrite !list_lookup_alter.
  destruct (decide (postIndex = j)) as [<-|Hne]; [|done].
  rewrite decide_True by done. rewrite Hpost. simpl. f_equal.
  rewrite filter_index_delete, Hcomments. simpl.
  rewrite (delete_middle comments []), app_nil_r.
  destruct post as [user body tags caption [c l liked] pc]. simpl in *. subst.
  unfold FeedPost.with_comments_stats. simpl. do 3 f_equal. lia.
Qed.

Lemma comment_add_then_delete_witness :
  handleDeleteFeedComment 0 (List.length (@nil FeedPostComment.t))
    (handleFeedReplySend sample_viewer {[ 0%nat := "hey" ]} ∅ 0 [commented_post])
  = [commented_post].
Proof.
  apply (comment_add_then_delete sample_viewer {[ 0%nat := "hey" ]} ∅ 0 [commented_post]
           commented_post [] 0).
  - vm_compute. discriminate.
  - reflexivity.
  - reflexivity.
  - reflexivity.
  - reflexivity.
  - unfold MAX_SAFE_INTEGER. lia.
Defined.

(** ** The viewer's own posts *)

Lemma filter_all {A} (P : A → Prop) `{∀ x, Decision (P x)} (l : list A) :
  Forall P l → filter P l = l.
Proof.
  induction 1 as [|x l Hx _ IH]; [done|].
  rewrite filter_cons, decide_True by done. by rewrite IH.
Qed.

(** X22: a post made with [handleNewPostSubmit] goes to the head of the
    list with counts of 0 and an empty comment list; deleting it by its id
    gives back the list, as long as no other post has that id; and a body of
    white space only makes no post. *)
Theorem post_submit_then_delete
    (now : Z) (newPostBody newPostImage : string) (userPosts : list ProfilePost.t) :
  (trim newPostBody = "" →
   handleNewPostSubmit now newPostBody newPostImage userPosts = userPosts)
  ∧ (trim newPostBody ≠ "" →
     (∃ newPost,
        handleNewPostSubmit now newPostBody newPostImage userPosts = newPost :: userPosts
        ∧ ProfilePost.id newPost = localPostId now
        ∧ ProfilePost.body newPost = trim newPostBody
        ∧ ProfilePost.image_caption newPost ≠ Some ""
        ∧ ProfilePost.stats newPost
          = {| FeedPostStats.comments := Some 0%Z; FeedPostStats.likes := Some 0%Z;
               FeedPostStats.is_liked_by_viewer := Some false |})
     ∧ (Forall (λ post, ProfilePost.id post ≠ localPostId now) userPosts →
        handleDeletePost (localPostId now)
          (handleNewPostSubmit now newPostBody newPostImage userPosts)
        = userPosts)).
Proof.
  unfold handleNewPostSubmit. split.
  - intros ->. reflexivity.
  - intros Hbody. rewrite bool_decide_false by done. split.
    + eexists. split; [reflexivity|]. simpl. repeat split; try reflexivity.
      case_bool_decide; [done|]. congruence.
    + intros Hfresh. unfold handleDeletePost.
      rewrite filter_cons, decide_False by (simpl; intros Hne; by apply Hne).
      by apply filter_all.
Qed.

(** ** The message composer *)

(** X23: sending after staging the input is sending the input: staging the
    current input and then sending everything gives the same screen as
    sending everything at once; and with nothing staged, the Enter key does
    what the send button does. *)
Theorem composer_stage_then_send
    (dmViewer : DMParticipant.t) (timestamp : string) (composer : DmComposer) :
  handleSendAllMessages dmViewer timestamp (handleStageMessage composer)
  = handleSendAllMessages dmViewer timestamp composer
  ∧ (dmStagedMessages composer = [] →
     handleDmKeyDown dmViewer timestamp false false false "Enter" composer
     = handleSendAllMessages dmViewer timestamp composer).
Proof.
  destruct composer as [messages staged input].
  unfold handleSendAllMessages, handleStageMessage, handleDmKeyDown. simpl. split.
  - case_bool_decide as Hcontent; simpl.
    + by rewrite Hcontent.
    + rewrite app_nil_r. rewrite !length_app. simpl.
      destruct (Nat.eqb_spec (List.length staged + 1) 0) as [Hlen|_]; [lia|].
      reflexivity.
  - intros ->. case_bool_decide; reflexivity.
Qed.

(** X24: the composer only sends messages that have a content.  If no
    staged message is empty, staging keeps it so (the input is trimmed and
    dropped when nothing is left), and every message that the send button or
    the Enter key puts on screen has a content that is not empty, the
    viewer's handle as sender, and the flag [is_read] off. *)
Theorem composer_sends_nonempty
    (dmViewer : DMParticipant.t) (timestamp : string) (ctrlKey metaKey shiftKey : bool)
    (key : string) (composer : DmComposer) :
  Forall (λ staged, staged ≠ "") (dmStagedMessages composer) →
  Forall (λ staged, staged ≠ "") (dmStagedMessages (handleStageMessage composer))
  ∧ (∃ sent,
       dmMessages (handleSendAllMessages dmViewer timestamp composer)
       = dmMessages composer ++ sent
       ∧ Forall (λ m, DMMessage.content m ≠ ""
                      ∧ DMMessage.sender_handle m = DMParticipant.handle dmViewer
                      ∧ DMMessage.is_read m = Some false) sent)
  ∧ (∃ sent,
       dmMessages (handleDmKeyDown dmViewer timestamp ctrlKey metaKey shiftKey key composer)
       = dmMessages composer ++ sent
       ∧ Forall (λ m, DMMessage.content m ≠ ""
                      ∧ DMMessage.sender_handle m = DMParticipant.handle dmViewer
                      ∧ DMMessage.is_read m = Some false) sent).
Proof.
  intros Hstaged. destruct composer as [messages staged input]. simpl in *.
  assert (Forall (λ staged0, staged0 ≠ "")
            (dmStagedMessages
               (handleStageMessage
                  {| dmMessages := messages; dmStagedMessages := staged; dmInput := input |})))
    as Hstage.
  { unfold handleStageMessage. simpl. case_bool_decide; simpl; [done|].
    apply Forall_app. split; [done|]. by constructor. }
  split; [exact Hstage|]. split.
  - unfold handleSendAllMessages. simpl.
    destruct (Nat.eqb _ 0); simpl.
    + exists []. by rewrite app_nil_r.
    + eexists. split; [reflexivity|].
      apply Forall_fmap, Forall_app. split.
      * eapply Forall_impl; [exact Hstaged|]. by intros s Hs.
      * case_bool_decide; by repeat constructor.
  - unfold handleDmKeyDown.
    destruct ((ctrlKey || metaKey) && bool_decide (key = "Enter")).
    + exists []. rewrite app_nil_r. unfold handleStageMessage. simpl.
      by case_bool_decide.
    + destruct (bool_decide (key = "Enter") && negb shiftKey); simpl.
      * case_bool_decide; simpl.
        -- exists []. by rewrite app_nil_r.
        -- eexists. split; [reflexivity|]. by repeat constructor.
      * exists []. by rewrite app_nil_r.
Qed.

Lemma composer_sends_nonempty_witness :
  Forall (λ staged, staged ≠ "") (dmStagedMessages (handleStageMessage sample_composer))
  ∧ (∃ sent,
       dmMessages (handleSendAllMessages sample_partner "12:00" sample_composer)
       = dmMessages sample_composer ++ sent
       ∧ Forall (λ m, DMMessage.content m ≠ ""
                      ∧ DMMessage.sender_handle m = DMParticipant.handle sample_partner
                      ∧ DMMessage.is_read m = Some false) sent)
  ∧ (∃ sent,
       dmMessages (handleDmKeyDown sample_partner "12:00" false false false "Enter"
                     sample_composer)
       = dmMessages sample_composer ++ sent
       ∧ Forall (λ m, DMMessage.content m ≠ ""
                      ∧ DMMessage.sender_handle m = DMParticipant.handle sample_partner
                      ∧ DMMessage.is_read m = Some false) sent).
Proof.
  apply (composer_sends_nonempty sample_partner "12:00" false false false "Enter"
           sample_composer).
  repeat constructor. discriminate.
Defined.

(** ** [getInitialChar] *)

(** X25: the initial shown for a name is its first character that is not
    white space; for a missing name, or one of white space only, it is the
    fallback. *)
Theorem getInitialChar_first_visible (value : option string) (fallback : string) :
  (∃ s c rest,
     value = Some s ∧ trim s = String c rest ∧ is_space c = false
     ∧ getInitialChar value fallback = String c "")
  ∨ ((value = None ∨ ∃ s, value = Some s ∧ trim s = "")
     ∧ getInitialChar value fallback = fallback).
Proof.
  unfold getInitialChar. destruct value as [s|]; simpl; [|right; split; [by left | done]].
  destruct (trim_head s) as [Hempty|(c & rest & Htrim & Hc)].
  - right. rewrite Hempty. split; [right; by exists s | done].
  - left. rewrite Htrim. by exists s, c, rest.
Qed.

(** ** The follow toggle *)

(** X26: the follower count never goes below 0; two toggles give back the
    state when the count is not negative, not above [MAX_SAFE_INTEGER]
    (where adding and subtracting 1 is exact on the doubles of the source),
    and the profile was not followed or had at least one follower; a
    followed profile with 0 followers comes back with 1. *)
Theorem follow_toggle_twice (prev : bool) (count : Z) :
  (0 ≤ (handleProfileFollowToggle (prev, count)).2)%Z
  ∧ ((0 ≤ count ≤ MAX_SAFE_INTEGER)%Z → prev = false ∨ (1 ≤ count)%Z →
     handleProfileFollowToggle (handleProfileFollowToggle (prev, count)) = (prev, count))
  ∧ handleProfileFollowToggle (handleProfileFollowToggle (true, 0%Z)) = (true, 1%Z).
Proof.
  split; [simpl; lia|]. split; [|reflexivity].
  intros [Hcount Hsafe] Hprev. unfold handleProfileFollowToggle.
  destruct prev; simpl; f_equal; destruct Hprev as [Hprev|Hprev]; try done; lia.
Qed.

(** ** Reader: the structured backend comes first *)

(** X27: when the structured backend holds a root for the current message,
    the reader returns it and does not consult the generic backend. *)
Theorem readEchoChamberVariables_structured_first
    (h : Host) (depth : nat) (mvu : MvuApi) (getData : VariableOption → Result value)
    (id : Z) (variables root : value) :
  Mvu h = Some mvu → getMvuData mvu = Some getData →
  getCurrentMessageId h = Some (Ok id) →
  getData (OptMessage (MessageId id)) = Ok variables →
  outcome (coerceRootData h depth
             (lodash_get (lodash_get variables "stat_data") "echo_chamber"
              ?? lodash_get variables "stat_data")) = Ok root →
  truthy root = true →
  outcome (readEchoChamberVariables h depth) = Ok root
  ∧ ∀ scope, CallGetVariables scope ∉ emitted (readEchoChamberVariables h depth).
Proof.
  intros Hmvu Hget Hid Hread Hroot Htruthy.
  unfold readEchoChamberVariables, readMvu. rewrite Hmvu, Hid, Hget. eff_simpl.
  rewrite Hread. eff_simpl.
  pose proof (coerceRootData_console h depth
                (lodash_get (lodash_get variables "stat_data") "echo_chamber"
                 ?? lodash_get variables "stat_data")) as Hconsole.
  destruct (coerceRootData h depth _) as [l r]. simpl in Hroot, Hconsole. subst r.
  eff_simpl. rewrite Htruthy. eff_simpl.
  split; [done|]. intros scope Hin. rewrite !app_nil_r in Hin.
  apply elem_of_cons in Hin as [Hin|Hin]; [discriminate Hin|].
  rewrite Forall_forall in Hconsole. by apply Hconsole in Hin.
Qed.

Lemma readEchoChamberVariables_structured_first_witness :
  outcome (readEchoChamberVariables structuredHost 8)
  = Ok (VObj [("echo_chamber_feed", VObj [("posts", VArr [])]);
              ("user_profile_page", VUndefined);
              ("direct_message_thread", VUndefined)])
  ∧ ∀ scope, CallGetVariables scope ∉ emitted (readEchoChamberVariables structuredHost 8).
Proof.
  apply (readEchoChamberVariables_structured_first structuredHost 8
           {| getMvuData :=
                Some (λ _, Ok (VObj [("stat_data",
                                      VObj [("echo_chamber_feed", VObj [("posts", VArr [])])])]));
              replaceMvuData := λ _ _, Ok () |}
           (λ _, Ok (VObj [("stat_data",
                            VObj [("echo_chamber_feed", VObj [("posts", VArr [])])])]))
           7
           (VObj [("stat_data", VObj [("echo_chamber_feed", VObj [("posts", VArr [])])])]));
    reflexivity.
Defined.

(** ** [refreshData]: a feed whose posts are not a list *)

(** X28: the feed is not checked before it is normalised: when the reader
    returns a root whose feed has under [posts] something that is not a
    list (and not empty, 0, [false], [null] or missing), [refreshData]
    throws a [TypeError] instead of returning. *)
Theorem refreshData_posts_not_a_list
    (h : Host) (depth : nat) (data root : value) :
  substitudeMacros h = None →
  outcome (readEchoChamberVariables h depth) = Ok root →
  truthy root = true →
  truthy (member (member root "echo_chamber_feed") "posts") = true →
  (∀ items, member (member root "echo_chamber_feed") "posts" ≠ VArr items) →
  outcome (refreshData h depth data) = Raise (TypeError "map is not a function").
Proof.
  intros Hmacros Hread Hroot Hposts Hlist. unfold refreshData.
  destruct (readEchoChamberVariables h depth) as [l r]. simpl in Hread. subst r.
  eff_simpl. rewrite Hroot. simpl.
  destruct (resolveMacrosDeep_spec h root) as (lm & -> & _). eff_simpl.
  rewrite mapStrings_fixed by (intros s; unfold resolvedString; by rewrite Hmacros).
  destruct (member root "echo_chamber_feed") as [| |b|n|s|items|o] eqn:Hfeed;
    try (by simpl in Hposts).
  simpl in Hposts, Hlist. simpl truthy. cbn iota.
  unfold normalizeEchoChamberFeed. simpl. rewrite Hposts. simpl.
  destruct (field "posts" o) as [| |b|n|s|items|o']; try done.
  by destruct (Hlist items).
Qed.

Lemma refreshData_posts_not_a_list_witness :
  outcome (refreshData brokenFeedHost 8 (VObj []))
  = Raise (TypeError "map is not a function").
Proof.
  apply (refreshData_posts_not_a_list brokenFeedHost 8 (VObj [])
           (VObj [("echo_chamber_feed", VObj [("posts", VStr "soon")]);
                  ("user_profile_page", VUndefined);
                  ("direct_message_thread", VUndefined)])).
  - reflexivity.
  - reflexivity.
  - reflexivity.
  - reflexivity.
  - intros items. discriminate.
Defined.
